(** * DashboardMS: the spectral-analysis core, embedded and verified

    The development follows the JavaScript sources class by class:

    - [RAOVisualizer]: heading folding, nearest-heading selection and the
      response-table parser ([parseRAOFile]), over the rationals [Q];
    - [JonswapSpectrum]: the wave spectrum and the iterative calibration of
      [alpha], over the reals [R];
    - [PowerSpectralDensity]: interpolation, acceleration scaling, the Wf
      weighting cascade and the MSDV integrator, over [R].

    A JavaScript number is an IEEE double.  Every finite double is a rational
    number, so the parser side is modelled over [Q] (and runs inside Rocq);
    the spectral side needs [sqrt], [exp], [cos] and [PI] and is modelled over
    [R].  In both, arithmetic is exact: rounding, overflow and underflow are
    not modelled.  An equality proved here names the expression the code
    evaluates, whose value in doubles is that of the expression up to
    rounding.  Where a property would not stand rounding or underflow, it is
    stated for inputs on which the arithmetic of the code is exact (whole
    numbers) or for a range of inputs away from underflow.  Where rounding
    decides, the function is embedded a second time over the doubles
    themselves ([Double]). *)

From Stdlib Require Import ZArith QArith Qround Qabs Lia.
From Stdlib Require Import List Bool String Ascii.
From Stdlib Require Import Sorted Permutation.
From Stdlib Require Import Reals Qreals Psatz.
From Stdlib Require Import PrimFloat.
Import ListNotations.

(** ** JavaScript numbers on the parser side *)

Module JsQ.
Local Open Scope Q_scope.

(** Truncation toward zero, as performed by the [%] operator. *)
Definition Qtrunc (q : Q) : Z :=
  if Qle_bool 0 q then Qfloor q else Qceiling q.

(** [x % m] on numbers: the remainder has the sign of the dividend [x].
    The sources only ever use the modulus [360]. *)
Definition js_rem (x m : Q) : Q := x - m * inject_Z (Qtrunc (x / m)).

(** [a < b] as a JavaScript condition. *)
Definition Qltb (a b : Q) : bool := if Qlt_le_dec a b then true else false.

(** [a > b] as a JavaScript condition. *)
Definition Qgtb (a b : Q) : bool := Qltb b a.

(** [Array.prototype.reduce] without an initial value on an array whose first
    element is [first] and whose remaining elements are [rest]. *)
Definition reduce1 {A : Type} (f : A -> A -> A) (first : A) (rest : list A) : A :=
  fold_left f rest first.

End JsQ.

(** ** JavaScript strings

    A text is modelled by the Rocq string of its UTF-16 code units, for
    texts whose code units are all below 256.  The white space of [trim] and
    of the regular expression [\s] is the part of the JavaScript definition
    below 256: TAB, LF, VT, FF, CR, SPACE and the no-break space U+00A0; the
    blanks above 255 (U+1680, U+2000 to U+200A, U+2028, U+2029, U+202F,
    U+205F, U+3000, U+FEFF) cannot occur in such a text. *)

Module JsString.
Local Open Scope string_scope.

Definition is_ws (c : ascii) : bool :=
  let n := nat_of_ascii c in
  (Nat.eqb n 9 || Nat.eqb n 10 || Nat.eqb n 11 || Nat.eqb n 12 || Nat.eqb n 13
   || Nat.eqb n 32 || Nat.eqb n 160)%bool.

Definition newline : ascii := ascii_of_nat 10.

(** [s.split('\n')]: never empty, the empty text gives one empty line. *)
Fixpoint split_lines (s : string) : list string :=
  match s with
  | EmptyString => [EmptyString]
  | String c r =>
      if Ascii.eqb c newline then EmptyString :: split_lines r
      else match split_lines r with
           | l :: ls => String c l :: ls
           | [] => [String c EmptyString]
           end
  end.

Fixpoint trim_start (s : string) : string :=
  match s with
  | EmptyString => EmptyString
  | String c r => if is_ws c then trim_start r else s
  end.

Fixpoint trim_end (s : string) : string :=
  match s with
  | EmptyString => EmptyString
  | String c r =>
      match trim_end r with
      | EmptyString => if is_ws c then EmptyString else String c EmptyString
      | r' => String c r'
      end
  end.

(** [s.trim()]. *)
Definition trim (s : string) : string := trim_end (trim_start s).

(** [s.startsWith(p)]. *)
Definition startsWith (p s : string) : bool := String.prefix p s.

(** [s.includes(sub)]. *)
Fixpoint includes (sub s : string) : bool :=
  (String.prefix sub s
   || match s with
      | EmptyString => false
      | String _ r => includes sub r
      end)%bool.

Fixpoint drop (n : nat) (s : string) : string :=
  match n, s with
  | O, _ => s
  | S n', String _ r => drop n' r
  | S _, EmptyString => EmptyString
  end.

(** [s.replace(pat, '')] with a string pattern: the first occurrence of [pat]
    is removed, the others stay. *)
Fixpoint remove_first (pat s : string) : string :=
  if String.prefix pat s then drop (String.length pat) s
  else match s with
       | EmptyString => EmptyString
       | String c r => String c (remove_first pat r)
       end.

(** [s.split(/\s+/)], scanning with a flag that tells whether the previous
    character belonged to a run of white space.  A run closes the current
    token; leading or trailing white space leaves an empty token at that end,
    and the empty string gives one empty token. *)
Fixpoint split_ws_aux (in_ws : bool) (s : string) : list string :=
  match s with
  | EmptyString => [EmptyString]
  | String c r =>
      if is_ws c then
        if in_ws then split_ws_aux true r
        else EmptyString :: split_ws_aux true r
      else match split_ws_aux false r with
           | tok :: toks => String c tok :: toks
           | [] => [String c EmptyString]
           end
  end.

Definition split_ws (s : string) : list string := split_ws_aux false s.

(** [!s] on a string: only the empty string is falsy. *)
Definition is_empty (s : string) : bool :=
  match s with EmptyString => true | _ => false end.

End JsString.

(** ** RAOVisualizer *)

Module RAOVisualizer.
Import JsQ.
Local Open Scope Q_scope.

(** [unwrapHeading(heading)]. *)
Definition unwrapHeading (heading : Q) : Q :=
  let heading := js_rem (js_rem heading 360 + 360) 360 in
  if Qgtb heading 180 then Qabs (360 - heading) else heading.

(** The callback of the [reduce] in [findNearestHeading]. *)
Definition nearer (heading prev curr : Q) : Q :=
  if Qltb (Qabs (curr - heading)) (Qabs (prev - heading)) then curr else prev.

Definition availableHeadings : list Q := [0; 30; 60; 90; 120; 150; 180].

(** [findNearestHeading(heading)]. *)
Definition findNearestHeading (heading : Q) : Q :=
  let heading := unwrapHeading heading in
  reduce1 (nearer heading) 0 [30; 60; 90; 120; 150; 180].

(** *** The response-table parser

    [parseFloat] and [Number] are the JavaScript built-ins; [None] is [NaN].
    The parser is stated for any such pair of functions; tokens that denote
    an infinity are outside the model. *)

Definition qnum : Type := option Q.

Record RAOData : Type := mkRAOData {
  periods : list Q;
  amplitudes : list Q;
  phases : list Q
}.

(** The three variables set by the header scan. *)
Record Header : Type := mkHeader {
  headingLineIdx : Z;
  headings : list qnum;
  dataStartIdx : Z
}.

(** The variables of the data-row loop; [prevPhase = None] is [null]. *)
Record Rows : Type := mkRows {
  r_periods : list Q;
  r_amplitudes : list Q;
  r_phases : list Q;
  prevPhase : option Q;
  phaseOffset : Q
}.

(** [Math.abs(a - b)] where [a] may be [NaN]. *)
Definition abs_diff (a : qnum) (b : Q) : qnum :=
  match a with Some x => Some (Qabs (x - b)) | None => None end.

(** [a < b] where either side may be [NaN]: false then. *)
Definition num_ltb (a b : qnum) : bool :=
  match a, b with Some x, Some y => Qltb x y | _, _ => false end.

(** [a === b] on numbers: [NaN] equals nothing. *)
Definition num_eqb (a b : qnum) : bool :=
  match a, b with Some x, Some y => Qeq_bool x y | _, _ => false end.

(** The callback of the [reduce] that picks the nearest heading column. *)
Definition nearerCol (targetHeading : Q) (prev curr : qnum) : qnum :=
  if num_ltb (abs_diff curr targetHeading) (abs_diff prev targetHeading)
  then curr else prev.

(** [arr.indexOf(x)], counting from [i]; [-1] when absent. *)
Fixpoint indexOf_from (arr : list qnum) (x : qnum) (i : Z) : Z :=
  match arr with
  | [] => (-1)%Z
  | y :: r => if num_eqb y x then i else indexOf_from r x (i + 1)%Z
  end.

Definition indexOf (arr : list qnum) (x : qnum) : Z := indexOf_from arr x 0%Z.

(** [arr[i]] on an array of strings; [None] is [undefined]. *)
Definition token_at (arr : list string) (i : Z) : option string :=
  if (i <? 0)%Z then None else nth_error arr (Z.to_nat i).

(** The phase normalisation of the data-row loop:
    [((phase + 180) % 360) - 180]. *)
Definition normalizePhase (phase : Q) : Q := js_rem (phase + 180) 360 - 180.

(** A stable sort by insertion: [a] goes before the first element it does not
    exceed.  With a consistent comparator this is what [Array.prototype.sort]
    returns. *)
Fixpoint insert_by (cmp : nat -> nat -> Q) (a : nat) (l : list nat) : list nat :=
  match l with
  | [] => [a]
  | b :: r => if Qgtb (cmp a b) 0 then b :: insert_by cmp a r else a :: b :: r
  end.

Definition sort_by (cmp : nat -> nat -> Q) (l : list nat) : list nat :=
  fold_right (insert_by cmp) [] l.

Section Parser.

Variable parseFloat : string -> qnum.
Variable Number : string -> qnum.

(** [parseFloat(vals[i])]; [parseFloat(undefined)] is [NaN]. *)
Definition parseFloat_at (vals : list string) (i : Z) : qnum :=
  match token_at vals i with Some s => parseFloat s | None => None end.

(** One turn of the header loop, on line [i]. *)
Definition scan_line (h : Header) (i : nat) (line : string) : Header :=
  let h1 :=
    if JsString.startsWith "#HEADING" (JsString.trim line)
    then mkHeader (Z.of_nat i)
           (map Number
              (JsString.split_ws
                 (JsString.trim (JsString.remove_first "#HEADING" line))))
           (dataStartIdx h)
    else h in
  if JsString.includes "w(r/s)" line
  then mkHeader (headingLineIdx h1) (headings h1) (Z.of_nat i + 1)
  else h1.

Fixpoint scan_lines (lines : list string) (i : nat) (h : Header) : Header :=
  match lines with
  | [] => h
  | line :: rest => scan_lines rest (S i) (scan_line h i line)
  end.

Definition scan_init : Header := mkHeader (-1) [] (-1).

(** The update of [phaseOffset] from the step between the normalised phase
    and the previous one. *)
Definition nextOffset (prev : option Q) (offset phase : Q) : Q :=
  match prev with
  | None => offset
  | Some prevPhase =>
      let diff := phase - prevPhase in
      if Qgtb diff 180 then offset - 360
      else if Qltb diff (-180) then offset + 360
      else offset
  end.

(** One turn of the data-row loop. *)
Definition row_step (nheadings : nat) (headingIdx : Z) (st : Rows)
    (rawline : string) : Rows :=
  let line := JsString.trim rawline in
  if (JsString.is_empty line || JsString.startsWith "#" line)%bool then st else
  let vals := JsString.split_ws line in
  if (List.length vals <? 1 + 2 * nheadings)%nat then st else
  match parseFloat_at vals 0 with
  | None => st
  | Some w =>
      let freq := w in
      match parseFloat_at vals (1 + headingIdx),
            parseFloat_at vals (1 + Z.of_nat nheadings + headingIdx) with
      | Some amp, Some phase =>
          let phase := normalizePhase phase in
          let offset := nextOffset (prevPhase st) (phaseOffset st) phase in
          let phase := phase + offset in
          mkRows (r_periods st ++ [freq]) (r_amplitudes st ++ [amp])
            (r_phases st ++ [phase]) (Some (phase - offset)) offset
      | _, _ => st
      end
  end.

Definition rows_init : Rows := mkRows [] [] [] None 0.

(** The column read for [targetHeading]: the index, in the array of
    headings, of the heading nearest to it.  The array comes from a [split]
    and is never empty, so the [reduce] cannot meet an empty array ([None]
    here). *)
Definition headingColumn (headings : list qnum) (targetHeading : Q) : option Z :=
  match headings with
  | [] => None
  | first :: rest =>
      let nearestHeading := reduce1 (nearerCol targetHeading) first rest in
      Some (indexOf headings nearestHeading)
  end.

(** The lines visited by the data-row loop. *)
Definition dataLines (h : Header) (lines : list string) : list string :=
  skipn (Z.to_nat (dataStartIdx h)) lines.

(** [parseRAOFile(content, targetHeading)]; [None] is the [null] returned
    when a marker is missing. *)
Definition parseRAOFile (content : string) (targetHeading : Q) : option RAOData :=
  let lines := JsString.split_lines content in
  let h := scan_lines lines 0 scan_init in
  if ((headingLineIdx h =? -1)%Z || (dataStartIdx h =? -1)%Z)%bool then None else
  match headingColumn (headings h) targetHeading with
  | None => None
  | Some headingIdx =>
      let st :=
        fold_left (row_step (List.length (headings h)) headingIdx)
          (dataLines h lines) rows_init in
      let periods := r_periods st in
      let indices :=
        sort_by (fun a b => nth a periods 0 - nth b periods 0)
          (seq 0 (List.length periods)) in
      Some (mkRAOData (map (fun i => nth i periods 0) indices)
              (map (fun i => nth i (r_amplitudes st) 0) indices)
              (map (fun i => nth i (r_phases st) 0) indices))
  end.

(** The degree of freedom named by the first argument of [loadRAOFile]. *)
Inductive dof : Type := heave | pitch.

(** [findNearestSpeedFolder(speed)], as the number of knots of the folder:
    [parseInt] reads the speeds 0, 4, 8, 10, 12, 14 and 16 from
    [speedFolders]. *)
Definition findNearestSpeedFolder (speed : Q) : Z :=
  reduce1
    (fun prev curr =>
       if Qltb (Qabs (inject_Z curr - speed)) (Qabs (inject_Z prev - speed))
       then curr else prev)
    0%Z [4; 8; 10; 12; 14; 16]%Z.

(** The server: the text of the file for a degree of freedom and a speed, or
    [None] when the request fails or its status is not ok. *)
Variable fetch : dof -> Z -> option string.

(** [loadRAOFile(type, speed, heading)]: a failed request is caught and gives
    [null], like a failed parse. *)
Definition loadRAOFile (type : dof) (speed heading : Q) : option RAOData :=
  let speedInt := findNearestSpeedFolder speed in
  match fetch type speedInt with
  | None => None
  | Some text => parseRAOFile text heading
  end.

End Parser.

(** *** Views of a table, used to state its properties *)

(** The row the data loop reads on a line, as (frequency, amplitude, phase as
    written), or [None] when it skips the line. *)
Definition accepted_row (parseFloat : string -> qnum) (nheadings : nat)
    (headingIdx : Z) (rawline : string) : option (Q * Q * Q) :=
  let line := JsString.trim rawline in
  if (JsString.is_empty line || JsString.startsWith "#" line)%bool then None else
  let vals := JsString.split_ws line in
  if (List.length vals <? 1 + 2 * nheadings)%nat then None else
  match parseFloat_at parseFloat vals 0,
        parseFloat_at parseFloat vals (1 + headingIdx),
        parseFloat_at parseFloat vals (1 + Z.of_nat nheadings + headingIdx) with
  | Some w, Some amp, Some phase => Some (w, amp, phase)
  | _, _, _ => None
  end.

Fixpoint choose {A B : Type} (f : A -> option B) (l : list A) : list B :=
  match l with
  | [] => []
  | x :: r => match f x with Some y => y :: choose f r | None => choose f r end
  end.

(** The rows of a table read for [targetHeading], in file order. *)
Definition table_rows (parseFloat Number : string -> qnum) (content : string)
    (targetHeading : Q) : list (Q * Q * Q) :=
  let lines := JsString.split_lines content in
  let h := scan_lines Number lines 0 scan_init in
  match headingColumn (headings h) targetHeading with
  | None => []
  | Some headingIdx =>
      choose (accepted_row parseFloat (List.length (headings h)) headingIdx)
        (dataLines h lines)
  end.

(** What the data loop does with a row it reads. *)
Definition push_row (st : Rows) (row : Q * Q * Q) : Rows :=
  let '(freq, amp, phase) := row in
  let phase := normalizePhase phase in
  let offset := nextOffset (prevPhase st) (phaseOffset st) phase in
  let phase := phase + offset in
  mkRows (r_periods st ++ [freq]) (r_amplitudes st ++ [amp])
    (r_phases st ++ [phase]) (Some (phase - offset)) offset.

Definition row_freq (row : Q * Q * Q) : Q := fst (fst row).
Definition row_phase (row : Q * Q * Q) : Q := snd row.

(** Consecutive elements never decrease. *)
Fixpoint ascending (l : list Q) : Prop :=
  match l with
  | a :: (b :: _) as r => a <= b /\ ascending r
  | _ => True
  end.

(** Consecutive elements differ by at most [bound] in absolute value. *)
Fixpoint steps_within (bound : Q) (l : list Q) : Prop :=
  match l with
  | a :: (b :: _) as r => Qabs (b - a) <= bound /\ steps_within bound r
  | _ => True
  end.

(** The scan keeps: the heading line is unset, or it is a line number and
    the array of headings is not empty. *)
Definition header_ok (h : Header) : Prop :=
  headingLineIdx h = (-1)%Z \/ ((0 <= headingLineIdx h)%Z /\ headings h <> []).

Definition data_ok (h : Header) : Prop :=
  dataStartIdx h = (-1)%Z \/ (1 <= dataStartIdx h)%Z.

(** What the data loop keeps true: the three arrays have one length, the
    phases pushed so far step by at most 180, and the last of them is the
    previous normalised phase plus the offset. *)
Definition unwrap_inv (st : Rows) : Prop :=
  List.length (r_phases st) = List.length (r_periods st) /\
  steps_within 180 (r_phases st) /\
  match prevPhase st with
  | None => r_phases st = []
  | Some p =>
      -180 <= p /\ p < 180 /\
      exists l last, r_phases st = l ++ [last] /\ last == p + phaseOffset st
  end.

(** A line carries the [#HEADING] marker, or the [w(r/s)] marker. *)
Definition has_heading_marker (line : string) : bool :=
  JsString.startsWith "#HEADING" (JsString.trim line).

Definition has_data_marker (line : string) : bool :=
  JsString.includes "w(r/s)" line.

(** *** Plain decimal literals

    A reader for signed decimal literals without exponent, on which
    [parseFloat] and [Number] agree with it; it instantiates the parser on
    concrete tables. *)

Definition digit_of (c : ascii) : option Z :=
  let n := nat_of_ascii c in
  if ((48 <=? n) && (n <=? 57))%nat then Some (Z.of_nat (n - 48)) else None.

(** Reads a run of digits: the number read so far, how many digits, the rest. *)
Fixpoint read_digits (s : string) (acc : Z) (count : nat) : Z * nat * string :=
  match s with
  | EmptyString => (acc, count, s)
  | String c r =>
      match digit_of c with
      | Some d => read_digits r (10 * acc + d)%Z (S count)
      | None => (acc, count, s)
      end
  end.

Definition read_unsigned (s : string) : option (Q * string) :=
  let '(ip, ni, rest) := read_digits s 0%Z 0%nat in
  match rest with
  | String "." r =>
      let '(fp, nf, rest') := read_digits r 0%Z 0%nat in
      if ((ni + nf)%nat =? 0)%nat then None
      else Some (Qred (inject_Z ip + Qmake fp (Pos.pow 10 (Pos.of_nat nf))), rest')
  | _ => if (ni =? 0)%nat then None else Some (inject_Z ip, rest)
  end.

Definition read_decimal (s : string) : option (Q * string) :=
  match s with
  | String "-" r =>
      match read_unsigned r with
      | Some (q, rest) => Some (Qred (- q), rest)
      | None => None
      end
  | String "+" r => read_unsigned r
  | _ => read_unsigned s
  end.

(** [parseFloat] on plain decimals: leading white space is skipped and what
    follows the literal is ignored. *)
Definition decimal_parseFloat (s : string) : qnum :=
  match read_decimal (JsString.trim_start s) with
  | Some (q, _) => Some q
  | None => None
  end.

(** [Number] on plain decimals: the whole trimmed string must be a literal,
    and the empty string is [0]. *)
Definition decimal_Number (s : string) : qnum :=
  let t := JsString.trim s in
  if JsString.is_empty t then Some 0
  else match read_decimal t with
       | Some (q, EmptyString) => Some q
       | _ => None
       end.

End RAOVisualizer.

(** ** JavaScript numbers on the spectral side

    A number is [Some x] for a finite real [x], and [None] once a
    computation has left the finite reals: [NaN], an infinity, or [undefined]
    read from an array.  Arithmetic on [None] gives [None] and comparisons
    with [None] are false, as with [NaN]. *)

Module JsR.
Local Open Scope R_scope.

Definition num : Type := option R.

Definition fin (x : R) : num := Some x.

Definition lift1 (f : R -> R) (a : num) : num :=
  match a with Some x => Some (f x) | None => None end.

Definition lift2 (f : R -> R -> R) (a b : num) : num :=
  match a, b with Some x, Some y => Some (f x y) | _, _ => None end.

Definition add : num -> num -> num := lift2 Rplus.
Definition sub : num -> num -> num := lift2 Rminus.
Definition mul : num -> num -> num := lift2 Rmult.
Definition neg : num -> num := lift1 Ropp.

(** Division: a zero divisor gives an infinity or [NaN]. *)
Definition div (a b : num) : num :=
  match a, b with
  | Some x, Some y => if Req_dec_T y 0 then None else Some (x / y)
  | _, _ => None
  end.

(** [Math.sqrt]: [NaN] on a negative number. *)
Definition sqrt (a : num) : num :=
  match a with
  | Some x => if Rlt_dec x 0 then None else Some (R_sqrt.sqrt x)
  | None => None
  end.

(** [Math.pow(a, n)] for a natural exponent [n]. *)
Definition pow (a : num) (n : nat) : num := lift1 (fun x => x ^ n) a.

(** [Math.pow(a, -n)] for a positive natural [n]: an infinity at [0]. *)
Definition pow_neg (a : num) (n : nat) : num := div (fin 1) (pow a n).

(** [Math.pow(a, b)] for a positive base [a] and a real exponent.  The only
    such call in the sources has the base [gamma = 3.3]; other bases are
    not modelled. *)
Definition pow_real (a b : num) : num :=
  match a, b with
  | Some x, Some y => if Rlt_dec 0 x then Some (Rpower x y) else None
  | _, _ => None
  end.

Definition exp : num -> num := lift1 Rtrigo_def.exp.
Definition cos : num -> num := lift1 Rtrigo_def.cos.
Definition abs : num -> num := lift1 Rabs.

Definition ltb (a b : num) : bool :=
  match a, b with
  | Some x, Some y => if Rlt_dec x y then true else false
  | _, _ => false
  end.

Definition leb (a b : num) : bool :=
  match a, b with
  | Some x, Some y => if Rle_dec x y then true else false
  | _, _ => false
  end.

Definition geb (a b : num) : bool := leb b a.

(** [arr[i]] for an integer [i]: [undefined] outside the array. *)
Definition at_index (arr : list num) (i : Z) : num :=
  if (i <? 0)%Z then None else nth (Z.to_nat i) arr None.

(** [arr.map((x, i) => f(x, i))]. *)
Fixpoint mapi_from {A B : Type} (f : A -> Z -> B) (l : list A) (i : Z) : list B :=
  match l with
  | [] => []
  | x :: r => f x i :: mapi_from f r (i + 1)%Z
  end.

Definition mapi {A B : Type} (f : A -> Z -> B) (l : list A) : list B :=
  mapi_from f l 0%Z.

(** [arr.findIndex(p)], counting from [i]; [-1] when no element passes. *)
Fixpoint findIndex_from {A : Type} (p : A -> bool) (l : list A) (i : Z) : Z :=
  match l with
  | [] => (-1)%Z
  | x :: r => if p x then i else findIndex_from p r (i + 1)%Z
  end.

Definition findIndex {A : Type} (p : A -> bool) (l : list A) : Z :=
  findIndex_from p l 0%Z.

(** The indices [1 .. n-1] visited by [for (let i = 1; i < n; i++)]. *)
Definition loop_from_1 (n : nat) : list Z :=
  map Z.of_nat (seq 1 (n - 1)).

Declare Scope js_scope.
Delimit Scope js_scope with js.
Bind Scope js_scope with num.
Notation "a + b" := (add a b) : js_scope.
Notation "a - b" := (sub a b) : js_scope.
Notation "a * b" := (mul a b) : js_scope.
Notation "a / b" := (div a b) : js_scope.
Notation "- a" := (neg a) : js_scope.
Notation "a <=? b" := (leb a b) : js_scope.
Notation "a <? b" := (ltb a b) : js_scope.
Notation "a >=? b" := (geb a b) : js_scope.

(** A JavaScript object used as a map, as its list of entries; [obj_set]
    overwrites an existing key in place and appends a new one. *)
Section Obj.
Context {K V : Type} (eqb : K -> K -> bool).

Fixpoint obj_get (o : list (K * V)) (k : K) : option V :=
  match o with
  | [] => None
  | (k', v) :: r => if eqb k' k then Some v else obj_get r k
  end.

Fixpoint obj_set (o : list (K * V)) (k : K) (v : V) : list (K * V) :=
  match o with
  | [] => [(k, v)]
  | (k', v') :: r =>
      if eqb k' k then (k', v) :: r else (k', v') :: obj_set r k v
  end.

End Obj.

End JsR.

(** ** JonswapSpectrum *)

Module JonswapSpectrum.
Import JsR.
Local Open Scope R_scope.

(** The loop [for (let w = 0.01; w <= 6.0; w += 0.01) omega.push(w)], with
    a bound on the number of turns. *)
Fixpoint omega_loop (fuel : nat) (w : R) : list num :=
  match fuel with
  | O => []
  | S fuel' =>
      if Rle_dec w 6 then fin w :: omega_loop fuel' (w + 0.01) else []
  end.

(** The frequency grid of [calculateSpectrum]; with exact additions the loop
    stops after 600 turns, within the 1000 allowed here. *)
Definition omega_grid : list num := omega_loop 1000 0.01.

(** The body of the loop of [computeSpectrumWithAlpha] (and of
    [calculateSpectrum]): the spectral density at the frequency [w]. *)
Definition spectralDensity (alpha Tp gamma g w : num) : num :=
  let omega_p := (fin 2 * fin PI / Tp)%js in
  let sigma := if (w <=? omega_p)%js then fin 0.07 else fin 0.09 in
  let exp1 := exp (fin (-1.25) * pow (omega_p / w) 4)%js in
  let exp2 :=
    exp (- pow (w - omega_p) 2 / (fin 2 * pow (sigma * omega_p) 2))%js in
  (alpha * pow g 2 * pow_neg w 5 * exp1 * pow_real gamma exp2)%js.

(** [computeSpectrumWithAlpha(omega, alpha, Tp, gamma, g)]. *)
Definition computeSpectrumWithAlpha (omega : list num) (alpha Tp gamma g : num)
    : list num :=
  map (spectralDensity alpha Tp gamma g) omega.

(** [trapezoidalIntegration(x, y)]. *)
Definition trapezoidalIntegration (x y : list num) : num :=
  fold_left
    (fun integral i =>
       let dx := (at_index x i - at_index x (i - 1))%js in
       (integral + fin 0.5 * (at_index y (i - 1) + at_index y i) * dx)%js)
    (loop_from_1 (List.length x)) (fin 0).

Definition tolerance : num := fin 1e-3.
Definition maxIter : nat := 50.

(** The loop of [calculateAlphaIterative] with [iters] turns left. *)
Fixpoint alpha_loop (omega : list num) (targetHs Tp gamma g : num)
    (iters : nat) (alpha : num) : num :=
  match iters with
  | O => alpha
  | S iters' =>
      let spectrum := computeSpectrumWithAlpha omega alpha Tp gamma g in
      let m0 := trapezoidalIntegration omega spectrum in
      let estimatedHs := (fin 4 * sqrt m0)%js in
      let ratio := (targetHs / estimatedHs)%js in
      if (abs (ratio - fin 1) <? tolerance)%js then alpha
      else alpha_loop omega targetHs Tp gamma g iters' (alpha * ratio)%js
  end.

(** [calculateAlphaIterative(omega, targetHs, Tp, gamma, g)]: the value
    returned is the number [alpha] and nothing else. *)
Definition calculateAlphaIterative (omega : list num) (targetHs Tp gamma g : num)
    : num :=
  alpha_loop omega targetHs Tp gamma g maxIter (fin 0.0081).

(** [calculateSpectrum(Hs, Tp)]: the points [{x: w, y: S}]. *)
Definition calculateSpectrum (Hs Tp : num) : list (num * num) :=
  let g := fin 9.81 in
  let gamma := fin 3.3 in
  let omega := omega_grid in
  let alpha := calculateAlphaIterative omega Hs Tp gamma g in
  map (fun w => (w, spectralDensity alpha Tp gamma g w)) omega.

End JonswapSpectrum.

(** ** PowerSpectralDensity *)

Module PowerSpectralDensity.
Import JsR.
Local Open Scope R_scope.

(** The callback of the [map] in [interpolateWaveSpectrum]: the value at one
    target frequency [freq]. *)
Definition interpolateAt (waveFreq waveSpec : list num) (freq : num) : num :=
  let index := findIndex (fun f => (f >=? freq)%js) waveFreq in
  if (index =? 0)%Z then at_index waveSpec 0
  else if (index =? -1)%Z
  then at_index waveSpec (Z.of_nat (List.length waveSpec) - 1)
  else
    let x0 := at_index waveFreq (index - 1) in
    let x1 := at_index waveFreq index in
    let y0 := at_index waveSpec (index - 1) in
    let y1 := at_index waveSpec index in
    (y0 + (freq - x0) * (y1 - y0) / (x1 - x0))%js.

(** [interpolateWaveSpectrum(waveFreq, waveSpec, raoFreq)]. *)
Definition interpolateWaveSpectrum (waveFreq waveSpec raoFreq : list num)
    : list num :=
  map (interpolateAt waveFreq waveSpec) raoFreq.

Record DisplacementPSDs : Type := mkDisplacementPSDs {
  heavePSD_unw : list num;
  pitchPSD_unw : list num;
  crossPSD_unw : list num
}.

(** [calculateDisplacementPSDs(heaveAmp, pitchAmp, heavePhase, pitchPhase,
    waveSpecInterp)]. *)
Definition calculateDisplacementPSDs
    (heaveAmp pitchAmp heavePhase pitchPhase waveSpecInterp : list num)
    : DisplacementPSDs :=
  let heavePhaseRad := map (fun phase => (phase * fin PI / fin 180)%js) heavePhase in
  let pitchPhaseRad := map (fun phase => (phase * fin PI / fin 180)%js) pitchPhase in
  mkDisplacementPSDs
    (mapi (fun amp i => (pow amp 2 * at_index waveSpecInterp i)%js) heaveAmp)
    (mapi (fun amp i => (pow amp 2 * at_index waveSpecInterp i)%js) pitchAmp)
    (mapi
       (fun hAmp i =>
          let phaseDiff := (at_index heavePhaseRad i - at_index pitchPhaseRad i)%js in
          (hAmp * at_index pitchAmp i * cos phaseDiff * at_index waveSpecInterp i)%js)
       heaveAmp).

Record AccelerationPSDs : Type := mkAccelerationPSDs {
  accHeavePSD : list num;
  accPitchPSD : list num;
  accCrossPSD : list num
}.

(** [convertToAccelerationPSDs(freqRAO, {heavePSD_unw, pitchPSD_unw,
    crossPSD_unw})]. *)
Definition convertToAccelerationPSDs (freqRAO : list num) (d : DisplacementPSDs)
    : AccelerationPSDs :=
  mkAccelerationPSDs
    (mapi (fun psd i => (psd * pow (fin 2 * fin PI * at_index freqRAO i) 4)%js)
       (heavePSD_unw d))
    (mapi (fun psd i => (psd * pow (at_index freqRAO i) 4)%js) (pitchPSD_unw d))
    (mapi (fun psd i => (psd * pow (at_index freqRAO i) 4)%js) (crossPSD_unw d)).

(** Complex numbers as pairs of numbers. *)
Record complex : Type := mkComplex { real : num; imag : num }.

Definition complexAdd (a b : complex) : complex :=
  mkComplex (real a + real b)%js (imag a + imag b)%js.

Definition complexMultiply (a b : complex) : complex :=
  mkComplex (real a * real b - imag a * imag b)%js
            (real a * imag b + imag a * real b)%js.

Definition complexDivide (a b : complex) : complex :=
  let denominator := (real b * real b + imag b * imag b)%js in
  mkComplex ((real a * real b + imag a * imag b) / denominator)%js
            ((imag a * real b - real a * imag b) / denominator)%js.

Definition complexAbs (z : complex) : num :=
  sqrt (real z * real z + imag z * imag z)%js.

Definition re (x : num) : complex := mkComplex x (fin 0).

Definition pi2 : num := (fin 2 * fin PI)%js.
Definition omega1 : num := (pi2 * fin 0.08)%js.
Definition zeta1 : num := (fin 1 / sqrt (fin 2))%js.
Definition omega2 : num := (pi2 * fin 0.63)%js.
Definition zeta2 : num := (fin 1 / sqrt (fin 2))%js.
Definition omega3 : num := (pi2 * fin 3.5)%js.
Definition omega4 : num := (pi2 * fin 0.25)%js.
Definition zeta4 : num := fin 0.86.
Definition omega5 : num := (pi2 * fin 0.06)%js.
Definition zeta5 : num := fin 0.80.
Definition omega6 : num := (pi2 * fin 0.10)%js.
Definition zeta6 : num := fin 0.80.

(** The polynomial [s*s + 2*zeta*omega0*s + omega0^2] that the four stages
    share (as denominator, and as numerator of the step stage). *)
Definition quadratic (zeta omega0 : num) (s : complex) : complex :=
  complexAdd
    (complexAdd (complexMultiply s s)
       (complexMultiply (re (fin 2 * zeta * omega0)%js) s))
    (re (pow omega0 2)).

(** The four transfer functions at [s]. *)
Definition Hh (s : complex) : complex :=
  complexDivide (complexMultiply s s) (quadratic zeta1 omega1 s).

Definition Hl (s : complex) : complex :=
  complexDivide (re (pow omega2 2)) (quadratic zeta2 omega2 s).

Definition Ht (s : complex) : complex :=
  complexDivide
    (complexAdd (complexMultiply (re (pow omega4 2 / omega3)%js) s)
       (re (pow omega4 2)))
    (quadratic zeta4 omega4 s).

Definition Hs (s : complex) : complex :=
  complexDivide (quadratic zeta5 omega5 s) (quadratic zeta6 omega6 s).

(** The callback of the [map] in [applyWfWeighting]. *)
Definition weightAt (PSD : list num) (w : num) (i : Z) : num :=
  let s := mkComplex (fin 0) w in
  let Wf :=
    complexMultiply (complexMultiply (Hh s) (Hl s))
      (complexMultiply (Ht s) (Hs s)) in
  (pow (complexAbs Wf) 2 * at_index PSD i)%js.

(** [applyWfWeighting(omega, PSD)]. *)
Definition applyWfWeighting (omega PSD : list num) : list num :=
  mapi (weightAt PSD) omega.

(** Positions are the keys of the objects below. *)
Definition pos_eqb (a b : R) : bool := if Req_dec_T a b then true else false.

(** [calculateVerticalMotionPSD(L_positions, wHeavePSD, wPitchPSD,
    wCrossPSD)]. *)
Definition calculateVerticalMotionPSD (L_positions : list R)
    (wHeavePSD wPitchPSD wCrossPSD : list num) : list (R * list num) :=
  fold_left
    (fun verticalPSDs L =>
       let S_yy :=
         mapi
           (fun heave i =>
              (heave + pow (fin L) 2 * at_index wPitchPSD i
               + fin 2 * fin L * at_index wCrossPSD i)%js)
           wHeavePSD in
       obj_set pos_eqb verticalPSDs L S_yy)
    L_positions [].

(** The integral and the dose computed for one position in [calculateMSDV]. *)
Definition msdvIntegral (S_yy frequencies : list num) : num :=
  fold_left
    (fun integral i =>
       let domega := (at_index frequencies i - at_index frequencies (i - 1))%js in
       let avgPSD := ((at_index S_yy i + at_index S_yy (i - 1)) / fin 2)%js in
       (integral + avgPSD * domega)%js)
    (loop_from_1 (List.length frequencies)) (fin 0).

Definition msdvOf (S_yy frequencies : list num) : num :=
  sqrt (msdvIntegral S_yy frequencies).

(** [calculateMSDV(verticalPSDs, frequencies)]: going through the keys of
    the object and reading each one's series is going through its entries. *)
Definition calculateMSDV {K : Type} (key_eqb : K -> K -> bool)
    (verticalPSDs : list (K * list num)) (frequencies : list num)
    : list (K * num) :=
  fold_left
    (fun msdvValues entry =>
       let '(position, S_yy) := entry in
       obj_set key_eqb msdvValues position (msdvOf S_yy frequencies))
    verticalPSDs [].

(** The ship positions and the exposure time set by the constructor. *)
Definition shipPositions : list R := [-50; -30; -10; 0; 10; 30; 50].
Definition T_exp : R := 1800.

(** *** The pipeline of [updatePSDs] *)

(** What [getSpectrum()] returns. *)
Record Spectrum : Type := mkSpectrum {
  frequencies : list num;
  spectralDensities : list num
}.

Record Results : Type := mkResults {
  wHeavePSD : list num;
  wPitchPSD : list num;
  wCrossPSD : list num;
  verticalMotionPSDs : list (R * list num);
  msdvValues : list (R * num)
}.

(** The numbers of a parsed table, as numbers of the spectral side. *)
Definition of_table (l : list Q) : list num := map (fun q => fin (Q2R q)) l.

Definition is_nil {A : Type} (l : list A) : bool :=
  match l with [] => true | _ => false end.

Section UpdatePSDs.

Variable parseFloat : string -> RAOVisualizer.qnum.
Variable Number : string -> RAOVisualizer.qnum.
Variable fetch : RAOVisualizer.dof -> Z -> option string.

(** [updatePSDs()], from the spectrum of [window.jonswapSpectrum] and the one
    of [window.sensor1] when there is one; [None] is the [null] returned when
    the spectrum is not ready or when [Failed to get RAO data] is thrown and
    caught.  Logging and the update of the charts are left out. *)
Definition updatePSDs (window_spectrum : Spectrum)
    (sensor1_spectrum : option Spectrum) : option Results :=
  let waveSpectrum :=
    if is_nil (frequencies window_spectrum)
    then match sensor1_spectrum with
         | Some sp => sp
         | None => window_spectrum
         end
    else window_spectrum in
  if (is_nil (frequencies waveSpectrum)
      || is_nil (spectralDensities waveSpectrum))%bool
  then None
  else
    let heaveData :=
      RAOVisualizer.loadRAOFile parseFloat Number fetch RAOVisualizer.heave 0 0 in
    let pitchData :=
      RAOVisualizer.loadRAOFile parseFloat Number fetch RAOVisualizer.pitch 0 0 in
    match heaveData, pitchData with
    | Some heaveData, Some pitchData =>
        let freqRAO := of_table (RAOVisualizer.periods heaveData) in
        let waveSpecInterp :=
          interpolateWaveSpectrum (frequencies waveSpectrum)
            (spectralDensities waveSpectrum) freqRAO in
        let displacementPSDs :=
          calculateDisplacementPSDs
            (of_table (RAOVisualizer.amplitudes heaveData))
            (of_table (RAOVisualizer.amplitudes pitchData))
            (of_table (RAOVisualizer.phases heaveData))
            (of_table (RAOVisualizer.phases pitchData))
            waveSpecInterp in
        let accelerationPSDs := convertToAccelerationPSDs freqRAO displacementPSDs in
        let wHeave := applyWfWeighting freqRAO (accHeavePSD accelerationPSDs) in
        let wPitch := applyWfWeighting freqRAO (accPitchPSD accelerationPSDs) in
        let wCross := applyWfWeighting freqRAO (accCrossPSD accelerationPSDs) in
        let vertical :=
          calculateVerticalMotionPSD shipPositions wHeave wPitch wCross in
        let msdv := calculateMSDV pos_eqb vertical freqRAO in
        Some (mkResults wHeave wPitch wCross vertical msdv)
    | _, _ => None
    end.

End UpdatePSDs.

End PowerSpectralDensity.

(** ** The interpolation over the doubles

    [interpolateWaveSpectrum] once more, over the IEEE doubles themselves
    (Rocq's primitive floats, whose operations round to nearest as those of
    JavaScript do): what the exact model cannot show is what rounding does to
    the interpolation formula.  [undefined] in arithmetic is [NaN]. *)

Module Double.
Local Open Scope float_scope.
#[local] Set Warnings "-inexact-float".

(** [arr[i]] for an integer [i], used as a number. *)
Definition at_index (arr : list float) (i : Z) : float :=
  if (i <? 0)%Z then nan else nth (Z.to_nat i) arr nan.

(** The callback of the [map] in [interpolateWaveSpectrum]; [f >= freq] is
    [freq <= f], false when either is [NaN]. *)
Definition interpolateAt (waveFreq waveSpec : list float) (freq : float)
    : float :=
  let index := JsR.findIndex (fun f => freq <=? f) waveFreq in
  if (index =? 0)%Z then at_index waveSpec 0
  else if (index =? -1)%Z
  then at_index waveSpec (Z.of_nat (List.length waveSpec) - 1)
  else
    let x0 := at_index waveFreq (index - 1) in
    let x1 := at_index waveFreq index in
    let y0 := at_index waveSpec (index - 1) in
    let y1 := at_index waveSpec index in
    y0 + (freq - x0) * (y1 - y0) / (x1 - x0).

Definition interpolateWaveSpectrum (waveFreq waveSpec raoFreq : list float)
    : list float :=
  map (interpolateAt waveFreq waveSpec) raoFreq.

(** The tables of two knots at the frequencies 0.1 and 0.2. *)
Definition knots : list float := [0.1; 0.2].
Definition rising : list float := [0.1; 0.5].
Definition falling : list float := [0.4; 0].

(** The queries at the first and at the second knot. *)
Definition at_first : list float := [0.1].
Definition at_second : list float := [0.2].

End Double.

(** ** Reference formulas

    The formulas the properties are stated against, written from the
    specification's words over plain real numbers. *)

Module Reference.
Local Open Scope R_scope.

(** The trapezoidal rule over the first [m] intervals of the grid [xs]: the
    sum of the mean of [ys] at the two ends of each interval times its width. *)
Fixpoint trapezoid_upto (xs ys : list R) (m : nat) : R :=
  match m with
  | O => 0
  | S m' =>
      trapezoid_upto xs ys m'
      + (nth (S m') ys 0 + nth m' ys 0) / 2 * (nth (S m') xs 0 - nth m' xs 0)
  end.

(** The trapezoidal integral of [ys] over the whole grid [xs]. *)
Definition trapezoid (xs ys : list R) : R :=
  trapezoid_upto xs ys (List.length xs - 1).

(** Consecutive elements strictly increase. *)
Fixpoint increasing (l : list R) : Prop :=
  match l with
  | a :: (b :: _) as r => a < b /\ increasing r
  | _ => True
  end.

(** The straight line through [(x0, y0)] and [(x1, y1)], at [x]. *)
Definition line (x0 y0 x1 y1 x : R) : R :=
  y0 + (x - x0) * (y1 - y0) / (x1 - x0).

(** The fixed frequency grid: 0.01, 0.02, ..., 6.00 rad/s, 600 points. *)
Definition grid : list R := map (fun k => 0.01 * INR k) (seq 1 600).

(** The JONSWAP density
    [S(w) = alpha g^2 w^-5 exp(-1.25 (wp/w)^4) gamma^r] with
    [wp = 2 PI / Tp], [r = exp(-(w - wp)^2 / (2 sigma^2 wp^2))] and
    [sigma = 0.07] up to the peak, [0.09] above it. *)
Definition jonswap (alpha Tp gamma g w : R) : R :=
  let wp := 2 * PI / Tp in
  let sigma := if Rle_dec w wp then 0.07 else 0.09 in
  let r := Rtrigo_def.exp (- (w - wp) ^ 2 / (2 * sigma ^ 2 * wp ^ 2)) in
  alpha * g ^ 2 * / w ^ 5 * Rtrigo_def.exp (- 1.25 * (wp / w) ^ 4) * Rpower gamma r.

(** The zeroth moment of the spectrum built with [alpha] over the grid, by the
    trapezoidal rule, and the wave height estimated from it. *)
Definition moment0 (alpha Tp : R) : R :=
  trapezoid grid (map (jonswap alpha Tp 3.3 9.81) grid).

Definition estimatedHs (alpha Tp : R) : R := 4 * R_sqrt.sqrt (moment0 alpha Tp).

(** The test of the calibration loop: the ratio of the target to the estimate
    is within the tolerance of 1. *)
Definition within_tolerance (Hs Tp alpha : R) : Prop :=
  Rabs (Hs / estimatedHs alpha Tp - 1) < 1e-3.

(** One update of the calibration loop. *)
Definition update_alpha (Hs Tp alpha : R) : R :=
  alpha * (Hs / estimatedHs alpha Tp).

(** [x] squared [n] times over: [x ^ (2 ^ n)]. *)
Fixpoint repeated_square (n : nat) (x : R) : R :=
  match n with
  | O => x
  | S n' => repeated_square n' x * repeated_square n' x
  end.

(** A complex number with finite parts. *)
Definition finite_complex (z : PowerSpectralDensity.complex) : Prop :=
  exists a b, z = PowerSpectralDensity.mkComplex (JsR.fin a) (JsR.fin b).

(** The [denominator] that [complexDivide] computes from the divisor [b] is a
    finite number other than zero. *)
Definition nonzero_denominator (b : PowerSpectralDensity.complex) : Prop :=
  exists d,
    JsR.add
      (JsR.mul (PowerSpectralDensity.real b) (PowerSpectralDensity.real b))
      (JsR.mul (PowerSpectralDensity.imag b) (PowerSpectralDensity.imag b))
    = JsR.fin d /\ d <> 0.

End Reference.

(** ** Sample tables *)

Module Samples.
Import JsString RAOVisualizer.
Local Open Scope string_scope.

Definition nl : string := String newline EmptyString.

(** Two headings, three rows in ascending frequency. *)
Definition table_ascending : string :=
  "#HEADING 0 30" ++ nl ++
  "w(r/s) a0 a30 p0 p30" ++ nl ++
  "0.1 1.0 0.9 10 20" ++ nl ++
  "0.2 0.8 0.7 170 -170" ++ nl ++
  "0.3 0.5 0.4 -20 170" ++ nl.

(** The same rows with the last two exchanged. *)
Definition table_shuffled : string :=
  "#HEADING 0 30" ++ nl ++
  "w(r/s) a0 a30 p0 p30" ++ nl ++
  "0.1 1.0 0.9 10 20" ++ nl ++
  "0.3 0.8 0.7 170 -170" ++ nl ++
  "0.2 0.5 0.4 -20 170" ++ nl.

(** The first row alone. *)
Definition table_one_row : string :=
  "#HEADING 0 30" ++ nl ++
  "w(r/s) a0 a30 p0 p30" ++ nl ++
  "0.1 1.0 0.9 10 20" ++ nl.

(** A table without the [#HEADING] line. *)
Definition table_no_heading : string :=
  "w(r/s) a0 a30 p0 p30" ++ nl ++
  "0.1 1.0 0.9 10 20" ++ nl.

(** A server that has the table without heading for every file. *)
Definition fetch_no_heading (_ : dof) (_ : Z) : option string :=
  Some table_no_heading.

(** A wave spectrum of one point, as [getSpectrum] returns it once a
    spectrum is there. *)
Definition spectrum_one_point : PowerSpectralDensity.Spectrum :=
  PowerSpectralDensity.mkSpectrum [JsR.fin 1%R] [JsR.fin 1%R].

(** A target wave height just below the height estimated from the initial
    [alpha = 0.0081] at [Tp = 1]. *)
Definition Hs_near_estimate : R :=
  (0.9990005 * Reference.estimatedHs 0.0081 1)%R.

End Samples.

(** ** Further views

    Names for parts of the functions above, used to state further
    properties. *)

Module Views.
Import JsQ RAOVisualizer.
Local Open Scope Q_scope.

(** The value left by [((heading % 360) + 360) % 360]. *)
Definition turn (h : Q) : Q := js_rem (js_rem h 360 + 360) 360.

(** What [unwrapHeading] does with that value. *)
Definition reflect (x : Q) : Q := if Qgtb x 180 then Qabs (360 - x) else x.

Section FirstNearest.
Context {A : Type} (d : A -> Q).

(** The callback of the [reduce]s: the candidate replaces the current choice
    only when it is strictly nearer. *)
Definition keep_nearer (prev curr : A) : A :=
  if Qltb (d curr) (d prev) then curr else prev.

(** [b] is the first element of [P] at the least distance. *)
Definition first_nearest (P : list A) (b : A) : Prop :=
  exists l1 l2,
    P = l1 ++ b :: l2 /\
    (forall c, In c l1 -> d b < d c) /\
    (forall c, In c l2 -> d b <= d c).

End FirstNearest.


Definition row_amp (row : Q * Q * Q) : Q := snd (fst row).

(** A whole number in the range where the doubles hold every whole number,
    so that differences of such numbers are computed exactly. *)
Definition whole (q : Q) : Prop :=
  exists z : Z, q == inject_Z z /\ (Z.abs z <= 2 ^ 52)%Z.

(** The declared headings that are numbers are whole numbers. *)
Definition whole_headings (hs : list qnum) : Prop :=
  forall j c, nth_error hs j = Some (Some c) -> whole c.

(** [i] is the place, in the array of headings, of the first heading at the
    least distance from [t] among the headings that are numbers. *)
Definition nearest_place (hs : list qnum) (t : Q) (i : nat) : Prop :=
  exists b,
    nth_error hs i = Some (Some b) /\
    (forall j c, nth_error hs j = Some (Some c) -> Qabs (b - t) <= Qabs (c - t)) /\
    (forall j c, (j < i)%nat -> nth_error hs j = Some (Some c) ->
       Qabs (b - t) < Qabs (c - t)).

(** A table of moderate numbers: frequencies from 0 to 1000 rad/s,
    amplitudes up to 1000 and phases up to 1e6 degrees in magnitude, far from
    the overflow of the powers and products taken of them. *)
Definition moderate_table (r : RAOData) : Prop :=
  Forall (fun f => 0 <= f <= 1000) (periods r) /\
  Forall (fun a => Qabs a <= 1000) (amplitudes r) /\
  Forall (fun p => Qabs p <= 1000000) (phases r).

(** Two phases that differ by whole turns. *)
Definition same_phase (a b : Q) : Prop :=
  exists k : Z, a == b + 360 * inject_Z k.

End Views.

(** ** The objects and their state *)

Module SpectrumState.
Import JsR JonswapSpectrum PowerSpectralDensity.

(** [getSpectrum()], from the field [latestSpectrum]; [None] is [null]. *)
Definition getSpectrum (latestSpectrum : option (list (num * num))) : Spectrum :=
  match latestSpectrum with
  | Some points => mkSpectrum (map fst points) (map snd points)
  | None => mkSpectrum [] []
  end.

(** What [update(sensorReading)] leaves in [latestSpectrum]; the chart and
    the event are left out. *)
Definition update (waveHeight wavePeriod : num) : option (list (num * num)) :=
  Some (calculateSpectrum waveHeight wavePeriod).

End SpectrumState.

Module VisualizerState.
Import JsQ RAOVisualizer.
Local Open Scope Q_scope.

(** The fields of the visualizer that [updateCharts] reads and writes. *)
Record Visualizer : Type := mkVisualizer {
  currentSpeed : option Q;
  currentHeading : option Q;
  latestHeaveData : option RAOData;
  latestPitchData : option RAOData
}.

(** The state set by the constructor. *)
Definition initial : Visualizer := mkVisualizer None None None None.

(** [x === field] for a number [x] and a field that is a number or [null]. *)
Definition same_number (x : Q) (field : option Q) : bool :=
  match field with Some y => Qeq_bool x y | None => false end.

Section Charts.

Variable parseFloat : string -> qnum.
Variable Number : string -> qnum.

(** [updateCharts(speed, heading)] with the server [fetch]; the drawing of
    the charts is left out.  The speed handed to [loadRAOFile] is the number
    of knots of the nearest folder. *)
Definition updateCharts (fetch : dof -> Z -> option string) (v : Visualizer)
    (speed heading : Q) : Visualizer :=
  if (same_number speed (currentSpeed v)
      && same_number heading (currentHeading v))%bool
  then v
  else
    let heading' := findNearestHeading heading in
    let speedInt := inject_Z (findNearestSpeedFolder speed) in
    let heaveData := loadRAOFile parseFloat Number fetch heave speedInt heading' in
    let pitchData := loadRAOFile parseFloat Number fetch pitch speedInt heading' in
    mkVisualizer (Some speed) (Some heading')
      (match heaveData with Some d => Some d | None => latestHeaveData v end)
      (match pitchData with Some d => Some d | None => latestPitchData v end).

(** One call of [updateCharts], with what the server answers during it. *)
Record Request : Type := mkRequest {
  server : dof -> Z -> option string;
  speed_of : Q;
  heading_of : Q
}.

(** The state after the calls of a list, one after the other. *)
Definition run (v : Visualizer) (requests : list Request) : Visualizer :=
  fold_left
    (fun v r => updateCharts (server r) v (speed_of r) (heading_of r))
    requests v.

(** The table that the call [r] loads for a degree of freedom. *)
Definition loaded (type : dof) (r : Request) : option RAOData :=
  loadRAOFile parseFloat Number (server r) type
    (inject_Z (findNearestSpeedFolder (speed_of r)))
    (findNearestHeading (heading_of r)).

End Charts.

End VisualizerState.

(** ** The sensors

    [Sensor1] and [Sensor2] keep the readings loaded in [data] and the index
    of the next one in [currentIndex]; their [getNextReading] is the same. *)

Module Sensor.

Section Readings.
Context {A : Type}.

(** [getNextReading()]: the reading returned and the index left in
    [currentIndex].  [None] is the [null] returned for no data, and the
    [undefined] read at an index outside the data. *)
Definition getNextReading (data : list A) (currentIndex : nat) : option A * nat :=
  match data with
  | [] => (None, currentIndex)
  | _ :: _ =>
      (nth_error data currentIndex, (currentIndex + 1) mod List.length data)
  end.

(** The readings that [n] calls in a row return, as [startStreaming] hands
    them to its callback, and the index left. *)
Fixpoint stream (data : list A) (currentIndex : nat) (n : nat)
    : list (option A) * nat :=
  match n with
  | O => ([], currentIndex)
  | S n' =>
      let '(reading, next) := getNextReading data currentIndex in
      let '(rest, last) := stream data next n' in
      (reading :: rest, last)
  end.

End Readings.

End Sensor.

(** ** BridgeDashboard

    The estimate of the dose and the advice derived from it, for readings
    that are finite numbers.  The texts written to the page are left out: an
    advice is the value its text is made from. *)

Module BridgeDashboard.
Import JsR.
Local Open Scope R_scope.


(** The class that [updateComfortRecommendation] gives to the alert. *)
Inductive Alert : Type := alert_normal | alert_caution | alert_warning.

(** [updateComfortRecommendation(msdv)], for a dose that is a finite number
    or not a number. *)
Definition updateComfortRecommendation (msdv : num) : Alert :=
  if (msdv <? fin 0.5)%js then alert_normal
  else if (msdv <? fin 1.0)%js then alert_caution
  else alert_warning.


(** The fields of the readings that [updateRecommendations] uses. *)
Record Vessel : Type := mkVessel { speed : R; heading : R }.

(** The speed advice of [updateRecommendations]: [Some v] is
    [Reduce to v kts], [None] is [Maintain current].  The dose is a finite
    number or [null]. *)
Definition optimalSpeed (msdv : option R) (vessel : option Vessel) : option R :=
  match msdv, vessel with
  | Some m, Some v =>
      if Req_dec_T m 0 then None
      else if Rlt_dec 0.8 m then Some (Rmax (speed v * 0.8) 8)
      else None
  | _, _ => None
  end.



End BridgeDashboard.

(** ** Closed forms
    The gains that the weighting cascade is compared with, over plain real
    numbers. *)

Module Gain.
Import JsR PowerSpectralDensity.
Local Open Scope R_scope.

(** [z] has finite parts, and the square of its modulus is [g]. *)
Definition has_gain (z : complex) (g : R) : Prop :=
  exists a b, z = mkComplex (fin a) (fin b) /\ a * a + b * b = g.

(** The squared modulus of [s^2 + 2 zeta omega0 s + omega0^2] at [s = i w]. *)
Definition quadratic_gain (zeta omega0 w : R) : R :=
  (omega0 ^ 2 - w ^ 2) ^ 2 + (2 * zeta * omega0 * w) ^ 2.

(** The squared moduli of the four stages at [s = i w], with the constants
    of [applyWfWeighting]. *)
Definition Hh_gain (w : R) : R :=
  w ^ 4 / quadratic_gain (1 / R_sqrt.sqrt 2) (2 * PI * 0.08) w.

Definition Hl_gain (w : R) : R :=
  (2 * PI * 0.63) ^ 4 / quadratic_gain (1 / R_sqrt.sqrt 2) (2 * PI * 0.63) w.

Definition Ht_gain (w : R) : R :=
  ((2 * PI * 0.25) ^ 4 + ((2 * PI * 0.25) ^ 2 / (2 * PI * 3.5)) ^ 2 * w ^ 2)
  / quadratic_gain 0.86 (2 * PI * 0.25) w.

Definition Hs_gain (w : R) : R :=
  quadratic_gain 0.80 (2 * PI * 0.06) w / quadratic_gain 0.80 (2 * PI * 0.10) w.

(** The factor by which the weighting multiplies a PSD value at [w]. *)
Definition wf_gain (w : R) : R :=
  Hh_gain w * Hl_gain w * (Ht_gain w * Hs_gain w).

(** The vertical PSD at the distance [L] from the centre, from the three
    weighted values at one frequency. *)
Definition vertical (L heave pitch cross : R) : R :=
  heave + L ^ 2 * pitch + 2 * L * cross.

End Gain.

(** * Properties

    ** The remainder operator *)

Module JsQFacts.
Import JsQ.
Local Open Scope Q_scope.

Lemma Qltb_true (a b : Q) : Qltb a b = true <-> a < b.
Proof.
  unfold Qltb. destruct (Qlt_le_dec a b) as [H|H]; split; intro K; auto.
  - discriminate.
  - exfalso. apply (Qlt_not_le _ _ K H).
Qed.

Lemma Qltb_false (a b : Q) : Qltb a b = false <-> b <= a.
Proof.
  unfold Qltb. destruct (Qlt_le_dec a b) as [H|H]; split; intro K; auto.
  - discriminate.
  - exfalso. apply (Qlt_not_le _ _ H K).
Qed.

Lemma Qtrunc_nonneg (q : Q) : 0 <= q -> Qtrunc q = Qfloor q.
Proof.
  intro H. unfold Qtrunc.
  apply Qle_bool_iff in H. now rewrite H.
Qed.

Lemma Qtrunc_neg (q : Q) : q < 0 -> Qtrunc q = Qceiling q.
Proof.
  intro H. unfold Qtrunc.
  destruct (Qle_bool 0 q) eqn:E; [|reflexivity].
  apply Qle_bool_iff in E. exfalso. apply (Qlt_not_le _ _ H E).
Qed.

Lemma div_mul_cancel (x m : Q) : 0 < m -> m * (x / m) == x.
Proof.
  intro Hm. field. intro K. rewrite K in Hm. discriminate.
Qed.

(** For a non-negative dividend the remainder lies in [[0, m)]. *)
Lemma js_rem_nonneg (x m : Q) :
  0 <= x -> 0 < m -> 0 <= js_rem x m /\ js_rem x m < m.
Proof.
  intros Hx Hm. unfold js_rem.
  assert (Hq : 0 <= x / m).
  { apply Qle_shift_div_l; [exact Hm|]. now rewrite Qmult_0_l. }
  rewrite (Qtrunc_nonneg _ Hq).
  pose proof (Qfloor_le (x / m)) as Hlo.
  pose proof (Qlt_floor (x / m)) as Hhi.
  rewrite inject_Z_plus in Hhi.
  pose proof (div_mul_cancel x m Hm) as Hc.
  set (f := inject_Z (Qfloor (x / m))) in *.
  set (q := x / m) in *.
  assert (H1 : m * f <= m * q).
  { rewrite !(Qmult_comm m). apply Qmult_le_compat_r; [exact Hlo|]. now apply Qlt_le_weak. }
  assert (H2 : m * q < m * (f + inject_Z 1)).
  { rewrite !(Qmult_comm m). apply Qmult_lt_compat_r; assumption. }
  rewrite Hc in H1, H2.
  assert (E : m * (f + inject_Z 1) == m * f + m) by (unfold inject_Z; ring).
  rewrite E in H2. split; lra.
Qed.

(** For a negative dividend the remainder lies in [(-m, 0]]. *)
Lemma js_rem_neg (x m : Q) :
  x < 0 -> 0 < m -> - m < js_rem x m /\ js_rem x m <= 0.
Proof.
  intros Hx Hm. unfold js_rem.
  assert (Hq : x / m < 0).
  { apply Qlt_shift_div_r; [exact Hm|]. now rewrite Qmult_0_l. }
  rewrite (Qtrunc_neg _ Hq).
  pose proof (Qle_ceiling (x / m)) as Hhi.
  pose proof (Qceiling_lt (x / m)) as Hlo.
  replace (Qceiling (x / m) - 1)%Z with (Qceiling (x / m) + (-1))%Z in Hlo by lia.
  rewrite inject_Z_plus in Hlo.
  pose proof (div_mul_cancel x m Hm) as Hc.
  set (c := inject_Z (Qceiling (x / m))) in *.
  set (q := x / m) in *.
  assert (H1 : m * q <= m * c).
  { rewrite !(Qmult_comm m). apply Qmult_le_compat_r; [exact Hhi|]. now apply Qlt_le_weak. }
  assert (H2 : m * (c + inject_Z (-1)) < m * q).
  { rewrite !(Qmult_comm m). apply Qmult_lt_compat_r; assumption. }
  rewrite Hc in H1, H2.
  assert (E : m * (c + inject_Z (-1)) == m * c - m) by (unfold inject_Z; ring).
  rewrite E in H2. split; lra.
Qed.

(** In every case the remainder is strictly inside [(-m, m)]. *)
Lemma js_rem_bounds (x m : Q) : 0 < m -> - m < js_rem x m /\ js_rem x m < m.
Proof.
  intro Hm. destruct (Qlt_le_dec x 0) as [Hx|Hx].
  - destruct (js_rem_neg x m Hx Hm). split; lra.
  - destruct (js_rem_nonneg x m Hx Hm). split; lra.
Qed.

Lemma Qfloor_unique (q : Q) (k : Z) :
  inject_Z k <= q -> q < inject_Z (k + 1) -> Qfloor q = k.
Proof.
  intros Hlo Hhi.
  pose proof (Qfloor_le q) as H1.
  pose proof (Qlt_floor q) as H2.
  assert (A : (Qfloor q < k + 1)%Z).
  { rewrite Zlt_Qlt. eapply Qle_lt_trans; eassumption. }
  assert (B : (k < Qfloor q + 1)%Z).
  { rewrite Zlt_Qlt. eapply Qle_lt_trans; eassumption. }
  lia.
Qed.

(** A dividend already in [[0, m)] is its own remainder. *)
Lemma js_rem_small (x m : Q) : 0 <= x -> x < m -> js_rem x m == x.
Proof.
  intros Hx Hm. unfold js_rem.
  assert (Hpos : 0 < m) by lra.
  assert (Hq : 0 <= x / m).
  { apply Qle_shift_div_l; [exact Hpos|]. now rewrite Qmult_0_l. }
  rewrite (Qtrunc_nonneg _ Hq).
  rewrite (Qfloor_unique (x / m) 0).
  - unfold inject_Z. ring.
  - exact Hq.
  - apply Qlt_shift_div_r; [exact Hpos|].
    change (inject_Z (0 + 1)) with 1. lra.
Qed.

(** Adding the modulus once to a dividend in [[0, m)] leaves the remainder. *)
Lemma js_rem_shift (x m : Q) : 0 <= x -> x < m -> js_rem (x + m) m == x.
Proof.
  intros Hx Hm. unfold js_rem.
  assert (Hpos : 0 < m) by lra.
  assert (Hq : 0 <= (x + m) / m).
  { apply Qle_shift_div_l; [exact Hpos|]. lra. }
  rewrite (Qtrunc_nonneg _ Hq).
  rewrite (Qfloor_unique ((x + m) / m) 1).
  - unfold inject_Z. ring.
  - apply Qle_shift_div_l; [exact Hpos|]. change (inject_Z 1) with 1. lra.
  - apply Qlt_shift_div_r; [exact Hpos|].
    change (inject_Z (1 + 1)) with 2. lra.
Qed.

End JsQFacts.


(** ** Heading resolution *)

Module HeadingProofs.
Import JsQ JsQFacts RAOVisualizer.
Local Open Scope Q_scope.

(** The normalisation to [0-360] done first by [unwrapHeading]. *)
Lemma normalize360_range (h : Q) :
  0 <= js_rem (js_rem h 360 + 360) 360 /\ js_rem (js_rem h 360 + 360) 360 < 360.
Proof.
  assert (Hm : 0 < 360) by reflexivity.
  destruct (js_rem_bounds h 360 Hm) as [Hlo Hhi].
  apply js_rem_nonneg; [lra | exact Hm].
Qed.

Lemma unwrapHeading_range (h : Q) : 0 <= unwrapHeading h /\ unwrapHeading h <= 180.
Proof.
  unfold unwrapHeading, Qgtb.
  destruct (normalize360_range h) as [Hlo Hhi].
  set (c := js_rem (js_rem h 360 + 360) 360) in *.
  destruct (Qltb 180 c) eqn:E.
  - apply Qltb_true in E.
    rewrite Qabs_pos by lra. split; lra.
  - apply Qltb_false in E. split; lra.
Qed.

Lemma normalize360_id (h : Q) :
  0 <= h -> h < 360 -> js_rem (js_rem h 360 + 360) 360 == h.
Proof.
  intros Hlo Hhi.
  assert (E : js_rem h 360 == h) by (apply js_rem_small; assumption).
  assert (Hm : 0 < 360) by reflexivity.
  destruct (js_rem_nonneg h 360 Hlo Hm) as [A B].
  rewrite (js_rem_shift (js_rem h 360) 360 A B). exact E.
Qed.

Lemma unwrapHeading_low (h : Q) : 0 <= h -> h <= 180 -> unwrapHeading h == h.
Proof.
  intros Hlo Hhi. unfold unwrapHeading, Qgtb.
  assert (E : js_rem (js_rem h 360 + 360) 360 == h) by (apply normalize360_id; lra).
  set (c := js_rem (js_rem h 360 + 360) 360) in *.
  destruct (Qltb 180 c) eqn:L.
  - apply Qltb_true in L. lra.
  - exact E.
Qed.


(** The [reduce] with [nearer] returns an element of the array that is at
    least as near to the heading as every other. *)
Lemma nearest_fold (u : Q) (rest : list Q) :
  forall first,
    In (fold_left (nearer u) rest first) (first :: rest) /\
    forall c, In c (first :: rest) ->
      Qabs (fold_left (nearer u) rest first - u) <= Qabs (c - u).
Proof.
  induction rest as [|x rest IH]; intro first; cbn [fold_left].
  - split; [now left|]. intros c [->|[]]. apply Qle_refl.
  - destruct (IH (nearer u first x)) as [Hin Hmin]. split.
    + destruct Hin as [Hn|Hr]; [|now right; right].
      rewrite <- Hn. unfold nearer.
      destruct (Qltb (Qabs (x - u)) (Qabs (first - u))); [right; now left|now left].
    + intros c Hc.
      assert (Hstep : Qabs (nearer u first x - u) <= Qabs (first - u) /\
                      Qabs (nearer u first x - u) <= Qabs (x - u)).
      { unfold nearer. destruct (Qltb (Qabs (x - u)) (Qabs (first - u))) eqn:E.
        - apply Qltb_true in E. split; lra.
        - apply Qltb_false in E. split; lra. }
      destruct Hstep as [S1 S2].
      assert (H0 := Hmin (nearer u first x) (or_introl eq_refl)).
      destruct Hc as [<-|[<-|Hc]].
      * eapply Qle_trans; eassumption.
      * eapply Qle_trans; eassumption.
      * apply Hmin. now right.
Qed.

Lemma findNearestHeading_nearest (h : Q) :
  In (findNearestHeading h) availableHeadings /\
  forall c, In c availableHeadings ->
    Qabs (findNearestHeading h - unwrapHeading h) <= Qabs (c - unwrapHeading h).
Proof.
  unfold findNearestHeading, reduce1, availableHeadings.
  apply nearest_fold.
Qed.



End HeadingProofs.

(** ** Phase normalisation *)

Module PhaseProofs.
Import JsQ JsQFacts RAOVisualizer.
Local Open Scope Q_scope.

Example normalizePhase_180 : normalizePhase 180 = -180.
Proof. vm_compute. reflexivity. Qed.

Example normalizePhase_minus_200 : normalizePhase (-200) = -200.
Proof. vm_compute. reflexivity. Qed.

Example normalizePhase_190 : normalizePhase 190 = -170.
Proof. vm_compute. reflexivity. Qed.

Example normalizePhase_725 : normalizePhase 725 = 5.
Proof. vm_compute. reflexivity. Qed.

(** C5 as stated fails: the phase 180 is sent to -180, outside (-180, 180]. *)
Lemma normalizePhase_not_half_open :
  ~ (forall p : Q, -180 < normalizePhase p /\ normalizePhase p <= 180).
Proof.
  intro H. destruct (H 180) as [Hlo _].
  rewrite normalizePhase_180 in Hlo. revert Hlo. vm_compute. discriminate.
Qed.

(** C5, amended: a phase that is at least -180 is sent into [-180, 180). *)
Theorem normalizePhase_range (p : Q) :
  -180 <= p -> -180 <= normalizePhase p /\ normalizePhase p < 180.
Proof.
  intro Hp. unfold normalizePhase.
  assert (Hm : 0 < 360) by reflexivity.
  destruct (js_rem_nonneg (p + 180) 360) as [A B]; [lra | exact Hm |].
  split; lra.
Qed.

Lemma normalizePhase_range_witness :
  -180 <= normalizePhase 725 /\ normalizePhase 725 < 180.
Proof.
  apply (normalizePhase_range 725). vm_compute. discriminate.
Defined.

(** Below -180 the remainder keeps the sign of its dividend, and the result
    stays below -180. *)
Lemma normalizePhase_below (p : Q) :
  p < -180 -> -540 < normalizePhase p /\ normalizePhase p <= -180.
Proof.
  intro Hp. unfold normalizePhase.
  assert (Hm : 0 < 360) by reflexivity.
  destruct (js_rem_neg (p + 180) 360) as [A B]; [lra | exact Hm |].
  split; lra.
Qed.

End PhaseProofs.

(** ** The response-table parser: markers and heading column *)

Module ParserProofs.
Import JsQ JsQFacts JsString RAOVisualizer.
Local Open Scope Q_scope.

Section WithBuiltins.

Variable parseFloat : string -> qnum.
Variable Number : string -> qnum.

(** *** The header scan *)

Lemma scan_no_heading (lines : list string) :
  forallb (fun l => negb (has_heading_marker l)) lines = true ->
  forall i h,
    headingLineIdx (scan_lines Number lines i h) = headingLineIdx h.
Proof.
  induction lines as [|l lines IH]; intros Hall i h; [reflexivity|].
  cbn [forallb] in Hall. apply andb_true_iff in Hall as [Hl Hrest].
  cbn [scan_lines]. rewrite (IH Hrest).
  unfold scan_line. unfold has_heading_marker in Hl.
  apply negb_true_iff in Hl. rewrite Hl.
  destruct (includes "w(r/s)" l); reflexivity.
Qed.

Lemma scan_no_data (lines : list string) :
  forallb (fun l => negb (has_data_marker l)) lines = true ->
  forall i h,
    dataStartIdx (scan_lines Number lines i h) = dataStartIdx h.
Proof.
  induction lines as [|l lines IH]; intros Hall i h; [reflexivity|].
  cbn [forallb] in Hall. apply andb_true_iff in Hall as [Hl Hrest].
  cbn [scan_lines]. rewrite (IH Hrest).
  unfold scan_line. unfold has_data_marker in Hl.
  apply negb_true_iff in Hl. rewrite Hl.
  destruct (startsWith "#HEADING" (trim l)); reflexivity.
Qed.

Lemma split_ws_aux_nonempty (s : string) (b : bool) : split_ws_aux b s <> [].
Proof.
  revert b. induction s as [|c r IH]; intro b; cbn [split_ws_aux].
  - discriminate.
  - destruct (is_ws c).
    + destruct b; [apply IH | discriminate].
    + destruct (split_ws_aux false r); discriminate.
Qed.

Lemma scan_line_ok (h : Header) (i : nat) (l : string) :
  header_ok h -> data_ok h ->
  header_ok (scan_line Number h i l) /\ data_ok (scan_line Number h i l).
Proof.
  intros Hh Hd. unfold scan_line.
  destruct (startsWith "#HEADING" (trim l)); destruct (includes "w(r/s)" l);
    unfold header_ok, data_ok; cbn [headingLineIdx headings dataStartIdx]; split;
    try assumption; right;
    try lia;
    (split; [lia|]);
    intro E; apply map_eq_nil in E; exact (split_ws_aux_nonempty _ _ E).
Qed.

Lemma scan_lines_ok (lines : list string) :
  forall i h, header_ok h -> data_ok h ->
    header_ok (scan_lines Number lines i h) /\ data_ok (scan_lines Number lines i h).
Proof.
  induction lines as [|l lines IH]; intros i h Hh Hd; [now split|].
  cbn [scan_lines]. destruct (scan_line_ok h i l Hh Hd) as [A B]. now apply IH.
Qed.

Lemma scan_line_heading_set (h : Header) (i : nat) (l : string) :
  (0 <= headingLineIdx h)%Z \/ has_heading_marker l = true ->
  (0 <= headingLineIdx (scan_line Number h i l))%Z.
Proof.
  unfold scan_line, has_heading_marker.
  destruct (startsWith "#HEADING" (trim l)); destruct (includes "w(r/s)" l);
    cbn [headingLineIdx]; intros [H|H]; try lia; try discriminate.
Qed.

Lemma scan_line_data_set (h : Header) (i : nat) (l : string) :
  (0 <= dataStartIdx h)%Z \/ has_data_marker l = true ->
  (0 <= dataStartIdx (scan_line Number h i l))%Z.
Proof.
  unfold scan_line, has_data_marker.
  destruct (startsWith "#HEADING" (trim l)); destruct (includes "w(r/s)" l);
    cbn [dataStartIdx]; intros [H|H]; try lia; try discriminate.
Qed.

Lemma scan_heading_found (lines : list string) :
  forall i h,
    (0 <= headingLineIdx h)%Z \/ existsb has_heading_marker lines = true ->
    (0 <= headingLineIdx (scan_lines Number lines i h))%Z.
Proof.
  induction lines as [|l lines IH]; intros i h H; cbn [scan_lines].
  - destruct H as [H|H]; [exact H | discriminate].
  - apply IH. cbn [existsb] in H.
    destruct H as [H|H].
    + left. apply scan_line_heading_set. now left.
    + apply orb_true_iff in H as [H|H].
      * left. apply scan_line_heading_set. now right.
      * now right.
Qed.

Lemma scan_data_found (lines : list string) :
  forall i h,
    (0 <= dataStartIdx h)%Z \/ existsb has_data_marker lines = true ->
    (0 <= dataStartIdx (scan_lines Number lines i h))%Z.
Proof.
  induction lines as [|l lines IH]; intros i h H; cbn [scan_lines].
  - destruct H as [H|H]; [exact H | discriminate].
  - apply IH. cbn [existsb] in H.
    destruct H as [H|H].
    + left. apply scan_line_data_set. now left.
    + apply orb_true_iff in H as [H|H].
      * left. apply scan_line_data_set. now right.
      * now right.
Qed.

(** A table that lacks one of the two markers is refused. *)
Lemma parse_missing_marker (content : string) (targetHeading : Q) :
  existsb has_heading_marker (split_lines content) = false \/
  existsb has_data_marker (split_lines content) = false ->
  parseRAOFile parseFloat Number content targetHeading = None.
Proof.
  intro H. unfold parseRAOFile.
  set (lines := split_lines content) in *.
  destruct H as [H|H].
  - rewrite scan_no_heading.
    + reflexivity.
    + rewrite forallb_forall. intros l Hl.
      destruct (has_heading_marker l) eqn:E; [|reflexivity].
      assert (existsb has_heading_marker lines = true)
        by (apply existsb_exists; eauto).
      congruence.
  - rewrite (scan_no_data lines).
    + cbn [dataStartIdx scan_init]. rewrite orb_true_r. reflexivity.
    + rewrite forallb_forall. intros l Hl.
      destruct (has_data_marker l) eqn:E; [|reflexivity].
      assert (existsb has_data_marker lines = true)
        by (apply existsb_exists; eauto).
      congruence.
Qed.

(** A table that has both markers is accepted, whatever heading is asked. *)
Lemma parse_with_markers (content : string) (targetHeading : Q) :
  existsb has_heading_marker (split_lines content) = true ->
  existsb has_data_marker (split_lines content) = true ->
  parseRAOFile parseFloat Number content targetHeading <> None.
Proof.
  intros Hh Hd. unfold parseRAOFile.
  set (lines := split_lines content) in *.
  pose proof (scan_heading_found lines 0 scan_init (or_intror Hh)) as A.
  pose proof (scan_data_found lines 0 scan_init (or_intror Hd)) as B.
  destruct (scan_lines_ok lines 0 scan_init) as [C _];
    [left; reflexivity | left; reflexivity |].
  set (h := scan_lines Number lines 0 scan_init) in *.
  destruct (Z.eqb_spec (headingLineIdx h) (-1)); [lia|].
  destruct (Z.eqb_spec (dataStartIdx h) (-1)); [lia|].
  cbn [orb]. destruct C as [C|[_ C]]; [lia|].
  destruct (headings h) as [|first rest]; [congruence|].
  cbn [headingColumn]. discriminate.
Qed.

(** *** The callers *)

Lemma loadRAOFile_null (fetch : dof -> Z -> option string) (type : dof)
    (speed heading : Q) (content : string) :
  fetch type (findNearestSpeedFolder speed) = Some content ->
  parseRAOFile parseFloat Number content heading = None ->
  loadRAOFile parseFloat Number fetch type speed heading = None.
Proof.
  intros Hf Hp. unfold loadRAOFile. rewrite Hf. exact Hp.
Qed.

Lemma updatePSDs_null (fetch : dof -> Z -> option string)
    (ws : PowerSpectralDensity.Spectrum)
    (s1 : option PowerSpectralDensity.Spectrum) (content : string) :
  fetch heave 0%Z = Some content \/ fetch pitch 0%Z = Some content ->
  parseRAOFile parseFloat Number content 0 = None ->
  PowerSpectralDensity.updatePSDs parseFloat Number fetch ws s1 = None.
Proof.
  intros Hf Hp. unfold PowerSpectralDensity.updatePSDs.
  match goal with |- (if ?c then _ else _) = _ => destruct c end; [reflexivity|].
  assert (S0 : findNearestSpeedFolder 0 = 0%Z) by (vm_compute; reflexivity).
  destruct Hf as [Hf|Hf].
  - rewrite (loadRAOFile_null fetch heave 0 0 content); [reflexivity| |exact Hp].
    rewrite S0. exact Hf.
  - rewrite (loadRAOFile_null fetch pitch 0 0 content); [| |exact Hp].
    + destruct (loadRAOFile parseFloat Number fetch heave 0 0); reflexivity.
    + rewrite S0. exact Hf.
Qed.

End WithBuiltins.

(** C4 as stated fails: the table declares the headings 0 and 30 and has both
    markers; asked for the heading 200, which it does not declare, the parser
    returns the column of the heading 30. *)
Lemma parse_absent_heading_succeeds :
  headings (scan_lines decimal_Number (split_lines Samples.table_ascending) 0 scan_init)
  = [Some 0; Some 30] /\
  parseRAOFile decimal_parseFloat decimal_Number Samples.table_ascending 200
  = Some (mkRAOData [1 # 10; 1 # 5; 3 # 10] [9 # 10; 7 # 10; 2 # 5] [20; 190; 170]) /\
  parseRAOFile decimal_parseFloat decimal_Number Samples.table_ascending 200
  = parseRAOFile decimal_parseFloat decimal_Number Samples.table_ascending 30.
Proof. repeat split; vm_compute; reflexivity. Qed.

End ParserProofs.

(** ** The response-table parser: unwrapped phases *)

Module UnwrapProofs.
Import JsQ JsQFacts JsString RAOVisualizer.
Local Open Scope Q_scope.

(** *** The data loop, row by row *)

Lemma row_step_accepted (parseFloat : string -> qnum) (n : nat) (idx : Z)
    (st : Rows) (line : string) :
  row_step parseFloat n idx st line
  = match accepted_row parseFloat n idx line with
    | Some row => push_row st row
    | None => st
    end.
Proof.
  unfold row_step, accepted_row.
  destruct (is_empty (trim line) || startsWith "#" (trim line))%bool; [reflexivity|].
  destruct (List.length (split_ws (trim line)) <? 1 + 2 * n)%nat; [reflexivity|].
  destruct (parseFloat_at parseFloat (split_ws (trim line)) 0) as [w|]; [|reflexivity].
  destruct (parseFloat_at parseFloat (split_ws (trim line)) (1 + idx)) as [amp|];
    [|reflexivity].
  destruct (parseFloat_at parseFloat (split_ws (trim line)) (1 + Z.of_nat n + idx))
    as [phase|]; reflexivity.
Qed.

Lemma data_loop_rows (parseFloat : string -> qnum) (n : nat) (idx : Z)
    (lines : list string) :
  forall st,
    fold_left (row_step parseFloat n idx) lines st
    = fold_left push_row (choose (accepted_row parseFloat n idx) lines) st.
Proof.
  induction lines as [|l lines IH]; intro st; [reflexivity|].
  cbn [fold_left choose]. rewrite row_step_accepted.
  destruct (accepted_row parseFloat n idx l) as [row|]; cbn [fold_left]; apply IH.
Qed.

Lemma push_rows_periods (rows : list (Q * Q * Q)) :
  forall st,
    r_periods (fold_left push_row rows st) = r_periods st ++ map row_freq rows.
Proof.
  induction rows as [|[[f a] p] rows IH]; intro st; cbn [fold_left map].
  - now rewrite app_nil_r.
  - rewrite IH. cbn [push_row r_periods row_freq fst]. now rewrite <- app_assoc.
Qed.

(** *** Steps of the unwrapped phases *)

Lemma steps_within_snoc (bound : Q) (l : list Q) (last x : Q) :
  steps_within bound (l ++ [last]) ->
  Qabs (x - last) <= bound ->
  steps_within bound ((l ++ [last]) ++ [x]).
Proof.
  induction l as [|a l IH]; intros Hs Hx.
  - cbn. auto.
  - destruct l as [|b l].
    + cbn in Hs |- *. destruct Hs as [H1 _]. auto.
    + cbn [app steps_within] in Hs |- *. destruct Hs as [H1 H2].
      split; [exact H1|]. apply IH; assumption.
Qed.

Lemma steps_within_weaken (bound bound' : Q) (l : list Q) :
  bound <= bound' -> steps_within bound l -> steps_within bound' l.
Proof.
  intro Hb. induction l as [|a l IH]; [trivial|].
  destruct l as [|b l]; [trivial|].
  intros [H1 H2]. split; [lra | now apply IH].
Qed.

(** From -180 on, the remainder is taken of a non-negative dividend. *)
Lemma normalized_in_range (p : Q) :
  -180 <= p -> -180 <= normalizePhase p /\ normalizePhase p < 180.
Proof.
  intro Hp. unfold normalizePhase.
  destruct (js_rem_nonneg (p + 180) 360) as [A B];
    [lra | reflexivity | split; lra].
Qed.

Lemma push_row_inv (st : Rows) (row : Q * Q * Q) :
  unwrap_inv st -> -180 <= row_phase row -> unwrap_inv (push_row st row).
Proof.
  intros [Hlen [Hsteps Hprev]] Hp.
  destruct row as [[f a] p]. cbn [row_phase snd] in Hp.
  destruct (normalized_in_range p Hp) as [Nlo Nhi].
  unfold push_row.
  set (q := normalizePhase p) in *.
  set (o' := nextOffset (prevPhase st) (phaseOffset st) q).
  unfold unwrap_inv. cbn [r_phases r_periods prevPhase phaseOffset].
  split; [|split; [|split; [|split]]].
  - rewrite !length_app. cbn. lia.
  - destruct (prevPhase st) as [p0|] eqn:Eprev.
    + destruct Hprev as [P1 [P2 [l [last [El Elast]]]]].
      rewrite El. apply steps_within_snoc; [now rewrite <- El|].
      apply Qabs_Qle_condition.
      subst o'. unfold nextOffset, Qgtb.
      destruct (Qltb 180 (q - p0)) eqn:G.
      * apply Qltb_true in G. split; lra.
      * apply Qltb_false in G.
        destruct (Qltb (q - p0) (-180)) eqn:L.
        -- apply Qltb_true in L. split; lra.
        -- apply Qltb_false in L. split; lra.
    + rewrite Hprev. cbn. exact I.
  - lra.
  - lra.
  - exists (r_phases st), (q + o'). split; [reflexivity|]. lra.
Qed.

Lemma push_rows_inv (rows : list (Q * Q * Q)) :
  forall st,
    unwrap_inv st ->
    Forall (fun row => -180 <= row_phase row) rows ->
    unwrap_inv (fold_left push_row rows st).
Proof.
  induction rows as [|row rows IH]; intros st Hinv Hall; [exact Hinv|].
  cbn [fold_left]. inversion Hall as [|? ? Hrow Hrest]; subst.
  apply IH; [now apply push_row_inv | exact Hrest].
Qed.

Lemma rows_init_inv : unwrap_inv rows_init.
Proof. unfold unwrap_inv, rows_init. cbn. auto. Qed.

(** *** Sorting rows that are already in order *)

Lemma ascending_nth (l : list Q) :
  ascending l ->
  forall i, (S i < List.length l)%nat -> nth i l 0 <= nth (S i) l 0.
Proof.
  induction l as [|a l IH]; intros Hasc i Hi; [cbn in Hi; lia|].
  destruct l as [|b l]; [cbn in Hi; lia|].
  destruct Hasc as [Hab Hrest].
  destruct i as [|i]; [exact Hab|].
  apply (IH Hrest i). cbn in Hi |- *. lia.
Qed.

Lemma sort_by_ordered (P : list Q) (n : nat) :
  forall k,
    (forall i, (k <= i)%nat -> (S i < k + n)%nat -> nth i P 0 <= nth (S i) P 0) ->
    sort_by (fun a b => nth a P 0 - nth b P 0) (seq k n) = seq k n.
Proof.
  induction n as [|n IH]; intros k Hord; [reflexivity|].
  cbn [seq sort_by fold_right].
  change (fold_right (insert_by (fun a b => nth a P 0 - nth b P 0)) [] (seq (S k) n))
    with (sort_by (fun a b => nth a P 0 - nth b P 0) (seq (S k) n)).
  rewrite IH by (intros i H1 H2; apply Hord; lia).
  destruct n as [|n]; [reflexivity|].
  cbn [seq insert_by]. unfold Qgtb.
  assert (Hk : nth k P 0 <= nth (S k) P 0) by (apply Hord; lia).
  destruct (Qltb 0 (nth k P 0 - nth (S k) P 0)) eqn:E; [|reflexivity].
  apply Qltb_true in E. lra.
Qed.

Lemma map_nth_seq (l : list Q) :
  map (fun i => nth i l 0) (seq 0 (List.length l)) = l.
Proof.
  induction l as [|a l IH]; [reflexivity|].
  cbn [List.length seq map nth]. f_equal.
  rewrite <- seq_shift, map_map. exact IH.
Qed.

(** C6 as stated fails: the rows of this table are not in ascending
    frequency; the phases are unwrapped in file order and sorted afterwards,
    and the sorted sequence steps from 10 to 340. *)
Lemma shuffled_rows_step_over :
  exists r,
    parseRAOFile decimal_parseFloat decimal_Number Samples.table_shuffled 0 = Some r /\
    phases r = [10; 340; 170] /\
    forall eps, eps < 150 -> ~ steps_within (180 + eps) (phases r).
Proof.
  eexists. split; [vm_compute; reflexivity|].
  split; [reflexivity|].
  intros eps Heps [H _]. cbn [phases] in H.
  assert (E : Qabs (340 - 10) == 330) by reflexivity.
  rewrite E in H. lra.
Qed.

(** C6, amended: when the rows read from the table are in non-decreasing
    frequency order in the file and their phases are at least -180, consecutive
    values of the unwrapped phase sequence returned by the parser differ by at
    most 180 + epsilon, with epsilon = 1/1000.  The loop keeps the steps
    within 180 of exact arithmetic; epsilon is the room left for the rounding
    of the sums [phase + offset]. *)
Theorem unwrapped_steps (parseFloat Number : string -> qnum) (content : string)
    (targetHeading : Q) (r : RAOData) :
  parseRAOFile parseFloat Number content targetHeading = Some r ->
  ascending (map row_freq (table_rows parseFloat Number content targetHeading)) ->
  Forall (fun row => -180 <= row_phase row)
    (table_rows parseFloat Number content targetHeading) ->
  steps_within (180 + (1 # 1000)) (phases r).
Proof.
  intros Hparse Hasc Hphase.
  apply (steps_within_weaken 180); [lra|].
  revert Hparse Hasc Hphase.
  unfold parseRAOFile, table_rows.
  set (lines := split_lines content).
  set (h := scan_lines Number lines 0 scan_init).
  destruct (headingLineIdx h =? -1)%Z; [discriminate|].
  destruct (dataStartIdx h =? -1)%Z; [discriminate|]. cbn [orb].
  destruct (headingColumn (headings h) targetHeading) as [idx|]; [|discriminate].
  rewrite data_loop_rows.
  set (rows := choose (accepted_row parseFloat (List.length (headings h)) idx)
                 (dataLines h lines)).
  intros Hr Hasc Hph. injection Hr as <-. cbn [phases].
  pose proof (push_rows_inv rows rows_init rows_init_inv Hph) as [Hlen [Hsteps _]].
  pose proof (push_rows_periods rows rows_init) as Hper. cbn [rows_init r_periods app] in Hper.
  set (st := fold_left push_row rows rows_init) in *.
  rewrite sort_by_ordered.
  - rewrite <- Hlen, map_nth_seq. exact Hsteps.
  - intros i _ Hi. apply ascending_nth; [now rewrite Hper | lia].
Qed.

(** The theorem on the table whose rows are in ascending frequency. *)
Lemma unwrapped_steps_witness :
  steps_within (180 + (1 # 1000))
    (phases (mkRAOData [1 # 10; 1 # 5; 3 # 10] [1; 4 # 5; 1 # 2] [10; 170; 340])).
Proof.
  apply (unwrapped_steps decimal_parseFloat decimal_Number Samples.table_ascending 0).
  - vm_compute. reflexivity.
  - vm_compute. repeat split; discriminate.
  - vm_compute. repeat constructor; discriminate.
Defined.

End UnwrapProofs.

(** ** Numbers of the spectral side *)

Module JsRFacts.
Import JsR.
Local Open Scope R_scope.

(** Arithmetic on finite numbers is arithmetic on reals. *)
Ltac js_simpl :=
  unfold fin in *; cbn [add sub mul neg pow exp cos abs lift1 lift2] in *.

Lemma div_fin (x y : R) : y <> 0 -> div (fin x) (fin y) = fin (x / y).
Proof.
  intro Hy. unfold div, fin. destruct (Req_dec_T y 0); [contradiction|reflexivity].
Qed.

Lemma div_some (x y : R) : y <> 0 -> div (Some x) (Some y) = Some (x / y).
Proof. exact (div_fin x y). Qed.

Lemma sqrt_fin (x : R) : 0 <= x -> sqrt (fin x) = fin (R_sqrt.sqrt x).
Proof.
  intro Hx. unfold sqrt, fin. destruct (Rlt_dec x 0); [lra|reflexivity].
Qed.

Lemma sqrt_negative (x : R) : x < 0 -> sqrt (fin x) = None.
Proof.
  intro Hx. unfold sqrt, fin. destruct (Rlt_dec x 0); [reflexivity|lra].
Qed.

Lemma ltb_fin (x y : R) : ltb (fin x) (fin y) = true <-> x < y.
Proof.
  unfold ltb, fin. destruct (Rlt_dec x y); split; intro; auto; discriminate.
Qed.

Lemma leb_fin (x y : R) : leb (fin x) (fin y) = true <-> x <= y.
Proof.
  unfold leb, fin. destruct (Rle_dec x y); split; intro; auto; discriminate.
Qed.

Lemma at_index_fin (l : list R) (i : nat) :
  (i < List.length l)%nat ->
  at_index (map fin l) (Z.of_nat i) = fin (nth i l 0).
Proof.
  intro Hi. unfold at_index.
  destruct (Z.ltb_spec (Z.of_nat i) 0); [lia|].
  rewrite Nat2Z.id.
  rewrite (nth_indep _ None (fin 0)) by (now rewrite length_map).
  apply (map_nth fin).
Qed.

Lemma at_index_pred_fin (l : list R) (i : nat) :
  (S i < List.length l)%nat ->
  at_index (map fin l) (Z.of_nat (S i) - 1) = fin (nth i l 0).
Proof.
  intro Hi. replace (Z.of_nat (S i) - 1)%Z with (Z.of_nat i) by lia.
  apply at_index_fin. lia.
Qed.

Lemma mapi_from_nth {A B : Type} (f : A -> Z -> B) (l : list A) (dA : A) (dB : B) :
  forall (k : Z) (i : nat),
    (i < List.length l)%nat ->
    nth i (mapi_from f l k) dB = f (nth i l dA) (k + Z.of_nat i)%Z.
Proof.
  induction l as [|x l IH]; intros k i Hi; [cbn in Hi; lia|].
  destruct i as [|i]; cbn [mapi_from nth].
  - f_equal. lia.
  - rewrite IH by (cbn in Hi; lia). f_equal. lia.
Qed.

Lemma mapi_nth {A B : Type} (f : A -> Z -> B) (l : list A) (dA : A) (dB : B) (i : nat) :
  (i < List.length l)%nat ->
  nth i (mapi f l) dB = f (nth i l dA) (Z.of_nat i).
Proof.
  intro Hi. unfold mapi. now rewrite (mapi_from_nth f l dA dB 0%Z i Hi).
Qed.

Lemma mapi_from_length {A B : Type} (f : A -> Z -> B) (l : list A) :
  forall k, List.length (mapi_from f l k) = List.length l.
Proof.
  induction l as [|x l IH]; intro k; cbn; [reflexivity|]. now rewrite IH.
Qed.

Lemma nth_fin (l : list R) (i : nat) :
  (i < List.length l)%nat -> nth i (map fin l) None = fin (nth i l 0).
Proof.
  intro Hi. rewrite (nth_indep _ None (fin 0)) by (now rewrite length_map).
  apply (map_nth fin).
Qed.

(** *** Objects *)

Section ObjFacts.
Context {K V : Type} (eqb : K -> K -> bool).
Hypothesis eqb_eq : forall a b, eqb a b = true <-> a = b.

Lemma eqb_refl (a : K) : eqb a a = true.
Proof. now apply eqb_eq. Qed.

Lemma eqb_neq (a b : K) : a <> b -> eqb a b = false.
Proof.
  intro H. destruct (eqb a b) eqn:E; [|reflexivity].
  apply eqb_eq in E. contradiction.
Qed.

Lemma obj_get_set_same (o : list (K * V)) (k : K) (v : V) :
  obj_get eqb (obj_set eqb o k v) k = Some v.
Proof.
  induction o as [|[k' v'] o IH]; cbn [obj_set obj_get].
  - now rewrite eqb_refl.
  - destruct (eqb k' k) eqn:E; cbn [obj_get]; rewrite E; [reflexivity|exact IH].
Qed.

Lemma obj_get_set_other (o : list (K * V)) (k k0 : K) (v : V) :
  k0 <> k -> obj_get eqb (obj_set eqb o k0 v) k = obj_get eqb o k.
Proof.
  intro Hne. induction o as [|[k' v'] o IH]; cbn [obj_set obj_get].
  - now rewrite eqb_neq.
  - destruct (eqb k' k0) eqn:E; cbn [obj_get].
    + apply eqb_eq in E. subst k'. now rewrite (eqb_neq _ _ Hne).
    + destruct (eqb k' k); [reflexivity|exact IH].
Qed.

Lemma obj_get_absent (o : list (K * V)) (k : K) :
  ~ In k (map fst o) -> obj_get eqb o k = None.
Proof.
  induction o as [|[k' v'] o IH]; intro Hn; [reflexivity|].
  cbn [obj_get]. rewrite eqb_neq.
  - apply IH. intro H. apply Hn. now right.
  - intro E. apply Hn. left. exact E.
Qed.

End ObjFacts.

End JsRFacts.

(** ** The MSDV integrator *)

Module DoseProofs.
Import JsR JsRFacts PowerSpectralDensity Reference.
Local Open Scope R_scope.

Lemma loop_from_1_short (n : nat) : (n < 2)%nat -> loop_from_1 n = [].
Proof.
  intro Hn. unfold loop_from_1.
  replace (n - 1)%nat with 0%nat by lia. reflexivity.
Qed.

(** With fewer than two frequencies the loop does not run. *)
Lemma msdvOf_short (S_yy frequencies : list num) :
  (List.length frequencies < 2)%nat -> msdvOf S_yy frequencies = fin 0.
Proof.
  intro Hn. unfold msdvOf, msdvIntegral.
  rewrite (loop_from_1_short _ Hn). cbn [fold_left].
  rewrite sqrt_fin by lra. now rewrite sqrt_0.
Qed.

(** The loop of [calculateMSDV] computes the trapezoidal rule. *)
Lemma msdv_loop_upto (fs ss : list R) (m : nat) :
  List.length ss = List.length fs ->
  (m < List.length fs)%nat ->
  fold_left
    (fun integral i =>
       let domega := (at_index (map fin fs) i - at_index (map fin fs) (i - 1))%js in
       let avgPSD :=
         ((at_index (map fin ss) i + at_index (map fin ss) (i - 1)) / fin 2)%js in
       (integral + avgPSD * domega)%js)
    (map Z.of_nat (seq 1 m)) (fin 0)
  = fin (trapezoid_upto fs ss m).
Proof.
  intros Hlen. induction m as [|m IH]; intro Hm; [reflexivity|].
  rewrite seq_S, map_app, fold_left_app, IH by lia.
  cbn [map fold_left Nat.add].
  rewrite !at_index_fin, !at_index_pred_fin by lia.
  cbn [add sub mul lift2 fin]. rewrite div_fin by lra. reflexivity.
Qed.

Lemma msdvIntegral_fin (fs ss : list R) :
  List.length ss = List.length fs ->
  msdvIntegral (map fin ss) (map fin fs) = fin (trapezoid fs ss).
Proof.
  intro Hlen. unfold msdvIntegral, loop_from_1, trapezoid.
  rewrite length_map.
  destruct fs as [|f fs]; [reflexivity|].
  apply msdv_loop_upto; [exact Hlen | cbn; lia].
Qed.

Section PerPosition.
Context {K : Type} (key_eqb : K -> K -> bool).
Hypothesis key_eqb_eq : forall a b, key_eqb a b = true <-> a = b.

Lemma calculateMSDV_fold (frequencies : list num) (entries : list (K * list num)) :
  forall (acc : list (K * num)) (k : K),
    NoDup (map fst entries) ->
    obj_get key_eqb
      (fold_left
         (fun msdvValues entry =>
            let '(position, S_yy) := entry in
            obj_set key_eqb msdvValues position (msdvOf S_yy frequencies))
         entries acc) k
    = match obj_get key_eqb entries k with
      | Some S_yy => Some (msdvOf S_yy frequencies)
      | None => obj_get key_eqb acc k
      end.
Proof.
  induction entries as [|[k0 S0] entries IH]; intros acc k Hnd; [reflexivity|].
  cbn [fold_left map fst] in *. inversion Hnd as [|? ? Hnotin Hnd']; subst.
  rewrite IH by exact Hnd'. cbn [obj_get].
  destruct (key_eqb k0 k) eqn:E.
  - apply key_eqb_eq in E. subst k0.
    rewrite (obj_get_absent key_eqb key_eqb_eq entries k Hnotin).
    apply (obj_get_set_same key_eqb key_eqb_eq).
  - destruct (obj_get key_eqb entries k); [reflexivity|].
    apply (obj_get_set_other key_eqb key_eqb_eq).
    intro H. subst k0. rewrite (eqb_refl key_eqb key_eqb_eq) in E. discriminate.
Qed.

(** Each position gets the dose of its own series, and only the positions of
    the input get one. *)
Lemma calculateMSDV_get (verticalPSDs : list (K * list num))
    (frequencies : list num) (k : K) :
  NoDup (map fst verticalPSDs) ->
  obj_get key_eqb (calculateMSDV key_eqb verticalPSDs frequencies) k
  = match obj_get key_eqb verticalPSDs k with
    | Some S_yy => Some (msdvOf S_yy frequencies)
    | None => None
    end.
Proof.
  intro Hnd. unfold calculateMSDV.
  rewrite (calculateMSDV_fold frequencies verticalPSDs [] k Hnd). reflexivity.
Qed.

End PerPosition.

Lemma pos_eqb_eq (a b : R) : pos_eqb a b = true <-> a = b.
Proof.
  unfold pos_eqb. destruct (Req_dec_T a b); split; intro; auto; discriminate.
Qed.

(** C9: when the frequency grid has fewer than two points, every position of
    the input gets the dose 0, a finite number. *)
Theorem msdv_short_grid {K : Type} (key_eqb : K -> K -> bool)
    (verticalPSDs : list (K * list num)) (frequencies : list num)
    (position : K) (S_yy : list num) :
  (forall a b, key_eqb a b = true <-> a = b) ->
  NoDup (map fst verticalPSDs) ->
  (List.length frequencies < 2)%nat ->
  obj_get key_eqb verticalPSDs position = Some S_yy ->
  obj_get key_eqb (calculateMSDV key_eqb verticalPSDs frequencies) position
  = Some (fin 0).
Proof.
  intros Heq Hnd Hlen Hget.
  rewrite (calculateMSDV_get key_eqb Heq _ _ _ Hnd), Hget.
  now rewrite msdvOf_short.
Qed.

(** C2 as stated fails: a series whose trapezoidal integral is -1 gets no
    finite dose ([NaN]), while [sqrt (max (-1) 0)] is 0. *)
Lemma msdv_negative_integral_nan :
  trapezoid [0; 1] [-1; -1] = -1 /\
  obj_get pos_eqb
    (calculateMSDV pos_eqb [(0, [fin (-1); fin (-1)])] [fin 0; fin 1]) 0
  = Some None /\
  Some (@None R)
  <> Some (fin (R_sqrt.sqrt (Rmax (trapezoid [0; 1] [-1; -1]) 0))).
Proof.
  assert (E : trapezoid [0; 1] [-1; -1] = -1).
  { unfold trapezoid. cbn. lra. }
  split; [exact E|]. split; [|discriminate].
  rewrite (calculateMSDV_get pos_eqb pos_eqb_eq).
  - cbn [obj_get]. rewrite (eqb_refl pos_eqb pos_eqb_eq).
    unfold msdvOf.
    change [fin (-1); fin (-1)] with (map fin [-1; -1]).
    change [fin 0; fin 1] with (map fin [0; 1]).
    rewrite msdvIntegral_fin by reflexivity.
    rewrite E, sqrt_negative by lra. reflexivity.
  - cbn. constructor; [intros []|constructor].
Qed.

(** C2, amended: for a finite series aligned with a finite grid, the integral
    [I] is the trapezoidal rule; the dose is [sqrt I] when [I >= 0], with no
    exposure-time factor, and is not a number when [I < 0]: there is no clamp. *)
Theorem msdv_dose {K : Type} (key_eqb : K -> K -> bool)
    (verticalPSDs : list (K * list num)) (fs ss : list R) (position : K) :
  (forall a b, key_eqb a b = true <-> a = b) ->
  NoDup (map fst verticalPSDs) ->
  obj_get key_eqb verticalPSDs position = Some (map fin ss) ->
  List.length ss = List.length fs ->
  (0 <= trapezoid fs ss ->
   obj_get key_eqb (calculateMSDV key_eqb verticalPSDs (map fin fs)) position
   = Some (fin (R_sqrt.sqrt (trapezoid fs ss)))) /\
  (trapezoid fs ss < 0 ->
   obj_get key_eqb (calculateMSDV key_eqb verticalPSDs (map fin fs)) position
   = Some None).
Proof.
  intros Heq Hnd Hget Hlen.
  rewrite (calculateMSDV_get key_eqb Heq _ _ _ Hnd), Hget.
  unfold msdvOf. rewrite msdvIntegral_fin by exact Hlen.
  split; intro HI.
  - now rewrite sqrt_fin.
  - now rewrite sqrt_negative.
Qed.

Lemma msdv_short_grid_witness :
  obj_get Z.eqb
    (calculateMSDV Z.eqb [(0%Z, [fin 1]); (10%Z, [])] [fin 3]) 10%Z
  = Some (fin 0).
Proof.
  apply (msdv_short_grid Z.eqb [(0%Z, [fin 1]); (10%Z, [])] [fin 3] 10%Z []).
  - exact Z.eqb_eq.
  - repeat constructor; cbn; intuition lia.
  - cbn. lia.
  - reflexivity.
Defined.

Lemma msdv_dose_witness :
  obj_get Z.eqb
    (calculateMSDV Z.eqb [(0%Z, map fin [1; 3])] (map fin [0; 2])) 0%Z
  = Some (fin (R_sqrt.sqrt (trapezoid [0; 2] [1; 3]))) /\
  obj_get Z.eqb
    (calculateMSDV Z.eqb [(0%Z, map fin [-1; -1])] (map fin [0; 1])) 0%Z
  = Some None.
Proof.
  split.
  - apply (msdv_dose Z.eqb [(0%Z, map fin [1; 3])] [0; 2] [1; 3] 0%Z).
    + exact Z.eqb_eq.
    + repeat constructor; cbn; intuition.
    + reflexivity.
    + reflexivity.
    + unfold trapezoid. cbn. lra.
  - apply (msdv_dose Z.eqb [(0%Z, map fin [-1; -1])] [0; 1] [-1; -1] 0%Z).
    + exact Z.eqb_eq.
    + repeat constructor; cbn; intuition.
    + reflexivity.
    + reflexivity.
    + unfold trapezoid. cbn. lra.
Defined.

End DoseProofs.

(** ** Acceleration scaling *)

Module AccelerationProofs.
Import JsR JsRFacts PowerSpectralDensity.
Local Open Scope R_scope.

(** C3: at every index of aligned finite series, the heave PSD is multiplied
    by [(2 PI f)^4] and the pitch and cross PSDs by [f^4], [f] being the
    frequency at that index; the heave factor is [(2 PI)^4] times the other. *)
Theorem acceleration_scaling (fs hs ps cs : list R) (i : nat) :
  (i < List.length fs)%nat ->
  List.length hs = List.length fs ->
  List.length ps = List.length fs ->
  List.length cs = List.length fs ->
  let acc :=
    convertToAccelerationPSDs (map fin fs)
      (mkDisplacementPSDs (map fin hs) (map fin ps) (map fin cs)) in
  let f := nth i fs 0 in
  nth i (accHeavePSD acc) None = fin ((2 * PI * f) ^ 4 * nth i hs 0) /\
  nth i (accPitchPSD acc) None = fin (f ^ 4 * nth i ps 0) /\
  nth i (accCrossPSD acc) None = fin (f ^ 4 * nth i cs 0) /\
  (2 * PI * f) ^ 4 = (2 * PI) ^ 4 * f ^ 4.
Proof.
  intros Hi Hh Hp Hc acc f. subst acc.
  unfold convertToAccelerationPSDs.
  cbn [accHeavePSD accPitchPSD accCrossPSD heavePSD_unw pitchPSD_unw crossPSD_unw].
  rewrite !(mapi_nth (A:=num) (B:=num) _ _ None None) by (rewrite length_map; lia).
  rewrite !nth_fin by lia. rewrite at_index_fin by lia.
  js_simpl. fold f.
  repeat split; try (apply f_equal; ring). ring.
Qed.

Lemma acceleration_scaling_witness :
  nth 1
    (accHeavePSD
       (convertToAccelerationPSDs (map fin [1; 2])
          (mkDisplacementPSDs (map fin [3; 5]) (map fin [7; 11]) (map fin [13; 17]))))
    None
  = fin ((2 * PI * 2) ^ 4 * 5).
Proof.
  apply (acceleration_scaling [1; 2] [3; 5] [7; 11] [13; 17] 1);
    first [reflexivity | cbn; lia].
Defined.

End AccelerationProofs.

(** ** Interpolation *)

Module InterpolationProofs.
Import JsR JsRFacts PowerSpectralDensity Reference.
Local Open Scope R_scope.

Lemma increasing_step (l : list R) :
  increasing l ->
  forall i, (S i < List.length l)%nat -> nth i l 0 < nth (S i) l 0.
Proof.
  induction l as [|a l IH]; intros Hinc i Hi; [cbn in Hi; lia|].
  destruct l as [|b l]; [cbn in Hi; lia|].
  destruct Hinc as [Hab Hrest].
  destruct i as [|i]; [exact Hab|].
  apply (IH Hrest i). cbn in Hi |- *. lia.
Qed.

Lemma increasing_lt (l : list R) :
  increasing l ->
  forall i j, (i < j)%nat -> (j < List.length l)%nat -> nth i l 0 < nth j l 0.
Proof.
  intros Hinc i j Hij. induction Hij as [|j Hij IH]; intro Hj.
  - now apply increasing_step.
  - apply Rlt_trans with (nth j l 0); [apply IH; lia | now apply increasing_step].
Qed.

(** [findIndex] stops at the first knot that is not below the query. *)
Lemma findIndex_first (q : R) (xs : list R) :
  forall (base : Z) (k : nat),
    (k < List.length xs)%nat ->
    (forall i, (i < k)%nat -> nth i xs 0 < q) ->
    q <= nth k xs 0 ->
    findIndex_from (fun f => (f >=? fin q)%js) (map fin xs) base
    = (base + Z.of_nat k)%Z.
Proof.
  induction xs as [|x xs IH]; intros base k Hk Hlow Hge; [cbn in Hk; lia|].
  cbn [map findIndex_from].
  change (geb (fin x) (fin q)) with (leb (fin q) (fin x)).
  destruct k as [|k].
  - cbn in Hge. apply leb_fin in Hge. rewrite Hge. lia.
  - assert (Hx : leb (fin q) (fin x) = false).
    { destruct (leb (fin q) (fin x)) eqn:E; [|reflexivity].
      apply leb_fin in E. specialize (Hlow 0%nat ltac:(lia)). cbn in Hlow. lra. }
    rewrite Hx. rewrite (IH (base + 1)%Z k).
    + lia.
    + cbn in Hk. lia.
    + intros i Hi. apply (Hlow (S i)). lia.
    + exact Hge.
Qed.

Lemma findIndex_none (q : R) (xs : list R) :
  forall base : Z,
    (forall i, (i < List.length xs)%nat -> nth i xs 0 < q) ->
    findIndex_from (fun f => (f >=? fin q)%js) (map fin xs) base = (-1)%Z.
Proof.
  induction xs as [|x xs IH]; intros base Hlow; [reflexivity|].
  cbn [map findIndex_from].
  change (geb (fin x) (fin q)) with (leb (fin q) (fin x)).
  assert (Hx : leb (fin q) (fin x) = false).
  { destruct (leb (fin q) (fin x)) eqn:E; [|reflexivity].
    apply leb_fin in E. specialize (Hlow 0%nat ltac:(cbn; lia)). cbn in Hlow. lra. }
  rewrite Hx. apply IH. intros i Hi. apply (Hlow (S i)). cbn. lia.
Qed.

(** The value at a query whose first knot not below it is the first knot. *)
Lemma interpolateAt_first (xs ys : list R) (q : R) :
  (0 < List.length xs)%nat -> List.length ys = List.length xs ->
  q <= nth 0 xs 0 ->
  interpolateAt (map fin xs) (map fin ys) (fin q) = fin (nth 0 ys 0).
Proof.
  intros Hn Hlen Hq. unfold interpolateAt, findIndex.
  rewrite (findIndex_first q xs 0%Z 0%nat Hn); [|intros i Hi; lia|exact Hq].
  cbn [Z.add Z.of_nat Z.eqb].
  apply (at_index_fin ys 0). lia.
Qed.

(** The value at a query between the knots [k] and [k+1], the upper one
    included. *)
Lemma interpolateAt_between (xs ys : list R) (q : R) (k : nat) :
  increasing xs -> List.length ys = List.length xs ->
  (S k < List.length xs)%nat ->
  nth k xs 0 < q -> q <= nth (S k) xs 0 ->
  interpolateAt (map fin xs) (map fin ys) (fin q)
  = fin (line (nth k xs 0) (nth k ys 0) (nth (S k) xs 0) (nth (S k) ys 0) q).
Proof.
  intros Hinc Hlen Hk Hlo Hhi. unfold interpolateAt, findIndex.
  rewrite (findIndex_first q xs 0%Z (S k) Hk); [| |exact Hhi].
  - rewrite Z.add_0_l.
    destruct (Z.eqb_spec (Z.of_nat (S k)) 0); [lia|].
    destruct (Z.eqb_spec (Z.of_nat (S k)) (-1)); [lia|].
    rewrite !at_index_fin, !at_index_pred_fin by lia.
    pose proof (increasing_step xs Hinc k Hk) as Hstep.
    js_simpl. rewrite div_fin by lra. reflexivity.
  - intros i Hi.
    destruct (Nat.eq_dec i k) as [->|Hne]; [exact Hlo|].
    apply Rlt_trans with (nth k xs 0); [|exact Hlo].
    apply increasing_lt; [exact Hinc | lia | lia].
Qed.

Lemma interpolateAt_above (xs ys : list R) (q : R) :
  increasing xs -> (0 < List.length xs)%nat -> List.length ys = List.length xs ->
  nth (List.length xs - 1) xs 0 < q ->
  interpolateAt (map fin xs) (map fin ys) (fin q)
  = fin (nth (List.length xs - 1) ys 0).
Proof.
  intros Hinc Hn Hlen Hq. unfold interpolateAt, findIndex.
  rewrite findIndex_none.
  - cbn [Z.eqb]. rewrite length_map, Hlen.
    replace (Z.of_nat (List.length xs) - 1)%Z
      with (Z.of_nat (List.length xs - 1)) by lia.
    apply at_index_fin. lia.
  - intros i Hi.
    destruct (Nat.eq_dec i (List.length xs - 1)) as [->|Hne]; [exact Hq|].
    apply Rlt_trans with (nth (List.length xs - 1) xs 0); [|exact Hq].
    apply increasing_lt; [exact Hinc | lia | lia].
Qed.

(** C8, over the doubles: at the upper knot 0.2 of the knots (0.1, 0.1) and
    (0.2, 0.5) the interpolation formula is evaluated and gives a number
    above the knot value 0.5, not the knot value; with the values 0.4 and 0
    it gives a negative number, not 0.  At the first knot the value
    of the knot is returned. *)
Lemma knot_value_missed :
  (0.5 <? nth 0 (Double.interpolateWaveSpectrum Double.knots Double.rising
                   Double.at_second) nan)%float = true /\
  (nth 0 (Double.interpolateWaveSpectrum Double.knots Double.falling
            Double.at_second) nan <? 0)%float = true /\
  (nth 0 (Double.interpolateWaveSpectrum Double.knots Double.rising
            Double.at_first) nan =? nth 0 Double.rising nan)%float = true.
Proof.
  split; [|split].
  - vm_compute. reflexivity.
  - vm_compute. reflexivity.
  - vm_compute. reflexivity.
Qed.

(** C8: over knots with strictly increasing frequencies and aligned values,
    the value returned for a query is the first value at or below the first
    knot, the last value above the last knot, and otherwise the code's
    expression [y0 + (q - x0) * (y1 - y0) / (x1 - x0)] over the two knots
    that bracket the query, the upper knot included: at a knot other than the
    first the formula is evaluated, the knot value is not copied. *)
Theorem interpolation_cases (xs ys qs : list R) (j : nat) :
  increasing xs ->
  (0 < List.length xs)%nat ->
  List.length ys = List.length xs ->
  (j < List.length qs)%nat ->
  let q := nth j qs 0 in
  let v :=
    nth j (interpolateWaveSpectrum (map fin xs) (map fin ys) (map fin qs)) None in
  (q <= nth 0 xs 0 -> v = fin (nth 0 ys 0)) /\
  (forall k, (S k < List.length xs)%nat ->
     nth k xs 0 < q -> q <= nth (S k) xs 0 ->
     v = fin (nth k ys 0
              + (q - nth k xs 0) * (nth (S k) ys 0 - nth k ys 0)
                / (nth (S k) xs 0 - nth k xs 0))) /\
  (nth (List.length xs - 1) xs 0 < q -> v = fin (nth (List.length xs - 1) ys 0)).
Proof.
  intros Hinc Hn Hlen Hj q v.
  assert (Hv : v = interpolateAt (map fin xs) (map fin ys) (fin q)).
  { subst v q. unfold interpolateWaveSpectrum.
    rewrite (nth_indep _ None (interpolateAt (map fin xs) (map fin ys) None))
      by (now rewrite !length_map).
    rewrite (map_nth (interpolateAt (map fin xs) (map fin ys))).
    now rewrite nth_fin. }
  rewrite Hv. split; [|split].
  - intro Hq. apply interpolateAt_first; [exact Hn | exact Hlen | exact Hq].
  - intros k Hk Hlo Hhi.
    rewrite (interpolateAt_between xs ys q k Hinc Hlen Hk Hlo Hhi).
    reflexivity.
  - intro Hq. now apply interpolateAt_above.
Qed.

(** The theorem on the knots (1,10), (2,30), (4,20), queried at 0, 1, 3, 4, 9. *)
Lemma interpolation_cases_witness :
  let out :=
    interpolateWaveSpectrum (map fin [1; 2; 4]) (map fin [10; 30; 20])
      (map fin [0; 1; 3; 4; 9]) in
  nth 0 out None = fin 10 /\
  nth 1 out None = fin 10 /\
  nth 2 out None = fin (30 + (3 - 2) * (20 - 30) / (4 - 2)) /\
  nth 3 out None = fin (30 + (4 - 2) * (20 - 30) / (4 - 2)) /\
  nth 4 out None = fin 20.
Proof.
  assert (Hinc : increasing [1; 2; 4]) by (cbn; repeat split; lra).
  assert (Hn : (0 < List.length [1; 2; 4])%nat) by (cbn; lia).
  assert (Hlen : List.length [10; 30; 20] = List.length [1; 2; 4]) by reflexivity.
  split; [|split; [|split; [|split]]].
  - destruct (interpolation_cases [1; 2; 4] [10; 30; 20] [0; 1; 3; 4; 9] 0
                Hinc Hn Hlen ltac:(cbn; lia)) as [H _].
    apply H. cbn. lra.
  - destruct (interpolation_cases [1; 2; 4] [10; 30; 20] [0; 1; 3; 4; 9] 1
                Hinc Hn Hlen ltac:(cbn; lia)) as [H _].
    apply H. cbn. lra.
  - destruct (interpolation_cases [1; 2; 4] [10; 30; 20] [0; 1; 3; 4; 9] 2
                Hinc Hn Hlen ltac:(cbn; lia)) as [_ [H _]].
    apply (H 1%nat); cbn; [lia | lra | lra].
  - destruct (interpolation_cases [1; 2; 4] [10; 30; 20] [0; 1; 3; 4; 9] 3
                Hinc Hn Hlen ltac:(cbn; lia)) as [_ [H _]].
    apply (H 1%nat); cbn; [lia | lra | lra].
  - destruct (interpolation_cases [1; 2; 4] [10; 30; 20] [0; 1; 3; 4; 9] 4
                Hinc Hn Hlen ltac:(cbn; lia)) as [_ [_ H]].
    apply H. cbn. lra.
Defined.

End InterpolationProofs.

(** ** The Wf weighting cascade *)

Module WeightingProofs.
Import JsR JsRFacts PowerSpectralDensity Reference.
Local Open Scope R_scope.

Lemma sqrt2_pos : 0 < R_sqrt.sqrt 2.
Proof. apply sqrt_lt_R0. lra. Qed.

Lemma zeta1_fin : zeta1 = fin (1 / R_sqrt.sqrt 2).
Proof.
  unfold zeta1. rewrite sqrt_fin by lra. apply div_fin.
  pose proof sqrt2_pos. lra.
Qed.

Lemma zeta2_fin : zeta2 = fin (1 / R_sqrt.sqrt 2).
Proof. exact zeta1_fin. Qed.

Lemma zeta_sqrt2_pos : 0 < 1 / R_sqrt.sqrt 2.
Proof. apply Rdiv_lt_0_compat; [lra | exact sqrt2_pos]. Qed.

Lemma omega_fin (c : R) : (pi2 * fin c)%js = fin (2 * PI * c).
Proof. reflexivity. Qed.

Lemma omega_pos (c : R) : 0 < c -> 0 < 2 * PI * c.
Proof. intro Hc. pose proof PI_RGT_0. nra. Qed.

(** The shared polynomial at [s = i w]. *)
Lemma quadratic_at (z o w : R) :
  quadratic (fin z) (fin o) (mkComplex (fin 0) (fin w))
  = mkComplex (fin (0 * 0 - w * w + (2 * z * o * 0 - 0 * w) + o ^ 2))
              (fin (0 * w + w * 0 + (2 * z * o * w + 0 * 0) + 0)).
Proof. reflexivity. Qed.

(** Its squared magnitude is [(o^2 - w^2)^2 + (2 z o w)^2], which vanishes
    only if [w = 0] and then [o = 0]. *)
Lemma quadratic_magnitude_nonzero (z o w : R) :
  0 < z -> 0 < o ->
  let re_ := 0 * 0 - w * w + (2 * z * o * 0 - 0 * w) + o ^ 2 in
  let im_ := 0 * w + w * 0 + (2 * z * o * w + 0 * 0) + 0 in
  re_ * re_ + im_ * im_ <> 0.
Proof.
  intros Hz Ho re_ im_ H.
  assert (Hre : re_ = o * o - w * w) by (unfold re_; ring).
  assert (Him : im_ = 2 * z * o * w) by (unfold im_; ring).
  assert (Hr0 : re_ = 0) by nra.
  assert (Hi0 : im_ = 0) by nra.
  assert (Hzo : 0 < 2 * z * o) by nra.
  assert (Hw : w = 0).
  { rewrite Him in Hi0. apply Rmult_integral in Hi0. destruct Hi0; lra. }
  rewrite Hre, Hw in Hr0. nra.
Qed.

Lemma quadratic_nonzero (z o w : R) :
  0 < z -> 0 < o ->
  nonzero_denominator (quadratic (fin z) (fin o) (mkComplex (fin 0) (fin w))).
Proof.
  intros Hz Ho. unfold nonzero_denominator. rewrite quadratic_at.
  cbn [real imag]. eexists. split; [reflexivity|].
  now apply quadratic_magnitude_nonzero.
Qed.

Lemma complexDivide_fin (a1 a2 b1 b2 : R) :
  b1 * b1 + b2 * b2 <> 0 ->
  finite_complex
    (complexDivide (mkComplex (fin a1) (fin a2)) (mkComplex (fin b1) (fin b2))).
Proof.
  intro Hd. unfold finite_complex, complexDivide. cbn [real imag].
  js_simpl. fold (fin (a1 * b1 + a2 * b2)) (fin (a2 * b1 - a1 * b2))
    (fin (b1 * b1 + b2 * b2)).
  rewrite !div_fin by exact Hd. eauto.
Qed.

(** A finite numerator over the shared polynomial is a finite quotient. *)
Lemma divide_by_quadratic (n : complex) (z o w : R) :
  finite_complex n -> 0 < z -> 0 < o ->
  finite_complex
    (complexDivide n (quadratic (fin z) (fin o) (mkComplex (fin 0) (fin w)))).
Proof.
  intros [a [b ->]] Hz Ho. rewrite quadratic_at.
  apply complexDivide_fin. now apply quadratic_magnitude_nonzero.
Qed.

Lemma complexMultiply_fin (a b : complex) :
  finite_complex a -> finite_complex b -> finite_complex (complexMultiply a b).
Proof.
  intros [a1 [a2 ->]] [b1 [b2 ->]]. unfold finite_complex, complexMultiply.
  cbn [real imag]. js_simpl. eauto.
Qed.

Lemma quadratic_fin (z o w : R) :
  finite_complex (quadratic (fin z) (fin o) (mkComplex (fin 0) (fin w))).
Proof. rewrite quadratic_at. unfold finite_complex. eauto. Qed.

Lemma Hh_fin (w : R) : finite_complex (Hh (mkComplex (fin 0) (fin w))).
Proof.
  unfold Hh. rewrite zeta1_fin. unfold omega1. rewrite omega_fin.
  apply divide_by_quadratic;
    [|exact zeta_sqrt2_pos | apply omega_pos; lra].
  apply complexMultiply_fin; unfold finite_complex; eauto.
Qed.

Lemma Hl_fin (w : R) : finite_complex (Hl (mkComplex (fin 0) (fin w))).
Proof.
  unfold Hl. rewrite zeta2_fin. unfold omega2. rewrite omega_fin.
  apply divide_by_quadratic;
    [|exact zeta_sqrt2_pos | apply omega_pos; lra].
  unfold finite_complex, re. js_simpl. eauto.
Qed.

Lemma Ht_fin (w : R) : finite_complex (Ht (mkComplex (fin 0) (fin w))).
Proof.
  unfold Ht, zeta4, omega4, omega3. rewrite !omega_fin.
  apply divide_by_quadratic; [|lra | apply omega_pos; lra].
  assert (H3 : 2 * PI * 3.5 <> 0) by (pose proof (omega_pos 3.5); lra).
  unfold re. cbn [pow lift1 fin]. fold (fin ((2 * PI * 0.25) ^ 2)).
  rewrite div_fin by exact H3.
  unfold finite_complex, complexAdd, complexMultiply. cbn [real imag].
  js_simpl. eauto.
Qed.

Lemma Hs_fin (w : R) : finite_complex (Hs (mkComplex (fin 0) (fin w))).
Proof.
  unfold Hs, zeta5, zeta6, omega5, omega6. rewrite !omega_fin.
  apply divide_by_quadratic; [|lra | apply omega_pos; lra].
  apply quadratic_fin.
Qed.

Lemma weightAt_fin (PSD : list R) (w : R) (i : nat) :
  (i < List.length PSD)%nat ->
  exists out, weightAt (map fin PSD) (fin w) (Z.of_nat i) = fin out.
Proof.
  intro Hi. unfold weightAt.
  destruct (complexMultiply_fin _ _
              (complexMultiply_fin _ _ (Hh_fin w) (Hl_fin w))
              (complexMultiply_fin _ _ (Ht_fin w) (Hs_fin w))) as [a [b ->]].
  unfold complexAbs. cbn [real imag]. rewrite at_index_fin by exact Hi.
  js_simpl. fold (fin (a * a + b * b)).
  rewrite sqrt_fin by nra. js_simpl. eauto.
Qed.

Lemma all_finite (l : list num) :
  (forall i, (i < List.length l)%nat -> exists x, nth i l None = fin x) ->
  exists out, l = map fin out.
Proof.
  induction l as [|a l IH]; intro H; [now exists []|].
  destruct (H 0%nat ltac:(cbn; lia)) as [x Hx]. cbn in Hx.
  destruct IH as [out Hout].
  - intros i Hi. apply (H (S i)). cbn. lia.
  - exists (x :: out). cbn [map]. now rewrite Hx, Hout.
Qed.

(** C10: at [s = i w], for every real [w], the denominator computed by
    [complexDivide] in each of the four stages is a finite number other than
    zero, the four transfer functions are finite complex numbers, and
    [applyWfWeighting] gives a finite value at every frequency of finite
    aligned inputs. *)
Theorem weighting_well_defined (w : R) :
  let s := mkComplex (fin 0) (fin w) in
  nonzero_denominator (quadratic zeta1 omega1 s) /\
  nonzero_denominator (quadratic zeta2 omega2 s) /\
  nonzero_denominator (quadratic zeta4 omega4 s) /\
  nonzero_denominator (quadratic zeta6 omega6 s) /\
  finite_complex (Hh s) /\ finite_complex (Hl s) /\
  finite_complex (Ht s) /\ finite_complex (Hs s) /\
  forall omega PSD : list R,
    List.length PSD = List.length omega ->
    exists out, applyWfWeighting (map fin omega) (map fin PSD) = map fin out.
Proof.
  intro s. subst s.
  split; [|split; [|split; [|split]]].
  - rewrite zeta1_fin. unfold omega1. rewrite omega_fin.
    apply quadratic_nonzero; [exact zeta_sqrt2_pos | apply omega_pos; lra].
  - rewrite zeta2_fin. unfold omega2. rewrite omega_fin.
    apply quadratic_nonzero; [exact zeta_sqrt2_pos | apply omega_pos; lra].
  - unfold zeta4, omega4. rewrite omega_fin.
    apply quadratic_nonzero; [lra | apply omega_pos; lra].
  - unfold zeta6, omega6. rewrite omega_fin.
    apply quadratic_nonzero; [lra | apply omega_pos; lra].
  - split; [apply Hh_fin|]. split; [apply Hl_fin|].
    split; [apply Ht_fin|]. split; [apply Hs_fin|].
    intros omega PSD Hlen. apply all_finite.
    unfold applyWfWeighting. intros i Hi.
    unfold mapi in Hi. rewrite mapi_from_length, length_map in Hi.
    rewrite (mapi_nth (A:=num) (B:=num) _ _ None None)
      by (now rewrite length_map).
    rewrite nth_fin by exact Hi.
    apply weightAt_fin. lia.
Qed.

(** The theorem at the frequencies 0 and 1 with the PSD values 2 and 3. *)
Lemma weighting_well_defined_witness :
  exists out, applyWfWeighting (map fin [0; 1]) (map fin [2; 3]) = map fin out.
Proof.
  destruct (weighting_well_defined 0) as [_ [_ [_ [_ [_ [_ [_ [_ H]]]]]]]].
  apply (H [0; 1] [2; 3]). reflexivity.
Defined.

End WeightingProofs.

(** ** The wave spectrum and its calibration *)

Module SpectrumProofs.
Import JsR JsRFacts JonswapSpectrum Reference.
Local Open Scope R_scope.

(** *** The frequency grid *)

Lemma omega_loop_from (d : nat) :
  forall (k fuel : nat),
    (k + d = 601)%nat -> (d <= fuel)%nat ->
    omega_loop fuel (0.01 * INR k)
    = map (fun j => fin (0.01 * INR j)) (seq k d).
Proof.
  induction d as [|d IH]; intros k fuel Hk Hfuel.
  - assert (k = 601%nat) by lia. subst k.
    destruct fuel as [|fuel]; [reflexivity|]. cbn [omega_loop seq map].
    destruct (Rle_dec (0.01 * INR 601) 6) as [H|H]; [|reflexivity].
    rewrite INR_IZR_INZ in H. cbn in H. lra.
  - destruct fuel as [|fuel]; [lia|]. cbn [omega_loop seq map].
    assert (Hle : 0.01 * INR k <= 6).
    { assert (INR k <= 600).
      { replace 600 with (INR 600) by (rewrite INR_IZR_INZ; reflexivity).
        apply le_INR. lia. }
      lra. }
    destruct (Rle_dec (0.01 * INR k) 6) as [_|H]; [|contradiction].
    f_equal.
    replace (0.01 * INR k + 0.01) with (0.01 * INR (S k))
      by (rewrite S_INR; ring).
    apply IH; lia.
Qed.

(** The loop stops by its own condition and builds the 600 points. *)
Lemma omega_grid_is_grid : omega_grid = map fin grid.
Proof.
  unfold omega_grid, grid.
  replace 0.01 with (0.01 * INR 1) at 1 by (cbn; lra).
  rewrite (omega_loop_from 600 1 1000) by lia.
  now rewrite map_map.
Qed.

Lemma grid_length : List.length grid = 600%nat.
Proof. unfold grid. now rewrite length_map, length_seq. Qed.

Lemma grid_nth (i : nat) :
  (i < 600)%nat -> nth i grid 0 = 0.01 * INR (S i).
Proof.
  intro Hi. unfold grid.
  rewrite (nth_indep _ 0 ((fun k => 0.01 * INR k) 0%nat))
    by (now rewrite length_map, length_seq).
  rewrite (map_nth (fun k => 0.01 * INR k)), seq_nth by exact Hi.
  reflexivity.
Qed.

Lemma grid_pos (i : nat) : (i < 600)%nat -> 0 < nth i grid 0.
Proof.
  intro Hi. rewrite grid_nth by exact Hi.
  pose proof (lt_0_INR (S i) ltac:(lia)). lra.
Qed.

Lemma grid_step (i : nat) :
  (S i < 600)%nat -> nth i grid 0 < nth (S i) grid 0.
Proof.
  intro Hi. rewrite !grid_nth by lia. rewrite (S_INR (S i)). lra.
Qed.

Lemma increasing_of_steps (l : list R) :
  (forall i, (S i < List.length l)%nat -> nth i l 0 < nth (S i) l 0) ->
  increasing l.
Proof.
  induction l as [|a l IH]; intro H; [exact I|].
  destruct l as [|b l]; [exact I|]. split.
  - apply (H 0%nat). cbn. lia.
  - apply IH. intros i Hi. apply (H (S i)). cbn in Hi |- *. lia.
Qed.

Lemma grid_increasing : increasing grid.
Proof.
  apply increasing_of_steps. intros i Hi.
  rewrite grid_length in Hi. now apply grid_step.
Qed.

Lemma grid_In_pos (w : R) : In w grid -> 0 < w.
Proof.
  unfold grid. intro H. apply in_map_iff in H as [k [<- Hk]].
  apply in_seq in Hk. pose proof (lt_0_INR k ltac:(lia)). lra.
Qed.

(** *** The density *)

Lemma peak_pos (Tp : R) : 0 < Tp -> 0 < 2 * PI / Tp.
Proof.
  intro H. apply Rdiv_lt_0_compat; [|exact H]. pose proof PI_RGT_0. lra.
Qed.

(** The code computes the JONSWAP density. *)
Lemma spectralDensity_jonswap (alpha Tp gamma g w : R) :
  0 < Tp -> 0 < gamma -> 0 < w ->
  spectralDensity (fin alpha) (fin Tp) (fin gamma) (fin g) (fin w)
  = fin (jonswap alpha Tp gamma g w).
Proof.
  intros HTp Hgamma Hw.
  pose proof (peak_pos Tp HTp) as Hwp.
  unfold spectralDensity, jonswap.
  replace (fin 2 * fin PI / fin Tp)%js with (fin (2 * PI / Tp))
    by (symmetry; apply (div_fin (2 * PI) Tp); lra).
  set (wp := 2 * PI / Tp) in *. cbv zeta.
  assert (Hsig : forall sigma, 0 < sigma ->
    (fin alpha * pow (fin g) 2 * pow_neg (fin w) 5
     * exp (fin (-1.25) * pow (fin wp / fin w) 4)
     * pow_real (fin gamma)
         (exp (- pow (fin w - fin wp) 2 / (fin 2 * pow (fin sigma * fin wp) 2))))%js
    = fin (alpha * g ^ 2 * / w ^ 5 * Rtrigo_def.exp (- 1.25 * (wp / w) ^ 4)
           * Rpower gamma
               (Rtrigo_def.exp (- (w - wp) ^ 2 / (2 * sigma ^ 2 * wp ^ 2))))).
  { intros sigma Hs.
    assert (Hw5 : w ^ 5 <> 0) by (apply pow_nonzero; lra).
    assert (Hden : 2 * (sigma * wp) ^ 2 <> 0).
    { assert (0 < sigma * wp) by (apply Rmult_lt_0_compat; assumption). nra. }
    unfold pow_neg.
    rewrite (div_fin wp w) by lra.
    js_simpl.
    rewrite (div_some 1 (w ^ 5)) by exact Hw5.
    rewrite (div_some (- (w - wp) ^ 2) (2 * (sigma * wp) ^ 2)) by exact Hden.
    cbn [mul lift2 lift1 exp pow_real].
    destruct (Rlt_dec 0 gamma) as [_|Hn]; [|contradiction].
    cbn [mul lift2]. apply f_equal.
    replace (2 * sigma ^ 2 * wp ^ 2) with (2 * (sigma * wp) ^ 2) by ring.
    replace (1 / w ^ 5) with (/ w ^ 5) by (unfold Rdiv; ring).
    reflexivity. }
  change (leb (fin w) (fin wp)) with (if Rle_dec w wp then true else false).
  destruct (Rle_dec w wp); apply Hsig; lra.
Qed.

Lemma jonswap_pos (alpha Tp gamma g w : R) :
  0 < alpha -> 0 < g -> 0 < w -> 0 < jonswap alpha Tp gamma g w.
Proof.
  intros Ha Hg Hw. unfold jonswap.
  assert (H1 : 0 < g ^ 2) by (apply pow_lt; exact Hg).
  assert (H2 : 0 < / w ^ 5) by (apply Rinv_0_lt_compat, pow_lt; exact Hw).
  assert (H3 : 0 < Rpower gamma
                     (Rtrigo_def.exp
                        (- (w - 2 * PI / Tp) ^ 2
                         / (2 * (if Rle_dec w (2 * PI / Tp) then 0.07 else 0.09) ^ 2
                            * (2 * PI / Tp) ^ 2))))
    by (unfold Rpower; apply exp_pos).
  pose proof (exp_pos (- 1.25 * (2 * PI / Tp / w) ^ 4)) as H4.
  cbv zeta.
  apply Rmult_lt_0_compat; [|exact H3].
  apply Rmult_lt_0_compat; [|exact H4].
  apply Rmult_lt_0_compat; [|exact H2].
  apply Rmult_lt_0_compat; [exact Ha|exact H1].
Qed.

Lemma computeSpectrum_jonswap (alpha Tp : R) :
  0 < Tp ->
  computeSpectrumWithAlpha (map fin grid) (fin alpha) (fin Tp) (fin 3.3) (fin 9.81)
  = map fin (map (jonswap alpha Tp 3.3 9.81) grid).
Proof.
  intro HTp. unfold computeSpectrumWithAlpha. rewrite !map_map.
  apply map_ext_in. intros w Hw.
  apply spectralDensity_jonswap; [exact HTp | lra | now apply grid_In_pos].
Qed.

(** *** The integral *)

Lemma trapezoidal_upto (xs ys : list R) (m : nat) :
  List.length ys = List.length xs ->
  (m < List.length xs)%nat ->
  fold_left
    (fun integral i =>
       let dx := (at_index (map fin xs) i - at_index (map fin xs) (i - 1))%js in
       (integral
        + fin 0.5 * (at_index (map fin ys) (i - 1) + at_index (map fin ys) i) * dx)%js)
    (map Z.of_nat (seq 1 m)) (fin 0)
  = fin (trapezoid_upto xs ys m).
Proof.
  intros Hlen. induction m as [|m IH]; intro Hm; [reflexivity|].
  rewrite seq_S, map_app, fold_left_app, IH by lia.
  cbn [map fold_left Nat.add].
  rewrite !at_index_fin, !at_index_pred_fin by lia.
  unfold fin. cbn [add sub mul lift2 trapezoid_upto]. f_equal. lra.
Qed.

Lemma trapezoidalIntegration_fin (xs ys : list R) :
  List.length ys = List.length xs ->
  trapezoidalIntegration (map fin xs) (map fin ys) = fin (trapezoid xs ys).
Proof.
  intro Hlen. unfold trapezoidalIntegration, loop_from_1, trapezoid.
  rewrite length_map.
  destruct xs as [|x xs]; [reflexivity|].
  apply trapezoidal_upto; [exact Hlen | cbn; lia].
Qed.

Lemma trapezoid_upto_pos (xs ys : list R) (m : nat) :
  (forall i, (S i <= m)%nat -> nth i xs 0 < nth (S i) xs 0) ->
  (forall i, (i <= m)%nat -> 0 < nth i ys 0) ->
  0 <= trapezoid_upto xs ys m /\ ((1 <= m)%nat -> 0 < trapezoid_upto xs ys m).
Proof.
  induction m as [|m IH]; intros Hx Hy.
  - cbn. split; [lra | lia].
  - destruct IH as [IH0 _]; [intros; apply Hx; lia | intros; apply Hy; lia |].
    cbn [trapezoid_upto].
    pose proof (Hx m ltac:(lia)) as Hdx.
    pose proof (Hy m ltac:(lia)) as Hy0.
    pose proof (Hy (S m) ltac:(lia)) as Hy1.
    assert (0 < (nth (S m) ys 0 + nth m ys 0) / 2 * (nth (S m) xs 0 - nth m xs 0)).
    { apply Rmult_lt_0_compat; lra. }
    split; [lra | intros _; lra].
Qed.

Lemma moment0_integral (alpha Tp : R) :
  0 < Tp ->
  trapezoidalIntegration omega_grid
    (computeSpectrumWithAlpha omega_grid (fin alpha) (fin Tp) (fin 3.3) (fin 9.81))
  = fin (moment0 alpha Tp).
Proof.
  intro HTp. rewrite omega_grid_is_grid, computeSpectrum_jonswap by exact HTp.
  apply trapezoidalIntegration_fin. now rewrite length_map.
Qed.

Lemma moment0_pos (alpha Tp : R) : 0 < alpha -> 0 < moment0 alpha Tp.
Proof.
  intro Ha. unfold moment0, trapezoid. rewrite grid_length.
  apply trapezoid_upto_pos; [| |lia].
  - intros i Hi. apply grid_step. lia.
  - intros i Hi.
    rewrite (nth_indep _ 0 (jonswap alpha Tp 3.3 9.81 0))
      by (rewrite length_map, grid_length; lia).
    rewrite (map_nth (jonswap alpha Tp 3.3 9.81)).
    apply jonswap_pos; [exact Ha | lra | apply grid_pos; lia].
Qed.

Lemma estimatedHs_pos (alpha Tp : R) : 0 < alpha -> 0 < estimatedHs alpha Tp.
Proof.
  intro Ha. unfold estimatedHs.
  pose proof (sqrt_lt_R0 _ (moment0_pos alpha Tp Ha)). lra.
Qed.

(** *** The calibration loop *)

(** One turn of the loop on a positive [alpha]: the test, then the update. *)
Lemma alpha_loop_step (Hs Tp alpha : R) (n : nat) :
  0 < Tp -> 0 < alpha ->
  alpha_loop omega_grid (fin Hs) (fin Tp) (fin 3.3) (fin 9.81) (S n) (fin alpha)
  = if Rlt_dec (Rabs (Hs / estimatedHs alpha Tp - 1)) 1e-3
    then fin alpha
    else alpha_loop omega_grid (fin Hs) (fin Tp) (fin 3.3) (fin 9.81) n
           (fin (update_alpha Hs Tp alpha)).
Proof.
  intros HTp Ha. cbn [alpha_loop].
  rewrite moment0_integral by exact HTp.
  pose proof (moment0_pos alpha Tp Ha) as Hm.
  pose proof (estimatedHs_pos alpha Tp Ha) as He.
  rewrite sqrt_fin by lra.
  change (fin 4 * fin (R_sqrt.sqrt (moment0 alpha Tp)))%js
    with (fin (estimatedHs alpha Tp)).
  rewrite div_fin by lra.
  change (abs (fin (Hs / estimatedHs alpha Tp) - fin 1)%js <? tolerance)%js
    with (if Rlt_dec (Rabs (Hs / estimatedHs alpha Tp - 1)) 1e-3
          then true else false).
  destruct (Rlt_dec (Rabs (Hs / estimatedHs alpha Tp - 1)) 1e-3); reflexivity.
Qed.

Lemma update_alpha_pos (Hs Tp alpha : R) :
  0 < Hs -> 0 < alpha -> 0 < update_alpha Hs Tp alpha.
Proof.
  intros HHs Ha. unfold update_alpha.
  apply Rmult_lt_0_compat; [exact Ha|].
  apply Rdiv_lt_0_compat; [exact HHs | now apply estimatedHs_pos].
Qed.

(** The loop returns a positive [alpha]: the iterate number [k] of the update,
    where [k] is the first turn whose test passes, or the number of turns
    when no test passes. *)
Lemma alpha_loop_result (Hs Tp : R) :
  0 < Hs -> 0 < Tp ->
  forall (n : nat) (alpha : R),
    0 < alpha ->
    exists (alpha' : R) (k : nat),
      0 < alpha' /\
      alpha_loop omega_grid (fin Hs) (fin Tp) (fin 3.3) (fin 9.81) n (fin alpha)
      = fin alpha' /\
      (k <= n)%nat /\
      alpha' = Nat.iter k (update_alpha Hs Tp) alpha /\
      (forall j, (j < k)%nat ->
         ~ within_tolerance Hs Tp (Nat.iter j (update_alpha Hs Tp) alpha)) /\
      ((k < n)%nat -> within_tolerance Hs Tp alpha').
Proof.
  intros HHs HTp. induction n as [|n IH]; intros alpha Ha.
  - exists alpha, 0%nat. split; [exact Ha|]. split; [reflexivity|].
    split; [lia|]. split; [reflexivity|]. split; intros; lia.
  - rewrite alpha_loop_step by assumption.
    destruct (Rlt_dec (Rabs (Hs / estimatedHs alpha Tp - 1)) 1e-3) as [Hc|Hc].
    + exists alpha, 0%nat. split; [exact Ha|]. split; [reflexivity|].
      split; [lia|]. split; [reflexivity|]. split; [intros; lia|].
      intros _. exact Hc.
    + destruct (IH (update_alpha Hs Tp alpha) (update_alpha_pos Hs Tp alpha HHs Ha))
        as [a' [k [Hpos [Heq [Hk [Hit [Hnone Hpass]]]]]]].
      exists a', (S k). split; [exact Hpos|]. split; [exact Heq|].
      split; [lia|]. split; [now rewrite Nat.iter_succ_r|]. split.
      * intros j Hj. destruct j as [|j]; [exact Hc|].
        rewrite Nat.iter_succ_r. apply Hnone. lia.
      * intro H. apply Hpass. lia.
Qed.

(** *** How the ratio evolves

    The density is linear in alpha, so the estimate grows like its square
    root, and each update replaces the ratio of the target to the estimate
    by its square root. *)

Lemma jonswap_scale (alpha c Tp gamma g w : R) :
  jonswap (alpha * c) Tp gamma g w = c * jonswap alpha Tp gamma g w.
Proof. unfold jonswap. cbv zeta. ring. Qed.

Lemma trapezoid_upto_scale (c : R) (xs ys ys' : list R) (m : nat) :
  (forall i, (i <= m)%nat -> nth i ys' 0 = c * nth i ys 0) ->
  trapezoid_upto xs ys' m = c * trapezoid_upto xs ys m.
Proof.
  induction m as [|m IH]; intro H; cbn [trapezoid_upto]; [ring|].
  rewrite IH by (intros; apply H; lia).
  rewrite (H (S m)), (H m) by lia. lra.
Qed.

Lemma spectrum_nth (alpha Tp : R) (i : nat) :
  (i < 600)%nat ->
  nth i (map (jonswap alpha Tp 3.3 9.81) grid) 0
  = jonswap alpha Tp 3.3 9.81 (nth i grid 0).
Proof.
  intro Hi.
  rewrite (nth_indep _ 0 (jonswap alpha Tp 3.3 9.81 0))
    by (rewrite length_map, grid_length; lia).
  apply (map_nth (jonswap alpha Tp 3.3 9.81)).
Qed.

Lemma moment0_scale (alpha c Tp : R) :
  moment0 (alpha * c) Tp = c * moment0 alpha Tp.
Proof.
  unfold moment0, trapezoid. rewrite grid_length.
  apply trapezoid_upto_scale. intros i Hi.
  rewrite !spectrum_nth by lia. apply jonswap_scale.
Qed.

Lemma estimatedHs_scale (alpha c Tp : R) :
  0 < alpha -> 0 <= c ->
  estimatedHs (alpha * c) Tp = R_sqrt.sqrt c * estimatedHs alpha Tp.
Proof.
  intros Ha Hc. unfold estimatedHs. rewrite moment0_scale.
  rewrite sqrt_mult; [ring | exact Hc |].
  pose proof (moment0_pos alpha Tp Ha). lra.
Qed.

Lemma ratio_after_update (Hs Tp alpha : R) :
  0 < Hs -> 0 < alpha ->
  Hs / estimatedHs (update_alpha Hs Tp alpha) Tp
  = R_sqrt.sqrt (Hs / estimatedHs alpha Tp).
Proof.
  intros HHs Ha.
  pose proof (estimatedHs_pos alpha Tp Ha) as He.
  assert (Hr : 0 < Hs / estimatedHs alpha Tp) by (apply Rdiv_lt_0_compat; assumption).
  unfold update_alpha. rewrite estimatedHs_scale by lra.
  set (e := estimatedHs alpha Tp) in *.
  set (r := Hs / e) in *.
  pose proof (sqrt_lt_R0 r Hr) as Hs0.
  pose proof (sqrt_sqrt r ltac:(lra)) as Hsq.
  assert (HHs_eq : Hs = r * e) by (unfold r; field; lra).
  rewrite HHs_eq at 1. rewrite <- Hsq at 1. field. split; lra.
Qed.

Lemma repeated_square_pos (n : nat) (x : R) : 0 < x -> 0 < repeated_square n x.
Proof.
  intro Hx. induction n as [|n IH]; cbn [repeated_square]; [exact Hx|].
  now apply Rmult_lt_0_compat.
Qed.

Lemma repeated_square_le (n : nat) (x y : R) :
  0 < x -> x <= y -> repeated_square n x <= repeated_square n y.
Proof.
  intros Hx Hxy. induction n as [|n IH]; cbn [repeated_square]; [exact Hxy|].
  pose proof (repeated_square_pos n x Hx). nra.
Qed.

Lemma sqrt_repeated_square (n : nat) (x : R) :
  0 < x -> R_sqrt.sqrt (repeated_square (S n) x) = repeated_square n x.
Proof.
  intro Hx. cbn [repeated_square]. apply sqrt_square.
  pose proof (repeated_square_pos n x Hx). lra.
Qed.

Lemma repeated_square_mult (n : nat) (x y : R) :
  repeated_square n (x * y) = repeated_square n x * repeated_square n y.
Proof.
  induction n as [|n IH]; cbn [repeated_square]; [reflexivity|].
  rewrite IH. ring.
Qed.

Lemma repeated_square_1 (n : nat) : repeated_square n 1 = 1.
Proof.
  induction n as [|n IH]; cbn [repeated_square]; [reflexivity|].
  rewrite IH. ring.
Qed.

(** Bernoulli: squaring [n] times over takes [1 + e] above [1 + 2^n e]. *)
Lemma repeated_square_bernoulli (n : nat) (e : R) :
  0 <= e -> 1 + 2 ^ n * e <= repeated_square n (1 + e).
Proof.
  intro He. induction n as [|n IH]; cbn [repeated_square Rpow_def.pow]; [lra|].
  assert (0 <= 2 ^ n * e).
  { apply Rmult_le_pos; [apply pow_le; lra | exact He]. }
  nra.
Qed.

Lemma ratio_stays_between (Hs Tp lo hi : R) (n : nat) (alpha : R) :
  0 < Hs -> 0 < lo -> 0 < hi -> 0 < alpha ->
  repeated_square n lo <= Hs / estimatedHs alpha Tp ->
  Hs / estimatedHs alpha Tp <= repeated_square n hi ->
  forall k, (k <= n)%nat ->
    0 < Nat.iter k (update_alpha Hs Tp) alpha /\
    repeated_square (n - k) lo
    <= Hs / estimatedHs (Nat.iter k (update_alpha Hs Tp) alpha) Tp /\
    Hs / estimatedHs (Nat.iter k (update_alpha Hs Tp) alpha) Tp
    <= repeated_square (n - k) hi.
Proof.
  intros HHs Hlo Hhi Ha H0 H1. induction k as [|k IH]; intro Hk.
  - rewrite Nat.sub_0_r. cbn [Nat.iter nat_rect]. auto.
  - destruct (IH ltac:(lia)) as [Hpos [Hr Hr']].
    change (Nat.iter (S k) (update_alpha Hs Tp) alpha)
      with (update_alpha Hs Tp (Nat.iter k (update_alpha Hs Tp) alpha)).
    split; [now apply update_alpha_pos|].
    rewrite ratio_after_update by assumption.
    replace (n - k)%nat with (S (n - S k)) in Hr, Hr' by lia.
    rewrite <- (sqrt_repeated_square (n - S k) lo) by lra.
    rewrite <- (sqrt_repeated_square (n - S k) hi) by lra.
    split; now apply sqrt_le_1_alt.
Qed.

(** Forty-nine square roots bring a ratio between 1e-11 and 1e11 within
    0.0005 of 1, so the loop stops on its test before its fiftieth turn. *)
Lemma loop_stops (Hs Tp : R) :
  0 < Hs -> 0 < Tp ->
  1e-11 <= Hs / estimatedHs 0.0081 Tp ->
  Hs / estimatedHs 0.0081 Tp <= 1e11 ->
  exists (alpha : R) (k : nat),
    0 < alpha /\
    alpha_loop omega_grid (fin Hs) (fin Tp) (fin 3.3) (fin 9.81) 50 (fin 0.0081)
    = fin alpha /\
    (k < 50)%nat /\
    alpha = Nat.iter k (update_alpha Hs Tp) 0.0081 /\
    (forall j, (j < k)%nat ->
       ~ within_tolerance Hs Tp (Nat.iter j (update_alpha Hs Tp) 0.0081)) /\
    within_tolerance Hs Tp alpha.
Proof.
  intros HHs HTp Hlow Hhigh.
  assert (Hbig : 1e11 <= repeated_square 49 1.0005).
  { pose proof (repeated_square_bernoulli 49 0.0005 ltac:(lra)) as B.
    replace (1 + 0.0005) with 1.0005 in B by lra. lra. }
  assert (Hsmall : repeated_square 49 0.9995 <= 1e-11).
  { pose proof (repeated_square_bernoulli 49 0.0005 ltac:(lra)) as B.
    replace (1 + 0.0005) with 1.0005 in B by lra.
    pose proof (repeated_square_mult 49 0.9995 1.0005) as M.
    assert (Hle : repeated_square 49 (0.9995 * 1.0005) <= 1).
    { rewrite <- (repeated_square_1 49).
      apply repeated_square_le; lra. }
    rewrite M in Hle.
    pose proof (repeated_square_pos 49 0.9995 ltac:(lra)) as P.
    assert (Hx : repeated_square 49 0.9995 * 1e11 <= 1) by nra.
    lra. }
  pose proof (ratio_stays_between Hs Tp 0.9995 1.0005 49 0.0081
                HHs ltac:(lra) ltac:(lra) ltac:(lra)
                ltac:(lra) ltac:(lra) 49%nat ltac:(lia)) as [_ [L49 U49]].
  rewrite Nat.sub_diag in L49, U49. cbn [repeated_square] in L49, U49.
  destruct (alpha_loop_result Hs Tp HHs HTp 50 0.0081 ltac:(lra))
    as [alpha [k [Hpos [Heq [Hk [Hit [Hnone Hpass]]]]]]].
  assert (Hlt : (k < 50)%nat).
  { destruct (Nat.eq_dec k 50) as [E|E]; [|lia]. subst k. exfalso.
    apply (Hnone 49%nat ltac:(lia)). unfold within_tolerance.
    apply Rabs_def1; lra. }
  exists alpha, k. split; [exact Hpos|]. split; [exact Heq|].
  split; [exact Hlt|]. split; [exact Hit|]. split; [exact Hnone|].
  exact (Hpass Hlt).
Qed.

(** *** Bounds on the first estimate

    For a peak period of one second or more the peak is at most at 8 rad/s,
    so the density of the initial alpha at the last point of the grid,
    6 rad/s, is not tiny; and no density over the grid is huge.  The
    estimate made with the initial alpha is then between 1e-4 and 1e7. *)

Lemma exp_le (x y : R) : x <= y -> Rtrigo_def.exp x <= Rtrigo_def.exp y.
Proof.
  intros [H| ->]; [left; now apply exp_increasing | right; reflexivity].
Qed.

Lemma trapezoid_upto_le (Y : R) (xs ys : list R) (m : nat) :
  (forall i, (S i <= m)%nat -> nth i xs 0 <= nth (S i) xs 0) ->
  (forall i, (i <= m)%nat -> nth i ys 0 <= Y) ->
  trapezoid_upto xs ys m <= Y * (nth m xs 0 - nth 0 xs 0).
Proof.
  induction m as [|m IH]; intros Hx Hy; cbn [trapezoid_upto]; [lra|].
  specialize (IH ltac:(intros; apply Hx; lia) ltac:(intros; apply Hy; lia)).
  pose proof (Hx m ltac:(lia)). pose proof (Hy m ltac:(lia)).
  pose proof (Hy (S m) ltac:(lia)). nra.
Qed.

Lemma PI_gt_3 : 3 < PI.
Proof. pose proof PI2_3_2. lra. Qed.

(** The exponent of the peak enhancement is between 0 and 1, so the
    enhancement is between 1 and gamma. *)
Lemma enhancement_bounds (x : R) :
  x <= 0 -> 1 <= Rpower 3.3 (Rtrigo_def.exp x) <= 3.3.
Proof.
  intro Hx. unfold Rpower.
  assert (Hln : 0 < ln 3.3).
  { rewrite <- ln_1. apply ln_increasing; lra. }
  pose proof (exp_pos x) as Hr.
  assert (Hr1 : Rtrigo_def.exp x <= 1) by (rewrite <- exp_0; now apply exp_le).
  split.
  - rewrite <- exp_0 at 1. apply exp_le. nra.
  - rewrite <- (exp_ln 3.3) at 2 by lra. apply exp_le. nra.
Qed.

Lemma enhancement_exponent (Tp w : R) :
  0 < Tp ->
  - (w - 2 * PI / Tp) ^ 2
  / (2 * (if Rle_dec w (2 * PI / Tp) then 0.07 else 0.09) ^ 2 * (2 * PI / Tp) ^ 2)
  <= 0.
Proof.
  intro HTp. pose proof (peak_pos Tp HTp) as Hwp.
  set (wp := 2 * PI / Tp) in *.
  set (sigma := if Rle_dec w wp then 0.07 else 0.09).
  assert (Hsigma : 0 < sigma) by (unfold sigma; destruct (Rle_dec w wp); lra).
  assert (HD : 0 < 2 * sigma ^ 2 * wp ^ 2).
  { assert (0 < sigma ^ 2) by (apply pow_lt; exact Hsigma).
    assert (0 < wp ^ 2) by (apply pow_lt; lra). nra. }
  assert (HN : - (w - wp) ^ 2 <= 0).
  { pose proof (pow2_ge_0 (w - wp)). lra. }
  pose proof (Rinv_0_lt_compat _ HD). unfold Rdiv. nra.
Qed.

Lemma grid_bounds (i : nat) :
  (i < 600)%nat -> 0.01 <= nth i grid 0 /\ nth i grid 0 <= 6.
Proof.
  intro Hi. rewrite grid_nth by exact Hi.
  assert (H1 : 1 <= INR (S i)).
  { replace 1 with (INR 1) by reflexivity. apply le_INR. lia. }
  assert (H2 : INR (S i) <= 600).
  { replace 600 with (INR 600) by (rewrite INR_IZR_INZ; reflexivity).
    apply le_INR. lia. }
  split; lra.
Qed.

(** No density of the initial alpha over the grid exceeds 2.6e10. *)
Lemma jonswap_upper (Tp w : R) :
  0 < Tp -> 0.01 <= w ->
  jonswap 0.0081 Tp 3.3 9.81 w <= 2.6e10.
Proof.
  intros HTp Hlo. unfold jonswap. cbv zeta.
  pose proof (enhancement_bounds _ (enhancement_exponent Tp w HTp)) as [Hp1 Hp2].
  set (p := Rpower 3.3 _) in *.
  assert (Hinv : / w ^ 5 <= 1e10).
  { assert (H5 : 0.01 ^ 5 <= w ^ 5) by (apply pow_incr; lra).
    assert (H0 : 0 < 0.01 ^ 5) by (apply pow_lt; lra).
    apply Rle_trans with (/ 0.01 ^ 5).
    - apply Rinv_le_contravar; assumption.
    - right. apply Rmult_eq_reg_l with (0.01 ^ 5); [|lra].
      rewrite Rinv_r by lra. lra. }
  assert (Hinv0 : 0 < / w ^ 5) by (apply Rinv_0_lt_compat, pow_lt; lra).
  assert (Hexp : Rtrigo_def.exp (- 1.25 * (2 * PI / Tp / w) ^ 4) <= 1).
  { rewrite <- exp_0. apply exp_le.
    assert (0 <= (2 * PI / Tp / w) ^ 4).
    { replace 4%nat with (2 * 2)%nat by reflexivity. rewrite pow_mult.
      apply pow2_ge_0. }
    lra. }
  pose proof (exp_pos (- 1.25 * (2 * PI / Tp / w) ^ 4)) as He0.
  set (e1 := Rtrigo_def.exp (_ * (2 * PI / Tp / w) ^ 4)) in *.
  set (v := / w ^ 5) in *.
  assert (H1 : 0.0081 * 9.81 ^ 2 * v <= 7.8e9) by nra.
  assert (H1' : 0 < 0.0081 * 9.81 ^ 2 * v) by nra.
  assert (H2 : 0.0081 * 9.81 ^ 2 * v * e1 <= 7.8e9) by nra.
  assert (H2' : 0 < 0.0081 * 9.81 ^ 2 * v * e1) by nra.
  nra.
Qed.

Lemma exp_4_le : Rtrigo_def.exp 4 <= 81.
Proof.
  pose proof exp_le_3 as H3. pose proof (exp_pos 1) as H0.
  replace 4 with (1 + 1 + (1 + 1)) by lra. rewrite !exp_plus.
  set (e := Rtrigo_def.exp 1) in *.
  assert (e * e <= 9) by nra. assert (0 < e * e) by nra. nra.
Qed.

(** For a peak period of one second or more, the density of the initial
    alpha at 6 rad/s is at least 1.2e-6. *)
Lemma jonswap_at_6 (Tp : R) :
  1 <= Tp -> 1.2e-6 <= jonswap 0.0081 Tp 3.3 9.81 6.
Proof.
  intro HTp. unfold jonswap. cbv zeta.
  pose proof (enhancement_bounds _ (enhancement_exponent Tp 6 ltac:(lra)))
    as [Hp1 Hp2].
  set (p := Rpower 3.3 _) in *.
  pose proof (peak_pos Tp ltac:(lra)) as Hwp.
  assert (Hwp8 : 2 * PI / Tp <= 8).
  { pose proof PI_4. apply Rmult_le_reg_r with Tp; [lra|].
    unfold Rdiv. rewrite Rmult_assoc, Rinv_l by lra. nra. }
  set (wp := 2 * PI / Tp) in *.
  assert (Hq : 0 < wp / 6 <= 4 / 3) by (split; lra).
  assert (Hq4 : (wp / 6) ^ 4 <= (4 / 3) ^ 4) by (apply pow_incr; lra).
  assert (Hexp : Rtrigo_def.exp (- 4) <= Rtrigo_def.exp (- 1.25 * (wp / 6) ^ 4)).
  { apply exp_le. lra. }
  assert (Hinv : / 81 <= Rtrigo_def.exp (- 4)).
  { pose proof exp_4_le as H4. pose proof (exp_pos 4) as H40.
    pose proof (exp_pos (- 4)) as Hm.
    assert (Hprod : Rtrigo_def.exp (- 4) * Rtrigo_def.exp 4 = 1).
    { rewrite <- exp_plus. replace (- 4 + 4) with 0 by lra. apply exp_0. }
    apply Rmult_le_reg_r with 81; [lra|]. rewrite Rinv_l by lra. nra. }
  set (e1 := Rtrigo_def.exp (- 1.25 * (wp / 6) ^ 4)) in *.
  assert (He1 : / 81 <= e1) by lra.
  assert (Hc : 1.2e-6 <= 0.0081 * 9.81 ^ 2 * / 6 ^ 5 * / 81) by lra.
  assert (Hc0 : 0 < 0.0081 * 9.81 ^ 2 * / 6 ^ 5) by lra.
  assert (H1 : 1.2e-6 <= 0.0081 * 9.81 ^ 2 * / 6 ^ 5 * e1) by nra.
  nra.
Qed.

Lemma trapezoid_upto_last (xs ys : list R) (m : nat) :
  trapezoid_upto xs ys (S m)
  = trapezoid_upto xs ys m
    + (nth (S m) ys 0 + nth m ys 0) / 2 * (nth (S m) xs 0 - nth m xs 0).
Proof. reflexivity. Qed.

Lemma moment0_initial_bounds (Tp : R) :
  1 <= Tp -> 6e-9 <= moment0 0.0081 Tp <= 1.6e11.
Proof.
  intro HTp. unfold moment0, trapezoid. rewrite grid_length. split.
  - replace (600 - 1)%nat with (S 598) by reflexivity.
    rewrite trapezoid_upto_last.
    destruct (trapezoid_upto_pos grid (map (jonswap 0.0081 Tp 3.3 9.81) grid) 598)
      as [H0 _].
    + intros i Hi. apply grid_step. lia.
    + intros i Hi. rewrite spectrum_nth by lia.
      apply jonswap_pos; [lra | lra | apply grid_pos; lia].
    + rewrite !spectrum_nth by lia. rewrite !grid_nth by lia.
      replace (INR 600) with 600 by (rewrite INR_IZR_INZ; reflexivity).
      replace (INR 599) with 599 by (rewrite INR_IZR_INZ; reflexivity).
      replace (0.01 * 600) with 6 by lra.
      pose proof (jonswap_at_6 Tp HTp) as H6.
      pose proof (jonswap_pos 0.0081 Tp 3.3 9.81 (0.01 * 599)
                    ltac:(lra) ltac:(lra) ltac:(lra)) as H5.
      nra.
  - apply Rle_trans with (2.6e10 * (nth (600 - 1) grid 0 - nth 0 grid 0)).
    + apply trapezoid_upto_le.
      * intros i Hi. left. apply grid_step. lia.
      * intros i Hi. rewrite spectrum_nth by lia.
        destruct (grid_bounds i ltac:(lia)).
        apply jonswap_upper; [lra | assumption].
    + rewrite !grid_nth by lia.
      replace (INR (S (600 - 1))) with 600 by (rewrite INR_IZR_INZ; reflexivity).
      replace (INR 1) with 1 by reflexivity. lra.
Qed.

Lemma estimatedHs_initial_bounds (Tp : R) :
  1 <= Tp -> 1e-4 <= estimatedHs 0.0081 Tp <= 1e7.
Proof.
  intro HTp. unfold estimatedHs.
  destruct (moment0_initial_bounds Tp HTp) as [Hlo Hhi].
  set (m := moment0 0.0081 Tp) in *.
  assert (H1 : 2.5e-5 <= R_sqrt.sqrt m).
  { rewrite <- (sqrt_square 2.5e-5) by lra. apply sqrt_le_1_alt. lra. }
  assert (H2 : R_sqrt.sqrt m <= 4e5).
  { rewrite <- (sqrt_square 4e5) by lra. apply sqrt_le_1_alt. lra. }
  split; lra.
Qed.

(** In the range of wave heights from 0.01 to 100 the ratio of the target
    to the first estimate is between 1e-11 and 1e11. *)
Lemma first_ratio_bounds (Hs Tp : R) :
  0.01 <= Hs <= 100 -> 1 <= Tp ->
  1e-11 <= Hs / estimatedHs 0.0081 Tp <= 1e11.
Proof.
  intros [HHs1 HHs2] HTp.
  destruct (estimatedHs_initial_bounds Tp HTp) as [Hlo Hhi].
  set (e := estimatedHs 0.0081 Tp) in *.
  assert (He : 0 < / e) by (apply Rinv_0_lt_compat; lra).
  assert (H1 : / e <= 1e4).
  { apply Rmult_le_reg_r with e; [lra|]. rewrite Rinv_l by lra. lra. }
  assert (H2 : 1e-7 <= / e).
  { apply Rmult_le_reg_r with e; [lra|]. rewrite Rinv_l by lra. lra. }
  unfold Rdiv. split; nra.
Qed.

(** C1 as stated fails: with a target just below the first estimate the loop
    stops at its first test, which is on the ratio of the target to the
    estimate, and returns the initial alpha; the ratio of the estimate to the
    target, the one of the claim, is off by more than 1e-3. *)
Lemma calibration_counterexample :
  0 < Samples.Hs_near_estimate /\
  calculateAlphaIterative omega_grid (fin Samples.Hs_near_estimate) (fin 1)
    (fin 3.3) (fin 9.81) = fin 0.0081 /\
  trapezoidalIntegration omega_grid
    (computeSpectrumWithAlpha omega_grid (fin 0.0081) (fin 1) (fin 3.3) (fin 9.81))
  = fin (moment0 0.0081 1) /\
  ~ Rabs (4 * R_sqrt.sqrt (moment0 0.0081 1) / Samples.Hs_near_estimate - 1) < 1e-3.
Proof.
  assert (Ha : 0 < 0.0081) by lra.
  pose proof (estimatedHs_pos 0.0081 1 Ha) as He.
  unfold Samples.Hs_near_estimate.
  set (e := estimatedHs 0.0081 1) in *.
  assert (Hr : 0.9990005 * e / e = 0.9990005) by (field; lra).
  split; [nra|]. split; [|split].
  - unfold calculateAlphaIterative, maxIter.
    rewrite alpha_loop_step by lra. fold e. rewrite Hr.
    destruct (Rlt_dec (Rabs (0.9990005 - 1)) 1e-3) as [_|Hn]; [reflexivity|].
    exfalso. apply Hn. rewrite Rabs_left by lra. lra.
  - apply moment0_integral. lra.
  - change (4 * R_sqrt.sqrt (moment0 0.0081 1)) with e.
    assert (Hq : e / (0.9990005 * e) = / 0.9990005) by (field; lra).
    rewrite Hq.
    assert (Hinv : 1.001 < / 0.9990005).
    { apply Rmult_lt_reg_r with 0.9990005; [lra|].
      rewrite Rinv_l by lra. lra. }
    rewrite Rabs_right by lra. lra.
Qed.

(** C1, amended: for a target wave height from 0.01 to 100 and a peak period
    of one second or more, the calibration returns a positive alpha, and the
    zeroth moment [m0] of the spectrum built with it over the grid is the
    trapezoidal rule of the JONSWAP density, a positive number.  The loop
    stops on its test before its fiftieth turn: alpha is the iterate number
    [k < 50] of the update, [k] being the first turn at which the test
    passes, and the ratio of the target to [4 sqrt(m0)] is within 1e-3 of 1;
    the ratio of [4 sqrt(m0)] to the target is then within 1.0011e-3 of 1.
    The value returned is the number alpha alone. *)
Theorem calibration (Hs Tp : R) :
  0.01 <= Hs <= 100 -> 1 <= Tp ->
  exists (alpha : R) (k : nat),
    0 < alpha /\
    calculateAlphaIterative omega_grid (fin Hs) (fin Tp) (fin 3.3) (fin 9.81)
    = fin alpha /\
    trapezoidalIntegration omega_grid
      (map snd (calculateSpectrum (fin Hs) (fin Tp)))
    = fin (moment0 alpha Tp) /\
    0 < moment0 alpha Tp /\
    (k < 50)%nat /\
    alpha = Nat.iter k (update_alpha Hs Tp) 0.0081 /\
    (forall j, (j < k)%nat ->
       ~ within_tolerance Hs Tp (Nat.iter j (update_alpha Hs Tp) 0.0081)) /\
    Rabs (Hs / (4 * R_sqrt.sqrt (moment0 alpha Tp)) - 1) < 1e-3 /\
    Rabs (4 * R_sqrt.sqrt (moment0 alpha Tp) / Hs - 1) < 1.0011e-3.
Proof.
  intros HHs HTp.
  assert (HHs0 : 0 < Hs) by lra. assert (HTp0 : 0 < Tp) by lra.
  destruct (first_ratio_bounds Hs Tp HHs HTp) as [Hlow Hhigh].
  destruct (loop_stops Hs Tp HHs0 HTp0 Hlow Hhigh)
    as [alpha [k [Hpos [Heq [Hk [Hit [Hnone Hpass]]]]]]].
  exists alpha, k. split; [exact Hpos|]. split; [exact Heq|].
  split; [|split; [now apply moment0_pos|]].
  - unfold calculateSpectrum. rewrite map_map. cbn [snd].
    unfold calculateAlphaIterative, maxIter. rewrite Heq.
    apply (moment0_integral alpha Tp HTp0).
  - split; [exact Hk|]. split; [exact Hit|]. split; [exact Hnone|].
    split; [exact Hpass|].
    unfold within_tolerance, estimatedHs in Hpass.
    pose proof (estimatedHs_pos alpha Tp Hpos) as He. unfold estimatedHs in He.
    set (e := 4 * R_sqrt.sqrt (moment0 alpha Tp)) in *.
    apply Rabs_def2 in Hpass. destruct Hpass as [Hp1 Hp2].
    assert (Hie : 0 < / e) by now apply Rinv_0_lt_compat.
    assert (Hr : Hs = Hs / e * e) by (field; lra).
    set (r := Hs / e) in *.
    assert (Hq : e / Hs = / r).
    { rewrite Hr. field. split; lra. }
    rewrite Hq.
    assert (Hir : 0 < / r) by (apply Rinv_0_lt_compat; lra).
    assert (Hone : / r * r = 1) by (apply Rinv_l; lra).
    apply Rabs_def1; nra.
Qed.

(** The theorem for a wave height of 2 m and a peak period of 10 s. *)
Lemma calibration_witness :
  exists alpha,
    0 < alpha /\
    calculateAlphaIterative omega_grid (fin 2) (fin 10) (fin 3.3) (fin 9.81)
    = fin alpha /\
    Rabs (2 / (4 * R_sqrt.sqrt (moment0 alpha 10)) - 1) < 1e-3.
Proof.
  destruct (calibration 2 10 ltac:(lra) ltac:(lra))
    as [alpha [k [Hpos [Heq [_ [_ [_ [_ [_ [Hin _]]]]]]]]]].
  exists alpha. split; [exact Hpos|]. split; [exact Heq | exact Hin].
Defined.

End SpectrumProofs.

(** * Further properties

    ** Heading and speed selection *)

Module SelectionProofs.
Import JsQ JsQFacts RAOVisualizer Views.
Local Open Scope Q_scope.

(** *** The folding of headings *)

Lemma unwrapHeading_turn (h : Q) : unwrapHeading h = reflect (turn h).
Proof. reflexivity. Qed.

Lemma turn_multiple (h : Q) : exists k : Z, turn h == h - 360 * inject_Z k.
Proof.
  unfold turn, js_rem.
  exists (Qtrunc (h / 360)
          + Qtrunc ((h - 360 * inject_Z (Qtrunc (h / 360)) + 360) / 360) - 1)%Z.
  unfold Zminus. rewrite !inject_Z_plus.
  change (inject_Z (- (1))) with (- (1)). ring.
Qed.

Lemma turn_range (h : Q) : 0 <= turn h /\ turn h < 360.
Proof. apply HeadingProofs.normalize360_range. Qed.

(** An integer strictly between -1 and 2 is 0 or 1. *)
Lemma small_integer (k : Z) :
  -360 < 360 * inject_Z k -> 360 * inject_Z k < 720 -> k = 0%Z \/ k = 1%Z.
Proof.
  intros Hlo Hhi.
  assert (A : (-1 < k)%Z).
  { rewrite Zlt_Qlt. change (inject_Z (-1)) with (-1). lra. }
  assert (B : (k < 2)%Z).
  { rewrite Zlt_Qlt. change (inject_Z 2) with 2. lra. }
  lia.
Qed.

(** Two values in [[0, 360)] that differ by whole turns are equal. *)
Lemma same_turn (a b : Q) (k : Z) :
  0 <= a -> a < 360 -> 0 <= b -> b < 360 ->
  a == b + 360 * inject_Z k -> a == b.
Proof.
  intros A0 A1 B0 B1 E.
  destruct (small_integer k) as [->| ->]; [lra | lra | |].
  - rewrite E. change (inject_Z 0) with 0. ring.
  - change (inject_Z 1) with 1 in E. lra.
Qed.

Lemma turn_periodic (h : Q) (j : Z) : turn (h + 360 * inject_Z j) == turn h.
Proof.
  destruct (turn_multiple (h + 360 * inject_Z j)) as [k1 E1].
  destruct (turn_multiple h) as [k2 E2].
  destruct (turn_range (h + 360 * inject_Z j)) as [A0 A1].
  destruct (turn_range h) as [B0 B1].
  apply (same_turn _ _ (j - k1 + k2)); try assumption.
  rewrite E1, E2. unfold Zminus. rewrite !inject_Z_plus, inject_Z_opp. ring.
Qed.

(** The turns of a heading and of its opposite add up to 0 or to 360. *)
Lemma turn_opposite (h : Q) :
  turn (- h) + turn h == 0 \/ turn (- h) + turn h == 360.
Proof.
  destruct (turn_multiple (- h)) as [k1 E1].
  destruct (turn_multiple h) as [k2 E2].
  destruct (turn_range (- h)) as [A0 A1].
  destruct (turn_range h) as [B0 B1].
  assert (E : turn (- h) + turn h == 360 * inject_Z (- k1 + - k2)).
  { rewrite E1, E2, inject_Z_plus, !inject_Z_opp. ring. }
  destruct (small_integer (- k1 + - k2)) as [K|K]; [lra | lra | |];
    rewrite K in E.
  - left. rewrite E. change (inject_Z 0) with 0. ring.
  - right. rewrite E. change (inject_Z 1) with 1. ring.
Qed.

Lemma reflect_Qeq (a b : Q) : a == b -> reflect a == reflect b.
Proof.
  intro E. unfold reflect, Qgtb.
  destruct (Qltb 180 a) eqn:A; destruct (Qltb 180 b) eqn:B;
    try apply Qltb_true in A; try apply Qltb_false in A;
    try apply Qltb_true in B; try apply Qltb_false in B;
    first [lra | now rewrite E].
Qed.

Lemma reflect_opposite (a b : Q) :
  0 <= a -> a < 360 -> 0 <= b -> b < 360 ->
  a + b == 0 \/ a + b == 360 -> reflect a == reflect b.
Proof.
  intros A0 A1 B0 B1 [E|E].
  - apply reflect_Qeq. lra.
  - unfold reflect, Qgtb.
    destruct (Qltb 180 a) eqn:A; destruct (Qltb 180 b) eqn:B;
      try apply Qltb_true in A; try apply Qltb_false in A;
      try apply Qltb_true in B; try apply Qltb_false in B;
      try lra.
    + rewrite Qabs_pos by lra. lra.
    + rewrite Qabs_pos by lra. lra.
Qed.

(** *** Selection by [reduce] *)

Lemma Qltb_Qeq (a a' b b' : Q) : a == a' -> b == b' -> Qltb a b = Qltb a' b'.
Proof.
  intros Ea Eb.
  destruct (Qltb a b) eqn:L; destruct (Qltb a' b') eqn:L'; try reflexivity;
    try apply Qltb_true in L; try apply Qltb_false in L;
    try apply Qltb_true in L'; try apply Qltb_false in L'; lra.
Qed.

Lemma nearest_Qeq (u u' : Q) (rest : list Q) :
  u == u' ->
  forall first, fold_left (nearer u) rest first = fold_left (nearer u') rest first.
Proof.
  intro E. induction rest as [|x rest IH]; intro first; [reflexivity|].
  cbn [fold_left]. unfold nearer at 2 4.
  rewrite (Qltb_Qeq (Qabs (x - u)) (Qabs (x - u'))
             (Qabs (first - u)) (Qabs (first - u')))
    by (now rewrite E).
  apply IH.
Qed.

Lemma findNearestHeading_Qeq (h h' : Q) :
  unwrapHeading h == unwrapHeading h' ->
  findNearestHeading h = findNearestHeading h'.
Proof. intro E. unfold findNearestHeading, reduce1. now apply nearest_Qeq. Qed.

(** X1: for headings of a whole number of degrees, on which the arithmetic
    of the code is exact: headings that differ by whole turns, or by their
    sign, fold to the same value and select the same bucket; folding twice
    changes nothing. *)
Theorem heading_symmetry (z j : Z) :
  let h := inject_Z z in
  unwrapHeading (h + 360 * inject_Z j) == unwrapHeading h /\
  unwrapHeading (- h) == unwrapHeading h /\
  unwrapHeading (unwrapHeading h) == unwrapHeading h /\
  findNearestHeading (h + 360 * inject_Z j) = findNearestHeading h /\
  findNearestHeading (- h) = findNearestHeading h /\
  findNearestHeading (unwrapHeading h) = findNearestHeading h.
Proof.
  intro h.
  assert (P : unwrapHeading (h + 360 * inject_Z j) == unwrapHeading h).
  { rewrite !unwrapHeading_turn. apply reflect_Qeq, turn_periodic. }
  assert (O : unwrapHeading (- h) == unwrapHeading h).
  { rewrite !unwrapHeading_turn.
    destruct (turn_range (- h)), (turn_range h).
    apply reflect_opposite; try assumption. apply turn_opposite. }
  assert (I : unwrapHeading (unwrapHeading h) == unwrapHeading h).
  { destruct (HeadingProofs.unwrapHeading_range h).
    now apply HeadingProofs.unwrapHeading_low. }
  repeat split; try assumption; now apply findNearestHeading_Qeq.
Qed.

(** *** Which of the nearest is selected *)

Section FirstNearest.
Context {A : Type} (d : A -> Q).

Lemma keep_nearer_first (rest : list A) :
  forall (P : list A) (b : A),
    first_nearest d P b ->
    first_nearest d (P ++ rest) (fold_left (keep_nearer d) rest b).
Proof.
  induction rest as [|x rest IH]; intros P b H.
  - now rewrite app_nil_r.
  - cbn [fold_left].
    replace (P ++ x :: rest) with ((P ++ [x]) ++ rest)
      by (now rewrite <- app_assoc).
    apply IH. destruct H as [l1 [l2 [EP [H1 H2]]]].
    unfold keep_nearer. destruct (Qltb (d x) (d b)) eqn:L.
    + apply Qltb_true in L.
      exists P, []. split; [reflexivity|]. split; [|intros c []].
      intros c Hc. rewrite EP in Hc. apply in_app_or in Hc.
      destruct Hc as [Hc|[<-|Hc]].
      * specialize (H1 c Hc). lra.
      * exact L.
      * specialize (H2 c Hc). lra.
    + apply Qltb_false in L.
      exists l1, (l2 ++ [x]). split; [|split; [exact H1|]].
      * rewrite EP, <- app_assoc. reflexivity.
      * intros c Hc. apply in_app_or in Hc.
        destruct Hc as [Hc|[<-|[]]]; [now apply H2 | exact L].
Qed.

Lemma reduce_first_nearest (first : A) (rest : list A) :
  first_nearest d (first :: rest) (fold_left (keep_nearer d) rest first).
Proof.
  apply (keep_nearer_first rest [first] first).
  exists [], []. split; [reflexivity|]. split; intros c [].
Qed.

End FirstNearest.

(** In an ascending array what follows an element is not below it. *)
Lemma ascending_after (l1 l2 : list Q) (b : Q) :
  ascending (l1 ++ b :: l2) -> forall c, In c l2 -> b <= c.
Proof.
  induction l1 as [|a l1 IH]; intro Hasc.
  - cbn [app] in Hasc. revert b Hasc.
    induction l2 as [|x l2 IH2]; intros b Hasc c Hc; [destruct Hc|].
    destruct Hasc as [Hbx Hrest]. destruct Hc as [<-|Hc]; [exact Hbx|].
    apply Qle_trans with x; [exact Hbx|]. now apply IH2.
  - apply IH. cbn [app] in Hasc.
    destruct (l1 ++ b :: l2) eqn:E; [destruct l1; discriminate|].
    now destruct Hasc.
Qed.

(** Among equidistant elements of an ascending array the lowest is selected. *)
Lemma first_nearest_lowest (d : Q -> Q) (l : list Q) (b : Q) :
  ascending l -> first_nearest d l b ->
  forall c, In c l -> d c == d b -> b <= c.
Proof.
  intros Hasc [l1 [l2 [El [H1 H2]]]] c Hc Hd. subst l.
  apply in_app_or in Hc. destruct Hc as [Hc|[<-|Hc]].
  - specialize (H1 c Hc). lra.
  - apply Qle_refl.
  - now apply (ascending_after l1 l2 b).
Qed.

Lemma first_nearest_least {A : Type} (d : A -> Q) (l : list A) (b : A) :
  first_nearest d l b -> In b l /\ forall c, In c l -> d b <= d c.
Proof.
  intros [l1 [l2 [El [H1 H2]]]]. subst l. split.
  - apply in_or_app. right. now left.
  - intros c Hc. apply in_app_or in Hc. destruct Hc as [Hc|[<-|Hc]].
    + apply Qlt_le_weak. now apply H1.
    + apply Qle_refl.
    + now apply H2.
Qed.

Lemma findNearestHeading_first (h : Q) :
  first_nearest (fun c => Qabs (c - unwrapHeading h)) availableHeadings
    (findNearestHeading h).
Proof.
  unfold findNearestHeading, reduce1, availableHeadings.
  apply (reduce_first_nearest (fun c => Qabs (c - unwrapHeading h))).
Qed.

(** Some bucket lies within 15 degrees of every value in [[0, 180]]. *)
Lemma bucket_within_15 (u : Q) :
  0 <= u -> u <= 180 ->
  exists c, In c availableHeadings /\ Qabs (c - u) <= 15.
Proof.
  intros Hlo Hhi. unfold availableHeadings.
  destruct (Qlt_le_dec u 15); [exists 0|
  destruct (Qlt_le_dec u 45); [exists 30|
  destruct (Qlt_le_dec u 75); [exists 60|
  destruct (Qlt_le_dec u 105); [exists 90|
  destruct (Qlt_le_dec u 135); [exists 120|
  destruct (Qlt_le_dec u 165); [exists 150|exists 180]]]]]];
    (split; [cbn; tauto | apply Qabs_Qle_condition; split; lra]).
Qed.

(** X2: the bucket selected for a heading is within 15 degrees of the folded
    heading, and of two buckets at the same distance the lower is selected. *)
Theorem nearest_heading_choice (h : Q) :
  Qabs (findNearestHeading h - unwrapHeading h) <= 15 /\
  forall c, In c availableHeadings ->
    Qabs (c - unwrapHeading h) == Qabs (findNearestHeading h - unwrapHeading h) ->
    findNearestHeading h <= c.
Proof.
  pose proof (findNearestHeading_first h) as Hfirst. split.
  - destruct (HeadingProofs.unwrapHeading_range h) as [Hlo Hhi].
    destruct (bucket_within_15 _ Hlo Hhi) as [c [Hc Hd]].
    destruct (first_nearest_least _ _ _ Hfirst) as [_ Hmin].
    apply Qle_trans with (Qabs (c - unwrapHeading h)); [now apply Hmin | exact Hd].
  - apply (first_nearest_lowest (fun c => Qabs (c - unwrapHeading h))
             availableHeadings); [|exact Hfirst].
    cbn. repeat split; discriminate.
Qed.

Lemma nearest_heading_choice_witness : findNearestHeading 45 <= 60.
Proof.
  destruct (nearest_heading_choice 45) as [_ H].
  apply H; [cbn; tauto | vm_compute; reflexivity].
Defined.

(** *** Speeds *)








End SelectionProofs.

(** ** The response-table parser: what it returns *)

Module TableProofs.
Import JsQ JsQFacts JsString RAOVisualizer Views.
Local Open Scope Q_scope.

(** *** The arrays filled by the data loop *)

Lemma push_rows_amplitudes (rows : list (Q * Q * Q)) :
  forall st,
    r_amplitudes (fold_left push_row rows st)
    = r_amplitudes st ++ map row_amp rows.
Proof.
  induction rows as [|[[f a] p] rows IH]; intro st; cbn [fold_left map].
  - now rewrite app_nil_r.
  - rewrite IH. cbn [push_row r_amplitudes row_amp fst snd].
    now rewrite <- app_assoc.
Qed.

Lemma push_rows_phases_length (rows : list (Q * Q * Q)) :
  forall st,
    List.length (r_phases (fold_left push_row rows st))
    = (List.length (r_phases st) + List.length rows)%nat.
Proof.
  induction rows as [|[[f a] p] rows IH]; intro st; cbn [fold_left List.length].
  - lia.
  - rewrite IH. cbn [push_row r_phases]. rewrite length_app. cbn. lia.
Qed.

(** *** The sort *)

Lemma insert_by_perm (cmp : nat -> nat -> Q) (a : nat) (l : list nat) :
  Permutation (insert_by cmp a l) (a :: l).
Proof.
  induction l as [|b l IH]; cbn [insert_by]; [reflexivity|].
  destruct (Qgtb (cmp a b) 0); [|reflexivity].
  rewrite IH. apply perm_swap.
Qed.

Lemma sort_by_perm (cmp : nat -> nat -> Q) (l : list nat) :
  Permutation (sort_by cmp l) l.
Proof.
  induction l as [|a l IH]; [reflexivity|].
  cbn [sort_by fold_right]. fold (sort_by cmp l).
  rewrite insert_by_perm. now constructor.
Qed.

Lemma ascending_cons (x : Q) (l : list Q) :
  ascending (x :: l) <->
  match l with [] => True | y :: _ => x <= y end /\ ascending l.
Proof. destruct l; cbn; tauto. Qed.

Lemma insert_by_ascending (key : nat -> Q) (a : nat) (l : list nat) :
  ascending (map key l) ->
  ascending (map key (insert_by (fun i j => key i - key j) a l)).
Proof.
  induction l as [|b l IH]; intro Hasc; [exact I|].
  cbn [insert_by]. unfold Qgtb.
  destruct (Qltb 0 (key a - key b)) eqn:E.
  - apply Qltb_true in E. cbn [map]. apply ascending_cons.
    cbn [map] in Hasc. apply ascending_cons in Hasc. destruct Hasc as [Hhd Htl].
    split; [|now apply IH].
    destruct l as [|c l]; cbn [insert_by map].
    + lra.
    + destruct (Qgtb (key a - key c) 0); cbn [map]; [exact Hhd | lra].
  - apply Qltb_false in E. cbn [map]. apply ascending_cons.
    split; [lra | exact Hasc].
Qed.

Lemma sort_by_ascending (key : nat -> Q) (l : list nat) :
  ascending (map key (sort_by (fun i j => key i - key j) l)).
Proof.
  induction l as [|a l IH]; [exact I|].
  cbn [sort_by fold_right]. now apply insert_by_ascending.
Qed.

Lemma combine_map_nth (P A : list Q) (l : list nat) :
  combine (map (fun i => nth i P 0) l) (map (fun i => nth i A 0) l)
  = map (fun i => (nth i P 0, nth i A 0)) l.
Proof. induction l as [|i l IH]; cbn; [reflexivity | now rewrite IH]. Qed.

Lemma map_pair_nth_seq (rows : list (Q * Q * Q)) :
  map (fun i => (nth i (map row_freq rows) 0, nth i (map row_amp rows) 0))
    (seq 0 (List.length rows))
  = map (fun row => (row_freq row, row_amp row)) rows.
Proof.
  induction rows as [|row rows IH]; [reflexivity|].
  cbn [List.length seq map nth]. f_equal.
  rewrite <- seq_shift, map_map. exact IH.
Qed.

(** What a successful parse is made of: the rows read, pushed one by one,
    then sorted. *)
Lemma parse_result (parseFloat Number : string -> qnum) (content : string)
    (targetHeading : Q) (r : RAOData) :
  parseRAOFile parseFloat Number content targetHeading = Some r ->
  let rows := table_rows parseFloat Number content targetHeading in
  let st := fold_left push_row rows rows_init in
  let indices :=
    sort_by (fun a b => nth a (r_periods st) 0 - nth b (r_periods st) 0)
      (seq 0 (List.length (r_periods st))) in
  r = mkRAOData (map (fun i => nth i (r_periods st) 0) indices)
        (map (fun i => nth i (r_amplitudes st) 0) indices)
        (map (fun i => nth i (r_phases st) 0) indices).
Proof.
  unfold parseRAOFile, table_rows.
  set (lines := split_lines content).
  set (h := scan_lines Number lines 0 scan_init).
  destruct (headingLineIdx h =? -1)%Z; [discriminate|].
  destruct (dataStartIdx h =? -1)%Z; [discriminate|]. cbn [orb].
  destruct (headingColumn (headings h) targetHeading) as [idx|]; [|discriminate].
  rewrite UnwrapProofs.data_loop_rows.
  intro Hr. injection Hr as <-. reflexivity.
Qed.

(** X4: whatever the table, the three arrays returned have one length, the
    frequencies are in ascending order, and the pairs (frequency, amplitude)
    returned are the pairs read from the table, rearranged. *)
Theorem parse_sorted (parseFloat Number : string -> qnum) (content : string)
    (targetHeading : Q) (r : RAOData) :
  parseRAOFile parseFloat Number content targetHeading = Some r ->
  List.length (amplitudes r) = List.length (periods r) /\
  List.length (phases r) = List.length (periods r) /\
  ascending (periods r) /\
  Permutation (combine (periods r) (amplitudes r))
    (map (fun row => (row_freq row, row_amp row))
       (table_rows parseFloat Number content targetHeading)).
Proof.
  intro Hr. rewrite (parse_result _ _ _ _ _ Hr).
  set (rows := table_rows parseFloat Number content targetHeading).
  set (st := fold_left push_row rows rows_init).
  cbn [periods amplitudes phases].
  assert (HP : r_periods st = map row_freq rows)
    by apply (UnwrapProofs.push_rows_periods rows rows_init).
  assert (HA : r_amplitudes st = map row_amp rows)
    by apply (push_rows_amplitudes rows rows_init).
  rewrite !length_map. split; [reflexivity|]. split; [reflexivity|]. split.
  - apply (sort_by_ascending (fun i => nth i (r_periods st) 0)).
  - rewrite combine_map_nth, HP, HA, length_map.
    rewrite sort_by_perm. rewrite map_pair_nth_seq. reflexivity.
Qed.

Lemma parse_sorted_witness :
  ascending [1 # 10; 1 # 5; 3 # 10] /\
  Permutation (combine [1 # 10; 1 # 5; 3 # 10] [1; 1 # 2; 4 # 5])
    [(1 # 10, 1); (3 # 10, 4 # 5); (1 # 5, 1 # 2)].
Proof.
  destruct (parse_sorted decimal_parseFloat decimal_Number Samples.table_shuffled 0
              (mkRAOData [1 # 10; 1 # 5; 3 # 10] [1; 1 # 2; 4 # 5] [10; 340; 170]))
    as [_ [_ [H1 H2]]]; [vm_compute; reflexivity|].
  split; [exact H1 | exact H2].
Defined.

(** *** Phases are only moved by whole turns *)

Lemma normalizePhase_same (p : Q) : same_phase (normalizePhase p) p.
Proof.
  unfold same_phase, normalizePhase, js_rem.
  exists (- Qtrunc ((p + 180) / 360))%Z. rewrite inject_Z_opp. ring.
Qed.

Lemma nextOffset_turns (prev : option Q) (offset phase : Q) :
  same_phase offset 0 -> same_phase (nextOffset prev offset phase) 0.
Proof.
  intros [k Hk]. unfold nextOffset. destruct prev as [p|]; [|now exists k].
  destruct (Qgtb (phase - p) 180).
  - exists (k - 1)%Z. unfold Zminus. rewrite inject_Z_plus, Hk.
    change (inject_Z (- (1))) with (- (1)). ring.
  - destruct (Qltb (phase - p) (-180)).
    + exists (k + 1)%Z. rewrite inject_Z_plus, Hk.
      change (inject_Z 1) with 1. ring.
    + now exists k.
Qed.

Lemma push_rows_same_phase (rows : list (Q * Q * Q)) :
  forall st,
    same_phase (phaseOffset st) 0 ->
    exists new,
      r_phases (fold_left push_row rows st) = r_phases st ++ new /\
      Forall2 same_phase new (map row_phase rows).
Proof.
  induction rows as [|[[f a] p] rows IH]; intros st Hoff; cbn [fold_left map].
  - exists []. split; [now rewrite app_nil_r | constructor].
  - set (q := normalizePhase p).
    set (o := nextOffset (prevPhase st) (phaseOffset st) q).
    assert (Ho : same_phase o 0) by now apply nextOffset_turns.
    destruct (IH (push_row st (f, a, p))) as [new [Hnew Hall]].
    { cbn [push_row phaseOffset]. exact Ho. }
    exists ((q + o) :: new). split.
    + rewrite Hnew. cbn [push_row r_phases]. now rewrite <- app_assoc.
    + constructor; [|exact Hall]. cbn [row_phase snd].
      destruct (normalizePhase_same p) as [k1 H1]. destruct Ho as [k2 H2].
      exists (k1 + k2)%Z. fold q in H1. rewrite inject_Z_plus, H1, H2. ring.
Qed.

(** X5: when the rows read are in non-decreasing frequency order in the
    file and their phases are written as whole numbers of degrees, the parser
    returns them as written and in that order: their frequencies, their
    amplitudes, and phases that differ from the written ones by whole turns
    only.  (On whole numbers the normalisation and the offsets of the
    unwrapping are computed exactly.) *)
Theorem parse_ascending_table (parseFloat Number : string -> qnum)
    (content : string) (targetHeading : Q) (r : RAOData) :
  parseRAOFile parseFloat Number content targetHeading = Some r ->
  ascending (map row_freq (table_rows parseFloat Number content targetHeading)) ->
  Forall (fun row => whole (row_phase row))
    (table_rows parseFloat Number content targetHeading) ->
  periods r = map row_freq (table_rows parseFloat Number content targetHeading) /\
  amplitudes r = map row_amp (table_rows parseFloat Number content targetHeading) /\
  Forall2 same_phase (phases r)
    (map row_phase (table_rows parseFloat Number content targetHeading)).
Proof.
  intros Hr Hasc _. rewrite (parse_result _ _ _ _ _ Hr).
  set (rows := table_rows parseFloat Number content targetHeading) in *.
  set (st := fold_left push_row rows rows_init).
  cbn [periods amplitudes phases].
  assert (HP : r_periods st = map row_freq rows)
    by apply (UnwrapProofs.push_rows_periods rows rows_init).
  assert (HA : r_amplitudes st = map row_amp rows)
    by apply (push_rows_amplitudes rows rows_init).
  destruct (push_rows_same_phase rows rows_init) as [new [Hnew Hall]].
  { exists 0%Z. cbn. reflexivity. }
  cbn [rows_init r_phases app] in Hnew. fold st in Hnew.
  assert (Hlen : List.length new = List.length rows).
  { apply Forall2_length in Hall. now rewrite length_map in Hall. }
  rewrite UnwrapProofs.sort_by_ordered.
  - rewrite HP at 2. rewrite HA. rewrite Hnew.
    rewrite HP, length_map.
    rewrite <- (length_map row_freq rows) at 1.
    rewrite UnwrapProofs.map_nth_seq.
    rewrite <- (length_map row_amp rows) at 1.
    rewrite UnwrapProofs.map_nth_seq.
    rewrite <- Hlen, UnwrapProofs.map_nth_seq. auto.
  - intros i _ Hi. apply UnwrapProofs.ascending_nth; [now rewrite HP | lia].
Qed.

Lemma parse_ascending_table_witness :
  Forall2 same_phase [10; 170; 340] [10; 170; -20].
Proof.
  destruct (parse_ascending_table decimal_parseFloat decimal_Number
              Samples.table_ascending 0
              (mkRAOData [1 # 10; 1 # 5; 3 # 10] [1; 4 # 5; 1 # 2] [10; 170; 340]))
    as [_ [_ H]].
  - vm_compute. reflexivity.
  - vm_compute. repeat split; discriminate.
  - assert (E : table_rows decimal_parseFloat decimal_Number
                  Samples.table_ascending 0
                = [(1 # 10, 1, 10); (1 # 5, 4 # 5, 170); (3 # 10, 1 # 2, -20)])
      by (vm_compute; reflexivity).
    rewrite E. repeat constructor; cbn [row_phase snd].
    + exists 10%Z. split; [reflexivity | vm_compute; discriminate].
    + exists 170%Z. split; [reflexivity | vm_compute; discriminate].
    + exists (-20)%Z. split; [reflexivity | vm_compute; discriminate].
  - exact H.
Defined.

End TableProofs.

(** ** The response-table parser: the column read *)

Module ColumnProofs.
Import JsQ JsQFacts JsString RAOVisualizer Views.
Local Open Scope Q_scope.

(** *** The [reduce] over the declared headings *)

(** From a heading that is a number on, headings that are not numbers are
    passed over and the first of the nearest is kept. *)
Lemma nearerCol_keeps_first (t : Q) (rest : list qnum) :
  forall (P : list qnum) (b : Q),
    (exists l1 l2, P = l1 ++ Some b :: l2 /\
       (forall c, In (Some c) l1 -> Qabs (b - t) < Qabs (c - t)) /\
       (forall c, In (Some c) l2 -> Qabs (b - t) <= Qabs (c - t))) ->
    exists b' l1 l2,
      fold_left (nearerCol t) rest (Some b) = Some b' /\
      P ++ rest = l1 ++ Some b' :: l2 /\
      (forall c, In (Some c) l1 -> Qabs (b' - t) < Qabs (c - t)) /\
      (forall c, In (Some c) l2 -> Qabs (b' - t) <= Qabs (c - t)).
Proof.
  induction rest as [|x rest IH]; intros P b [l1 [l2 [EP [H1 H2]]]].
  - exists b, l1, l2. rewrite app_nil_r. auto.
  - cbn [fold_left].
    replace (P ++ x :: rest) with ((P ++ [x]) ++ rest)
      by (now rewrite <- app_assoc).
    destruct x as [x|]; unfold nearerCol at 2; cbn [abs_diff num_ltb].
    + destruct (Qltb (Qabs (x - t)) (Qabs (b - t))) eqn:L.
      * apply Qltb_true in L. apply IH.
        exists P, []. split; [reflexivity|]. split; [|intros c []].
        intros c Hc. rewrite EP in Hc. apply in_app_or in Hc.
        destruct Hc as [Hc|[Hc|Hc]].
        -- specialize (H1 c Hc). lra.
        -- injection Hc as <-. exact L.
        -- specialize (H2 c Hc). lra.
      * apply Qltb_false in L. apply IH.
        exists l1, (l2 ++ [Some x]). split; [|split; [exact H1|]].
        -- rewrite EP, <- app_assoc. reflexivity.
        -- intros c Hc. apply in_app_or in Hc.
           destruct Hc as [Hc|[Hc|[]]]; [now apply H2|].
           injection Hc as <-. exact L.
    + apply IH. exists l1, (l2 ++ [None]). split; [|split; [exact H1|]].
      * rewrite EP, <- app_assoc. reflexivity.
      * intros c Hc. apply in_app_or in Hc.
        destruct Hc as [Hc|[Hc|[]]]; [now apply H2 | discriminate].
Qed.

(** From a heading that is not a number the [reduce] never moves. *)
Lemma nearerCol_nan (t : Q) (rest : list qnum) :
  fold_left (nearerCol t) rest None = None.
Proof.
  induction rest as [|x rest IH]; [reflexivity|].
  cbn [fold_left]. unfold nearerCol at 2. cbn [abs_diff].
  destruct (abs_diff x t); exact IH.
Qed.

(** [indexOf(NaN)] finds nothing. *)
Lemma indexOf_from_nan (hs : list qnum) :
  forall i, indexOf_from hs None i = (-1)%Z.
Proof.
  induction hs as [|y hs IH]; intro i; [reflexivity|].
  cbn [indexOf_from]. destruct y; cbn [num_eqb]; apply IH.
Qed.

(** [indexOf] stops at the first element equal to the one looked for. *)
Lemma indexOf_from_place (l1 l2 : list qnum) (b : Q) :
  (forall c, In (Some c) l1 -> ~ c == b) ->
  forall i,
    indexOf_from (l1 ++ Some b :: l2) (Some b) i = (i + Z.of_nat (List.length l1))%Z.
Proof.
  induction l1 as [|y l1 IH]; intros Hne i.
  - cbn [app indexOf_from num_eqb List.length].
    assert (E : Qeq_bool b b = true) by (apply Qeq_bool_iff; reflexivity).
    rewrite E. cbn. lia.
  - cbn [app indexOf_from].
    assert (E : num_eqb y (Some b) = false).
    { destruct y as [c|]; [|reflexivity]. cbn [num_eqb].
      destruct (Qeq_bool c b) eqn:Q; [|reflexivity].
      apply Qeq_bool_iff in Q. exfalso. apply (Hne c); [now left | exact Q]. }
    rewrite E, IH by (intros c Hc; apply Hne; now right).
    cbn [List.length]. lia.
Qed.

(** The column read when the first declared heading is a number. *)
Lemma headingColumn_place (a : Q) (rest : list qnum) (t : Q) :
  exists i, headingColumn (Some a :: rest) t = Some (Z.of_nat i) /\
            nearest_place (Some a :: rest) t i.
Proof.
  destruct (nearerCol_keeps_first t rest [Some a] a) as [b [l1 [l2 [Ef [El [H1 H2]]]]]].
  { exists [], []. split; [reflexivity|]. split; intros c []. }
  cbn [app] in El.
  exists (List.length l1). split.
  - unfold headingColumn, reduce1, indexOf. unfold qnum in *. rewrite Ef, El.
    rewrite indexOf_from_place.
    + reflexivity.
    + intros c Hc E. specialize (H1 c Hc). rewrite E in H1. lra.
  - unfold nearest_place. unfold qnum in *. exists b. rewrite El. split; [|split].
    + rewrite nth_error_app2 by lia. now rewrite Nat.sub_diag.
    + intros j c Hj. apply nth_error_In in Hj. apply in_app_or in Hj.
      destruct Hj as [Hj|[Hj|Hj]].
      * apply Qlt_le_weak. now apply H1.
      * injection Hj as <-. apply Qle_refl.
      * now apply H2.
    + intros j c Hlt Hj. rewrite nth_error_app1 in Hj by exact Hlt.
      apply nth_error_In in Hj. now apply H1.
Qed.

(** The column read when the first declared heading is not a number: the
    [reduce] returns [NaN], which [indexOf] does not find. *)
Lemma headingColumn_nan (rest : list qnum) (t : Q) :
  headingColumn (None :: rest) t = Some (-1)%Z.
Proof.
  unfold headingColumn, reduce1. rewrite nearerCol_nan.
  unfold indexOf. now rewrite indexOf_from_nan.
Qed.

(** *** The rows read at a column *)

Lemma choose_In {A B : Type} (f : A -> option B) (l : list A) (y : B) :
  In y (choose f l) -> exists x, In x l /\ f x = Some y.
Proof.
  induction l as [|x l IH]; intro Hy; [destruct Hy|].
  cbn [choose] in Hy. destruct (f x) as [z|] eqn:E.
  - destruct Hy as [->|Hy].
    + exists x. split; [now left | exact E].
    + destruct (IH Hy) as [x' [Hin Hx]]. exists x'. split; [now right | exact Hx].
  - destruct (IH Hy) as [x' [Hin Hx]]. exists x'. split; [now right | exact Hx].
Qed.

Lemma accepted_row_tokens (parseFloat : string -> qnum) (n : nat) (idx : Z)
    (line : string) (w a p : Q) :
  accepted_row parseFloat n idx line = Some (w, a, p) ->
  parseFloat_at parseFloat (split_ws (trim line)) 0 = Some w /\
  parseFloat_at parseFloat (split_ws (trim line)) (1 + idx) = Some a /\
  parseFloat_at parseFloat (split_ws (trim line)) (1 + Z.of_nat n + idx) = Some p.
Proof.
  unfold accepted_row.
  destruct (is_empty (trim line) || startsWith "#" (trim line))%bool; [discriminate|].
  destruct (List.length (split_ws (trim line)) <? 1 + 2 * n)%nat; [discriminate|].
  destruct (parseFloat_at parseFloat (split_ws (trim line)) 0) as [w'|]; [|discriminate].
  destruct (parseFloat_at parseFloat (split_ws (trim line)) (1 + idx)) as [a'|];
    [|discriminate].
  destruct (parseFloat_at parseFloat (split_ws (trim line)) (1 + Z.of_nat n + idx))
    as [p'|]; [|discriminate].
  intro E. injection E as -> -> ->. auto.
Qed.

(** The pairs (frequency, amplitude) returned are those of the rows read. *)
Lemma parse_pairs (parseFloat Number : string -> qnum) (content : string)
    (targetHeading : Q) (r : RAOData) :
  parseRAOFile parseFloat Number content targetHeading = Some r ->
  Permutation (combine (periods r) (amplitudes r))
    (map (fun row => (row_freq row, row_amp row))
       (table_rows parseFloat Number content targetHeading)).
Proof.
  intro Hr. rewrite (TableProofs.parse_result _ _ _ _ _ Hr).
  set (rows := table_rows parseFloat Number content targetHeading).
  set (st := fold_left push_row rows rows_init).
  cbn [periods amplitudes].
  assert (HP : r_periods st = map row_freq rows)
    by apply (UnwrapProofs.push_rows_periods rows rows_init).
  assert (HA : r_amplitudes st = map row_amp rows)
    by apply (TableProofs.push_rows_amplitudes rows rows_init).
  rewrite TableProofs.combine_map_nth, HP, HA, length_map.
  rewrite TableProofs.sort_by_perm. rewrite TableProofs.map_pair_nth_seq.
  reflexivity.
Qed.

(** C4, amended: a table that lacks the [#HEADING] marker or the [w(r/s)]
    marker is refused for every heading: [parseRAOFile] returns [null], so does
    [loadRAOFile], and [updatePSDs] returns [null] instead of computing the
    motion PSDs.  A table that has both markers is accepted for every heading
    asked, declared or not: a column [idx] is chosen from the declared
    headings, and the pairs (frequency, amplitude) returned are those of the
    data rows, the frequency read from token 0 and the amplitude from token
    [1 + idx].  When the first declared heading is not a number, [idx] is -1
    and the amplitude is read from token 0.  When it is a number, [idx] is
    the place of a declared heading that is a number, and when the declared
    headings and the heading asked are whole numbers, it is the first place
    of a heading at the least distance from the heading asked. *)
Theorem parse_markers_and_heading
    (parseFloat Number : string -> qnum) (content : string) :
  let lines := split_lines content in
  let hs := headings (scan_lines Number lines 0 scan_init) in
  let data := dataLines (scan_lines Number lines 0 scan_init) lines in
  (existsb has_heading_marker lines = false \/
   existsb has_data_marker lines = false ->
   forall targetHeading : Q,
     parseRAOFile parseFloat Number content targetHeading = None /\
     (forall fetch type speed,
        fetch type (findNearestSpeedFolder speed) = Some content ->
        loadRAOFile parseFloat Number fetch type speed targetHeading = None) /\
     (forall fetch ws s1,
        fetch heave 0%Z = Some content \/ fetch pitch 0%Z = Some content ->
        PowerSpectralDensity.updatePSDs parseFloat Number fetch ws s1 = None)) /\
  (existsb has_heading_marker lines = true ->
   existsb has_data_marker lines = true ->
   forall targetHeading : Q,
     exists (idx : Z) (r : RAOData),
       headingColumn hs targetHeading = Some idx /\
       parseRAOFile parseFloat Number content targetHeading = Some r /\
       Permutation (combine (periods r) (amplitudes r))
         (map (fun row => (row_freq row, row_amp row))
            (choose (accepted_row parseFloat (List.length hs) idx) data)) /\
       (forall f a, In (f, a) (combine (periods r) (amplitudes r)) ->
          exists line, In line data /\
            parseFloat_at parseFloat (split_ws (trim line)) 0 = Some f /\
            parseFloat_at parseFloat (split_ws (trim line)) (1 + idx) = Some a) /\
       (nth_error hs 0 = Some None -> idx = (-1)%Z) /\
       (forall a, nth_error hs 0 = Some (Some a) ->
          exists (i : nat) (b : Q),
            idx = Z.of_nat i /\ nth_error hs i = Some (Some b) /\
            (whole_headings hs -> whole targetHeading ->
             nearest_place hs targetHeading i))).
Proof.
  intros lines hs data. split.
  - intros Hmiss t. split; [|split].
    + now apply ParserProofs.parse_missing_marker.
    + intros fetch type speed Hf.
      apply (ParserProofs.loadRAOFile_null _ _ fetch type speed t content Hf).
      now apply ParserProofs.parse_missing_marker.
    + intros fetch ws s1 Hf.
      apply (ParserProofs.updatePSDs_null _ _ fetch ws s1 content Hf).
      now apply ParserProofs.parse_missing_marker.
  - intros Hh Hd t.
    destruct (parseRAOFile parseFloat Number content t) as [r|] eqn:Er;
      [|exfalso; now apply (ParserProofs.parse_with_markers parseFloat Number content t)].
    pose proof (parse_pairs _ _ _ _ _ Er) as Hperm.
    unfold table_rows in Hperm. fold lines in Hperm. fold hs in Hperm.
    fold data in Hperm.
    assert (Hne : hs <> []).
    { pose proof (ParserProofs.scan_heading_found Number lines 0 scan_init
                    (or_intror Hh)) as A.
      destruct (ParserProofs.scan_lines_ok Number lines 0 scan_init) as [C _];
        [left; reflexivity | left; reflexivity |].
      destruct C as [C|[_ C]]; [lia | exact C]. }
    assert (Hcol : exists idx,
               headingColumn hs t = Some idx /\
               (nth_error hs 0 = Some None -> idx = (-1)%Z) /\
               (forall a, nth_error hs 0 = Some (Some a) ->
                  exists i, idx = Z.of_nat i /\ nearest_place hs t i)).
    { destruct hs as [|[a|] rest]; [congruence| |].
      - destruct (headingColumn_place a rest t) as [i [Ei Hi]].
        exists (Z.of_nat i). split; [exact Ei|]. split; [discriminate|].
        intros a' _. now exists i.
      - exists (-1)%Z. split; [apply headingColumn_nan|].
        split; [reflexivity | discriminate]. }
    destruct Hcol as [idx [Ecol [Hnan Hnum]]].
    rewrite Ecol in Hperm.
    exists idx, r. split; [exact Ecol|]. split; [reflexivity|].
    split; [exact Hperm|]. split; [|split; [exact Hnan|]].
    + intros f a Hin.
      apply (Permutation_in _ Hperm) in Hin. apply in_map_iff in Hin.
      destruct Hin as [[[w a'] p] [Epair Hrow]].
      cbn [row_freq row_amp fst snd] in Epair. injection Epair as -> ->.
      apply choose_In in Hrow. destruct Hrow as [line [Hline Hacc]].
      exists line. split; [exact Hline|].
      destruct (accepted_row_tokens _ _ _ _ _ _ _ Hacc) as [T0 [T1 _]]. auto.
    + intros a Ha. destruct (Hnum a Ha) as [i [Ei Hplace]].
      pose proof Hplace as [b [Hb _]].
      exists i, b. split; [exact Ei|]. split; [exact Hb|].
      intros _ _. exact Hplace.
Qed.

(** The theorem on the table without [#HEADING] line, with a wave spectrum
    at hand, and on the table with both markers asked for the heading 200: the
    column of the heading 30 is read. *)
Lemma parse_markers_and_heading_witness :
  (parseRAOFile decimal_parseFloat decimal_Number Samples.table_no_heading 0 = None /\
   PowerSpectralDensity.updatePSDs decimal_parseFloat decimal_Number
     Samples.fetch_no_heading Samples.spectrum_one_point None = None) /\
  exists r,
    parseRAOFile decimal_parseFloat decimal_Number Samples.table_ascending 200
    = Some r /\
    Permutation (combine (periods r) (amplitudes r))
      [(1 # 10, 9 # 10); (1 # 5, 7 # 10); (3 # 10, 2 # 5)] /\
    nearest_place [Some 0; Some 30] 200 1.
Proof.
  split.
  - destruct (parse_markers_and_heading decimal_parseFloat decimal_Number
                Samples.table_no_heading) as [Hmiss _].
    destruct (Hmiss (or_introl eq_refl) 0) as [A [_ C]].
    split; [exact A|].
    apply C. left. reflexivity.
  - destruct (parse_markers_and_heading decimal_parseFloat decimal_Number
                Samples.table_ascending) as [_ Hok].
    destruct (Hok eq_refl eq_refl 200) as [idx [r [Ecol [Er [Hperm [_ [_ Hnum]]]]]]].
    assert (Eidx : idx = 1%Z).
    { vm_compute in Ecol. now injection Ecol as <-. }
    subst idx. exists r. split; [exact Er|]. split; [exact Hperm|].
    destruct (Hnum 0 eq_refl) as [i [b [Ei [_ Hplace]]]].
    assert (E1 : i = 1%nat) by lia. subst i.
    apply Hplace.
    + intros j c Hj. destruct j as [|[|[|j]]]; cbn in Hj; try discriminate;
        injection Hj as <-.
      * exists 0%Z. split; [reflexivity | vm_compute; discriminate].
      * exists 30%Z. split; [reflexivity | vm_compute; discriminate].
    + exists 200%Z. split; [reflexivity | vm_compute; discriminate].
Defined.

End ColumnProofs.

(** ** The wave spectrum: further properties *)

Module SpectrumMoreProofs.
Import JsR JsRFacts JonswapSpectrum PowerSpectralDensity Reference SpectrumState.
Import SpectrumProofs.
Local Open Scope R_scope.

(** X6: for a wave height from 0.01 to 100 and a peak period of one second
    or more, [calculateSpectrum] returns 600 points.  Their frequencies
    start at 0.01, increase strictly and stay within 0.01 and 6; their
    densities are those of the spectrum that the calibration computed last,
    the one of the alpha it returns, and are finite numbers, none of them
    negative. *)
Theorem spectrum_points (Hs Tp : R) :
  0.01 <= Hs <= 100 -> 1 <= Tp ->
  exists (alpha : R) (xs ys : list R),
    0 < alpha /\
    calculateAlphaIterative omega_grid (fin Hs) (fin Tp) (fin 3.3) (fin 9.81)
    = fin alpha /\
    calculateSpectrum (fin Hs) (fin Tp) = combine (map fin xs) (map fin ys) /\
    List.length xs = 600%nat /\ List.length ys = 600%nat /\
    nth 0 xs 0 = 0.01 /\ increasing xs /\
    map fin ys
    = computeSpectrumWithAlpha omega_grid (fin alpha) (fin Tp) (fin 3.3) (fin 9.81) /\
    forall i, (i < 600)%nat -> 0.01 <= nth i xs 0 <= 6 /\ 0 <= nth i ys 0.
Proof.
  intros HHs HTp.
  assert (HHs0 : 0 < Hs) by lra. assert (HTp0 : 0 < Tp) by lra.
  destruct (alpha_loop_result Hs Tp HHs0 HTp0 50 0.0081 ltac:(lra))
    as [alpha [k [Hpos [Heq _]]]].
  exists alpha, grid, (map (jonswap alpha Tp 3.3 9.81) grid).
  split; [exact Hpos|]. split; [exact Heq|]. split; [|split; [|split]].
  - unfold calculateSpectrum, calculateAlphaIterative, maxIter.
    rewrite Heq, omega_grid_is_grid.
    rewrite <- (computeSpectrum_jonswap alpha Tp HTp0).
    unfold computeSpectrumWithAlpha.
    induction (map fin grid) as [|w l IH]; [reflexivity|].
    cbn [map combine]. now rewrite IH.
  - apply grid_length.
  - rewrite length_map. apply grid_length.
  - split; [|split; [|split]].
    + rewrite grid_nth by lia. cbn. lra.
    + apply grid_increasing.
    + rewrite omega_grid_is_grid. symmetry.
      now apply computeSpectrum_jonswap.
    + intros i Hi. split; [now apply grid_bounds|].
      rewrite spectrum_nth by exact Hi. left.
      apply jonswap_pos; [exact Hpos | lra | now apply grid_pos].
Qed.

Lemma spectrum_points_witness :
  exists xs ys,
    calculateSpectrum (fin 2) (fin 10) = combine (map fin xs) (map fin ys) /\
    List.length xs = 600%nat /\
    forall i, (i < 600)%nat -> 0.01 <= nth i xs 0 <= 6 /\ 0 <= nth i ys 0.
Proof.
  destruct (spectrum_points 2 10 ltac:(lra) ltac:(lra))
    as [alpha [xs [ys [_ [_ [E [L [_ [_ [_ [_ B]]]]]]]]]]].
  exists xs, ys. split; [exact E|]. split; [exact L | exact B].
Defined.

(** *** Convergence *)



(** X9: the two trapezoidal integrators of the sources, that of the spectrum
    and that of the dose, give the same integral on finite aligned series. *)
Theorem integrators_agree (xs ys : list R) :
  List.length ys = List.length xs ->
  trapezoidalIntegration (map fin xs) (map fin ys)
  = msdvIntegral (map fin ys) (map fin xs).
Proof.
  intro Hlen.
  rewrite trapezoidalIntegration_fin, DoseProofs.msdvIntegral_fin by exact Hlen.
  reflexivity.
Qed.

Lemma integrators_agree_witness :
  trapezoidalIntegration (map fin [0; 1; 3]) (map fin [2; 4; 8])
  = msdvIntegral (map fin [2; 4; 8]) (map fin [0; 1; 3]).
Proof. apply (integrators_agree [0; 1; 3] [2; 4; 8]). reflexivity. Defined.

End SpectrumMoreProofs.

(** ** The state of the visualizer and of the spectrum *)

Module StateProofs.
Import JsQ RAOVisualizer VisualizerState.
Import JsR JonswapSpectrum PowerSpectralDensity SpectrumState.

Section WithBuiltins.

Variable parseFloat : string -> qnum.
Variable Number : string -> qnum.

(** One call either leaves a table as it was or replaces it by the table
    just loaded. *)
Lemma updateCharts_heave (r : Request) (v : Visualizer) :
  let v' := updateCharts parseFloat Number (server r) v (speed_of r) (heading_of r) in
  latestHeaveData v' = latestHeaveData v \/
  (exists d, loaded parseFloat Number heave r = Some d /\
             latestHeaveData v' = Some d).
Proof.
  unfold updateCharts, loaded.
  destruct (same_number (speed_of r) (currentSpeed v)
            && same_number (heading_of r) (currentHeading v))%bool; [now left|].
  cbn [latestHeaveData].
  destruct (loadRAOFile parseFloat Number (server r) heave _ _) as [d|];
    [right; now exists d | now left].
Qed.

Lemma updateCharts_pitch (r : Request) (v : Visualizer) :
  let v' := updateCharts parseFloat Number (server r) v (speed_of r) (heading_of r) in
  latestPitchData v' = latestPitchData v \/
  (exists d, loaded parseFloat Number pitch r = Some d /\
             latestPitchData v' = Some d).
Proof.
  unfold updateCharts, loaded.
  destruct (same_number (speed_of r) (currentSpeed v)
            && same_number (heading_of r) (currentHeading v))%bool; [now left|].
  cbn [latestPitchData].
  destruct (loadRAOFile parseFloat Number (server r) pitch _ _) as [d|];
    [right; now exists d | now left].
Qed.

Lemma updateCharts_heading (r : Request) (v : Visualizer) :
  let v' := updateCharts parseFloat Number (server r) v (speed_of r) (heading_of r) in
  currentHeading v' = currentHeading v \/
  (exists h, In h availableHeadings /\ currentHeading v' = Some h).
Proof.
  unfold updateCharts.
  destruct (same_number (speed_of r) (currentSpeed v)
            && same_number (heading_of r) (currentHeading v))%bool; [now left|].
  cbn [currentHeading]. right. exists (findNearestHeading (heading_of r)).
  split; [|reflexivity]. apply HeadingProofs.findNearestHeading_nearest.
Qed.

(** X10: over any sequence of calls of [updateCharts], whatever the server
    answers, a table once stored is never erased: a failed load leaves the
    previous table in place.  The table held at the end is the initial one or
    one that a call of the sequence loaded for its nearest speed and heading,
    and the heading held is the initial one or one of the available
    headings. *)
Theorem charts_keep_tables (requests : list Request) (v : Visualizer) :
  let v' := run parseFloat Number v requests in
  (latestHeaveData v <> None -> latestHeaveData v' <> None) /\
  (latestPitchData v <> None -> latestPitchData v' <> None) /\
  (forall d, latestHeaveData v' = Some d ->
     latestHeaveData v = Some d \/
     exists r, In r requests /\ loaded parseFloat Number heave r = Some d) /\
  (forall d, latestPitchData v' = Some d ->
     latestPitchData v = Some d \/
     exists r, In r requests /\ loaded parseFloat Number pitch r = Some d) /\
  (forall h, currentHeading v' = Some h ->
     currentHeading v = Some h \/ In h availableHeadings).
Proof.
  revert v. induction requests as [|r requests IH]; intro v.
  - cbn. repeat split; auto.
  - cbn [run fold_left].
    set (v1 := updateCharts parseFloat Number (server r) v (speed_of r) (heading_of r)).
    destruct (IH v1) as [K1 [K2 [P1 [P2 P3]]]]. fold (run parseFloat Number v1 requests).
    pose proof (updateCharts_heave r v) as Hh.
    pose proof (updateCharts_pitch r v) as Hp.
    pose proof (updateCharts_heading r v) as Hc.
    cbv zeta in Hh, Hp, Hc. fold v1 in Hh, Hp, Hc.
    split; [|split; [|split; [|split]]].
    + intro H. apply K1. destruct Hh as [E|[d [_ E]]]; rewrite E; [exact H|discriminate].
    + intro H. apply K2. destruct Hp as [E|[d [_ E]]]; rewrite E; [exact H|discriminate].
    + intros d Hd. destruct (P1 d Hd) as [H1|[r' [Hin Hr']]].
      * destruct Hh as [E|[d' [El E]]].
        -- left. now rewrite <- E.
        -- right. exists r. split; [now left|]. rewrite El. congruence.
      * right. exists r'. split; [now right | exact Hr'].
    + intros d Hd. destruct (P2 d Hd) as [H1|[r' [Hin Hr']]].
      * destruct Hp as [E|[d' [El E]]].
        -- left. now rewrite <- E.
        -- right. exists r. split; [now left|]. rewrite El. congruence.
      * right. exists r'. split; [now right | exact Hr'].
    + intros h Hh'. destruct (P3 h Hh') as [H1|H1]; [|now right].
      destruct Hc as [E|[h' [Hin E]]].
      * left. now rewrite <- E.
      * right. rewrite E in H1. injection H1 as <-. exact Hin.
Qed.



(** *** The spectrum handed to the PSD pipeline *)

Lemma calculateSpectrum_frequencies (waveHeight wavePeriod : num) :
  map fst (calculateSpectrum waveHeight wavePeriod) = omega_grid.
Proof.
  unfold calculateSpectrum. rewrite map_map. cbn [fst]. apply map_id.
Qed.

Lemma calculateSpectrum_length (waveHeight wavePeriod : num) :
  List.length (calculateSpectrum waveHeight wavePeriod) = 600%nat.
Proof.
  unfold calculateSpectrum.
  rewrite length_map, SpectrumProofs.omega_grid_is_grid, length_map.
  apply SpectrumProofs.grid_length.
Qed.

Lemma is_nil_length {A : Type} (l : list A) :
  is_nil l = false <-> (0 < List.length l)%nat.
Proof. destruct l; cbn; split; intro; try lia; congruence. Qed.

(** X11: before the first [update] of the spectrum [updatePSDs] returns
    [null] without asking for a table.  After an [update], whatever the
    reading, [getSpectrum] gives 600 frequencies with 600 densities, the
    spectrum of [sensor1] is not used, and [updatePSDs] returns [null]
    exactly when the heave or the pitch table for 0 knots and heading 0
    cannot be loaded. *)
Theorem psd_needs_spectrum_and_tables (fetch : dof -> Z -> option string)
    (waveHeight wavePeriod : num) (sensor1 : option Spectrum) :
  let ready := getSpectrum (update waveHeight wavePeriod) in
  updatePSDs parseFloat Number fetch (getSpectrum None) None = None /\
  updatePSDs parseFloat Number fetch (getSpectrum None) sensor1
  = match sensor1 with
    | Some sp => updatePSDs parseFloat Number fetch sp None
    | None => None
    end /\
  List.length (frequencies ready) = 600%nat /\
  List.length (spectralDensities ready) = 600%nat /\
  updatePSDs parseFloat Number fetch ready sensor1
  = updatePSDs parseFloat Number fetch ready None /\
  (updatePSDs parseFloat Number fetch ready sensor1 = None <->
   loadRAOFile parseFloat Number fetch heave 0 0 = None \/
   loadRAOFile parseFloat Number fetch pitch 0 0 = None).
Proof.
  intro ready.
  assert (Lf : List.length (frequencies ready) = 600%nat).
  { unfold ready, update, getSpectrum. cbn [frequencies].
    rewrite length_map. apply calculateSpectrum_length. }
  assert (Ld : List.length (spectralDensities ready) = 600%nat).
  { unfold ready, update, getSpectrum. cbn [spectralDensities].
    rewrite length_map. apply calculateSpectrum_length. }
  assert (Nf : is_nil (frequencies ready) = false) by (apply is_nil_length; lia).
  assert (Nd : is_nil (spectralDensities ready) = false)
    by (apply is_nil_length; lia).
  split; [reflexivity|]. split.
  { unfold updatePSDs at 1. cbn [getSpectrum frequencies is_nil].
    destruct sensor1 as [sp|]; [|reflexivity].
    unfold updatePSDs. cbv zeta.
    destruct (is_nil (frequencies sp)) eqn:E; cbv iota; rewrite ?E; reflexivity. }
  split; [exact Lf|]. split; [exact Ld|].
  unfold updatePSDs. cbv zeta. rewrite Nf. cbv iota. rewrite Nf, Nd. cbn [orb].
  split; [reflexivity|].
  destruct (loadRAOFile parseFloat Number fetch heave 0 0) as [hd|];
    [|split; [now left | reflexivity]].
  destruct (loadRAOFile parseFloat Number fetch pitch 0 0) as [pd|];
    [|split; [now right | reflexivity]].
  split; [discriminate | intros [H|H]; discriminate].
Qed.

End WithBuiltins.

Lemma charts_keep_tables_witness :
  exists d,
    latestHeaveData
      (run decimal_parseFloat decimal_Number
         (updateCharts decimal_parseFloat decimal_Number
            (fun _ _ => Some Samples.table_ascending) initial 12 0)
         [mkRequest (fun _ _ => None) 4 90]) = Some d.
Proof.
  destruct (charts_keep_tables decimal_parseFloat decimal_Number
              [mkRequest (fun _ _ => None) 4 90]
              (updateCharts decimal_parseFloat decimal_Number
                 (fun _ _ => Some Samples.table_ascending) initial 12 0))
    as [H _].
  cbv zeta in H.
  destruct (latestHeaveData
              (run decimal_parseFloat decimal_Number
                 (updateCharts decimal_parseFloat decimal_Number
                    (fun _ _ => Some Samples.table_ascending) initial 12 0)
                 [mkRequest (fun _ _ => None) 4 90])) as [d|].
  - now exists d.
  - exfalso. apply H; [vm_compute; discriminate | reflexivity].
Defined.

End StateProofs.

(** ** Complex arithmetic and the gain of the weighting *)

Module GainProofs.
Import JsR JsRFacts PowerSpectralDensity Reference Gain.
Local Open Scope R_scope.

Lemma complexMultiply_parts (a1 a2 b1 b2 : R) :
  complexMultiply (mkComplex (fin a1) (fin a2)) (mkComplex (fin b1) (fin b2))
  = mkComplex (fin (a1 * b1 - a2 * b2)) (fin (a1 * b2 + a2 * b1)).
Proof. reflexivity. Qed.

Lemma complexDivide_parts (a1 a2 b1 b2 : R) :
  b1 * b1 + b2 * b2 <> 0 ->
  complexDivide (mkComplex (fin a1) (fin a2)) (mkComplex (fin b1) (fin b2))
  = mkComplex (fin ((a1 * b1 + a2 * b2) / (b1 * b1 + b2 * b2)))
              (fin ((a2 * b1 - a1 * b2) / (b1 * b1 + b2 * b2))).
Proof.
  intro Hd. unfold complexDivide. cbn [real imag]. js_simpl.
  now rewrite !div_some by exact Hd.
Qed.

Lemma complexAbs_parts (a b : R) :
  complexAbs (mkComplex (fin a) (fin b)) = fin (R_sqrt.sqrt (a * a + b * b)).
Proof.
  unfold complexAbs. cbn [real imag]. js_simpl.
  fold (fin (a * a + b * b)). apply sqrt_fin. nra.
Qed.

(** *** Squared moduli *)

Lemma has_gain_mul (x y : complex) (g h : R) :
  has_gain x g -> has_gain y h -> has_gain (complexMultiply x y) (g * h).
Proof.
  intros [a1 [a2 [-> <-]]] [b1 [b2 [-> <-]]].
  rewrite complexMultiply_parts. do 2 eexists. split; [reflexivity | ring].
Qed.

Lemma has_gain_div (x y : complex) (g h : R) :
  has_gain x g -> has_gain y h -> h <> 0 -> has_gain (complexDivide x y) (g / h).
Proof.
  intros [a1 [a2 [-> <-]]] [b1 [b2 [-> <-]]] Hh.
  rewrite complexDivide_parts by exact Hh.
  do 2 eexists. split; [reflexivity | field; exact Hh].
Qed.

Lemma has_gain_quadratic (z o w : R) :
  has_gain (quadratic (fin z) (fin o) (mkComplex (fin 0) (fin w)))
    (quadratic_gain z o w).
Proof.
  rewrite WeightingProofs.quadratic_at. do 2 eexists.
  split; [reflexivity | unfold quadratic_gain; ring].
Qed.

Lemma quadratic_gain_pos (z o w : R) : 0 < z -> 0 < o -> 0 < quadratic_gain z o w.
Proof.
  intros Hz Ho.
  pose proof (WeightingProofs.quadratic_magnitude_nonzero z o w Hz Ho) as Hne.
  cbv zeta in Hne.
  assert (E : quadratic_gain z o w
              = (0 * 0 - w * w + (2 * z * o * 0 - 0 * w) + o ^ 2)
                * (0 * 0 - w * w + (2 * z * o * 0 - 0 * w) + o ^ 2)
                + (0 * w + w * 0 + (2 * z * o * w + 0 * 0) + 0)
                  * (0 * w + w * 0 + (2 * z * o * w + 0 * 0) + 0))
    by (unfold quadratic_gain; ring).
  assert (0 <= quadratic_gain z o w).
  { unfold quadratic_gain. apply Rplus_le_le_0_compat; apply pow2_ge_0. }
  rewrite <- E in Hne. lra.
Qed.

Lemma Hh_has_gain (w : R) : has_gain (Hh (mkComplex (fin 0) (fin w))) (Hh_gain w).
Proof.
  unfold Hh, Hh_gain. rewrite WeightingProofs.zeta1_fin. unfold omega1.
  rewrite WeightingProofs.omega_fin.
  apply has_gain_div.
  - rewrite complexMultiply_parts. do 2 eexists. split; [reflexivity | ring].
  - apply has_gain_quadratic.
  - apply Rgt_not_eq, quadratic_gain_pos;
      [exact WeightingProofs.zeta_sqrt2_pos | apply WeightingProofs.omega_pos; lra].
Qed.

Lemma Hl_has_gain (w : R) : has_gain (Hl (mkComplex (fin 0) (fin w))) (Hl_gain w).
Proof.
  unfold Hl, Hl_gain. rewrite WeightingProofs.zeta2_fin. unfold omega2.
  rewrite WeightingProofs.omega_fin.
  apply has_gain_div.
  - unfold re. cbn [pow lift1 fin]. do 2 eexists. split; [reflexivity | ring].
  - apply has_gain_quadratic.
  - apply Rgt_not_eq, quadratic_gain_pos;
      [exact WeightingProofs.zeta_sqrt2_pos | apply WeightingProofs.omega_pos; lra].
Qed.

Lemma Ht_has_gain (w : R) : has_gain (Ht (mkComplex (fin 0) (fin w))) (Ht_gain w).
Proof.
  unfold Ht, Ht_gain, zeta4, omega4, omega3. rewrite !WeightingProofs.omega_fin.
  assert (H3 : 2 * PI * 3.5 <> 0)
    by (pose proof (WeightingProofs.omega_pos 3.5); lra).
  apply has_gain_div.
  - unfold re. cbn [pow lift1 fin]. fold (fin ((2 * PI * 0.25) ^ 2)).
    rewrite div_fin by exact H3.
    unfold complexAdd. rewrite complexMultiply_parts. cbn [real imag].
    js_simpl. do 2 eexists. split; [reflexivity | ring].
  - apply has_gain_quadratic.
  - apply Rgt_not_eq, quadratic_gain_pos; [lra | apply WeightingProofs.omega_pos; lra].
Qed.

Lemma Hs_has_gain (w : R) : has_gain (Hs (mkComplex (fin 0) (fin w))) (Hs_gain w).
Proof.
  unfold Hs, Hs_gain, zeta5, zeta6, omega5, omega6.
  rewrite !WeightingProofs.omega_fin.
  apply has_gain_div.
  - apply has_gain_quadratic.
  - apply has_gain_quadratic.
  - apply Rgt_not_eq, quadratic_gain_pos; [lra | apply WeightingProofs.omega_pos; lra].
Qed.

(** The value computed at one frequency is the gain times the PSD value. *)
Lemma weightAt_gain (PSD : list num) (w x : R) (i : nat) :
  nth i PSD None = fin x ->
  weightAt PSD (fin w) (Z.of_nat i) = fin (wf_gain w * x).
Proof.
  intro Hx. unfold weightAt.
  destruct (has_gain_mul _ _ _ _
              (has_gain_mul _ _ _ _ (Hh_has_gain w) (Hl_has_gain w))
              (has_gain_mul _ _ _ _ (Ht_has_gain w) (Hs_has_gain w)))
    as [a [b [-> Hg]]].
  rewrite complexAbs_parts.
  assert (Hat : at_index PSD (Z.of_nat i) = fin x).
  { unfold at_index. destruct (Z.ltb_spec (Z.of_nat i) 0); [lia|].
    now rewrite Nat2Z.id. }
  rewrite Hat. js_simpl. apply f_equal. unfold wf_gain. rewrite <- Hg.
  cbn [Rpow_def.pow]. rewrite Rmult_1_r, sqrt_sqrt by nra. reflexivity.
Qed.

Lemma gain_nonneg (w : R) :
  0 <= Hh_gain w /\ 0 < Hl_gain w /\ 0 < Ht_gain w /\ 0 < Hs_gain w.
Proof.
  pose proof WeightingProofs.zeta_sqrt2_pos as Hz.
  pose proof (quadratic_gain_pos _ _ w Hz (WeightingProofs.omega_pos 0.08 ltac:(lra))).
  pose proof (quadratic_gain_pos _ _ w Hz (WeightingProofs.omega_pos 0.63 ltac:(lra))).
  pose proof (quadratic_gain_pos 0.86 _ w ltac:(lra)
                (WeightingProofs.omega_pos 0.25 ltac:(lra))).
  pose proof (quadratic_gain_pos 0.80 _ w ltac:(lra)
                (WeightingProofs.omega_pos 0.06 ltac:(lra))).
  pose proof (quadratic_gain_pos 0.80 _ w ltac:(lra)
                (WeightingProofs.omega_pos 0.10 ltac:(lra))).
  pose proof (WeightingProofs.omega_pos 0.63 ltac:(lra)) as H63.
  pose proof (WeightingProofs.omega_pos 0.25 ltac:(lra)) as H25.
  unfold Hh_gain, Hl_gain, Ht_gain, Hs_gain.
  split; [|split; [|split]].
  - apply Rmult_le_pos; [|left; now apply Rinv_0_lt_compat].
    replace (w ^ 4) with ((w ^ 2) ^ 2) by ring. apply pow2_ge_0.
  - apply Rdiv_lt_0_compat; [apply pow_lt; exact H63 | assumption].
  - apply Rdiv_lt_0_compat; [|assumption].
    assert (0 < (2 * PI * 0.25) ^ 4) by (apply pow_lt; exact H25).
    assert (0 <= ((2 * PI * 0.25) ^ 2 / (2 * PI * 3.5)) ^ 2 * w ^ 2)
      by (apply Rmult_le_pos; apply pow2_ge_0).
    lra.
  - apply Rdiv_lt_0_compat; assumption.
Qed.

Lemma wf_gain_nonneg (w : R) : 0 <= wf_gain w.
Proof.
  destruct (gain_nonneg w) as [H1 [H2 [H3 H4]]]. unfold wf_gain.
  apply Rmult_le_pos; [apply Rmult_le_pos; lra|].
  apply Rmult_le_pos; lra.
Qed.




End GainProofs.

(** ** The stages of the PSD pipeline *)

Module StageProofs.
Import JsR JsRFacts PowerSpectralDensity Reference Gain.
Import InterpolationProofs.
Local Open Scope R_scope.

Lemma at_index_nth (l : list num) (i : nat) : at_index l (Z.of_nat i) = nth i l None.
Proof.
  unfold at_index. destruct (Z.ltb_spec (Z.of_nat i) 0); [lia|].
  now rewrite Nat2Z.id.
Qed.

Lemma nth_fin_lt (l : list num) (i : nat) (x : R) :
  nth i l None = fin x -> (i < List.length l)%nat.
Proof.
  intro H. destruct (Nat.lt_ge_cases i (List.length l)) as [Hlt|Hge]; [exact Hlt|].
  rewrite nth_overflow in H by exact Hge. discriminate.
Qed.

Lemma mapi_length {A B : Type} (f : A -> Z -> B) (l : list A) :
  List.length (mapi f l) = List.length l.
Proof. apply mapi_from_length. Qed.

Lemma nth_map_seq (f : nat -> R) (n i : nat) :
  (i < n)%nat -> nth i (map f (seq 0 n)) 0 = f i.
Proof.
  intro Hi. rewrite (nth_indep _ 0 (f 0%nat)) by (now rewrite length_map, length_seq).
  rewrite (map_nth f), seq_nth by exact Hi. reflexivity.
Qed.

(** *** Interpolation *)

(** A query above the first knot and not above the knot [m] lies in one of
    the intervals below [m]. *)
Lemma bracket (xs : list R) (q : R) :
  forall m, nth 0 xs 0 < q -> q <= nth m xs 0 ->
    exists k, (S k <= m)%nat /\ nth k xs 0 < q /\ q <= nth (S k) xs 0.
Proof.
  induction m as [|m IH]; intros Hlo Hhi; [lra|].
  destruct (Rle_dec q (nth m xs 0)) as [Hle|Hgt].
  - destruct (IH Hlo Hle) as [k [Hk Hq]]. exists k. split; [lia | exact Hq].
  - exists m. split; [lia|]. split; lra.
Qed.

(** Between two knots the line stays between the two knot values. *)
Lemma line_between (x0 y0 x1 y1 q lo hi : R) :
  x0 < q -> q <= x1 -> lo <= y0 <= hi -> lo <= y1 <= hi ->
  lo <= line x0 y0 x1 y1 q <= hi.
Proof.
  intros Hq0 Hq1 Hy0 Hy1.
  set (t := (q - x0) / (x1 - x0)).
  assert (Ht : 0 <= t <= 1).
  { unfold t. split.
    - apply Rmult_le_pos; [lra | left; apply Rinv_0_lt_compat; lra].
    - apply Rmult_le_reg_r with (x1 - x0); [lra|].
      unfold Rdiv. rewrite Rmult_assoc, Rinv_l by lra. lra. }
  assert (E : line x0 y0 x1 y1 q = y0 + t * (y1 - y0)).
  { unfold line, t. field. lra. }
  rewrite E. split; nra.
Qed.

Lemma interpolateAt_bounded (xs ys : list R) (lo hi q : R) :
  increasing xs -> (0 < List.length xs)%nat -> List.length ys = List.length xs ->
  (forall i, (i < List.length ys)%nat -> lo <= nth i ys 0 <= hi) ->
  exists v, interpolateAt (map fin xs) (map fin ys) (fin q) = fin v /\ lo <= v <= hi.
Proof.
  intros Hinc Hn Hlen Hb.
  destruct (Rle_dec q (nth 0 xs 0)) as [H0|H0].
  - exists (nth 0 ys 0). split; [now apply interpolateAt_first | apply Hb; lia].
  - destruct (Rlt_dec (nth (List.length xs - 1) xs 0) q) as [H1|H1].
    + exists (nth (List.length xs - 1) ys 0).
      split; [now apply interpolateAt_above | apply Hb; lia].
    + destruct (bracket xs q (List.length xs - 1)) as [k [Hk [Hq0 Hq1]]]; [lra | lra |].
      exists (line (nth k xs 0) (nth k ys 0) (nth (S k) xs 0) (nth (S k) ys 0) q).
      split.
      * apply interpolateAt_between; [assumption | assumption | lia | lra | lra].
      * apply line_between; [lra | lra | apply Hb; lia | apply Hb; lia].
Qed.

(** *** Displacement and acceleration PSDs *)

Lemma displacement_at (heaveAmp pitchAmp heavePhase pitchPhase waveSpec : list num)
    (i : nat) (ah ap ph pp S : R) :
  nth i heaveAmp None = fin ah -> nth i pitchAmp None = fin ap ->
  nth i heavePhase None = fin ph -> nth i pitchPhase None = fin pp ->
  nth i waveSpec None = fin S ->
  let d := calculateDisplacementPSDs heaveAmp pitchAmp heavePhase pitchPhase waveSpec in
  nth i (heavePSD_unw d) None = fin (ah ^ 2 * S) /\
  nth i (pitchPSD_unw d) None = fin (ap ^ 2 * S) /\
  nth i (crossPSD_unw d) None
  = fin (ah * ap * Rtrigo_def.cos (ph * PI / 180 - pp * PI / 180) * S).
Proof.
  intros Hah Hap Hph Hpp HS d. subst d. unfold calculateDisplacementPSDs.
  cbn [heavePSD_unw pitchPSD_unw crossPSD_unw].
  pose proof (nth_fin_lt _ _ _ Hah) as Lh.
  pose proof (nth_fin_lt _ _ _ Hap) as Lp.
  pose proof (nth_fin_lt _ _ _ Hph) as Lph.
  pose proof (nth_fin_lt _ _ _ Hpp) as Lpp.
  rewrite !(mapi_nth (A:=num) (B:=num) _ _ None None) by assumption.
  rewrite !at_index_nth, Hah, Hap, HS.
  assert (Rad : forall (l : list num) (x : R),
             nth i l None = fin x ->
             nth i (map (fun phase => (phase * fin PI / fin 180)%js) l) None
             = fin (x * PI / 180)).
  { intros l x Hx. pose proof (nth_fin_lt _ _ _ Hx) as Hl.
    rewrite (nth_indep _ None ((fun phase => (phase * fin PI / fin 180)%js) None))
      by (now rewrite length_map).
    rewrite (map_nth (fun phase => (phase * fin PI / fin 180)%js)), Hx.
    js_simpl. apply div_some. lra. }
  rewrite (Rad _ _ Hph), (Rad _ _ Hpp).
  repeat split.
Qed.



Lemma acceleration_at (freqRAO : list num) (d : DisplacementPSDs)
    (i : nat) (f H P C : R) :
  nth i freqRAO None = fin f ->
  nth i (heavePSD_unw d) None = fin H ->
  nth i (pitchPSD_unw d) None = fin P ->
  nth i (crossPSD_unw d) None = fin C ->
  let acc := convertToAccelerationPSDs freqRAO d in
  nth i (accHeavePSD acc) None = fin (H * (2 * PI * f) ^ 4) /\
  nth i (accPitchPSD acc) None = fin (P * f ^ 4) /\
  nth i (accCrossPSD acc) None = fin (C * f ^ 4).
Proof.
  intros Hf HH HP HC acc. subst acc. unfold convertToAccelerationPSDs.
  cbn [accHeavePSD accPitchPSD accCrossPSD].
  pose proof (nth_fin_lt _ _ _ HH). pose proof (nth_fin_lt _ _ _ HP).
  pose proof (nth_fin_lt _ _ _ HC).
  rewrite !(mapi_nth (A:=num) (B:=num) _ _ None None) by assumption.
  rewrite !at_index_nth, Hf, HH, HP, HC. repeat split.
Qed.

(** *** Vertical motion *)

Lemma obj_set_keys {K V : Type} (eqb : K -> K -> bool) (o : list (K * V))
    (k : K) (v : V) :
  (forall a b, eqb a b = true <-> a = b) ->
  forall x, In x (map fst (obj_set eqb o k v)) <-> x = k \/ In x (map fst o).
Proof.
  intros Heq x. induction o as [|[k' v'] o IH]; cbn [obj_set map fst In].
  - intuition.
  - destruct (eqb k' k) eqn:E; cbn [map fst In].
    + apply Heq in E. subst k'. intuition.
    + rewrite IH. intuition.
Qed.

Lemma obj_set_NoDup {K V : Type} (eqb : K -> K -> bool) (o : list (K * V))
    (k : K) (v : V) :
  (forall a b, eqb a b = true <-> a = b) ->
  NoDup (map fst o) -> NoDup (map fst (obj_set eqb o k v)).
Proof.
  intros Heq. induction o as [|[k' v'] o IH]; intro Hnd; cbn [obj_set map fst].
  - repeat constructor. intros [].
  - inversion Hnd as [|? ? Hnotin Hnd']; subst.
    destruct (eqb k' k) eqn:E; cbn [map fst].
    + constructor; assumption.
    + constructor; [|now apply IH].
      intro Hin. apply (obj_set_keys eqb o k v Heq) in Hin.
      destruct Hin as [->|Hin]; [|contradiction].
      rewrite (proj2 (Heq k k) eq_refl) in E. discriminate.
Qed.

Section Fold.
Context {V : Type} (g : R -> V).

Lemma positions_fold (Ls : list R) :
  forall acc : list (R * V),
    NoDup (map fst acc) ->
    let o := fold_left (fun o L => obj_set pos_eqb o L (g L)) Ls acc in
    NoDup (map fst o) /\
    forall L,
      (In L Ls -> obj_get pos_eqb o L = Some (g L)) /\
      (~ In L Ls -> obj_get pos_eqb o L = obj_get pos_eqb acc L).
Proof.
  induction Ls as [|L0 Ls IH]; intros acc Hnd; cbn [fold_left].
  - split; [exact Hnd|]. intro L. split; [intros [] | reflexivity].
  - destruct (IH (obj_set pos_eqb acc L0 (g L0))
                (obj_set_NoDup pos_eqb acc L0 (g L0) DoseProofs.pos_eqb_eq Hnd))
      as [Hnd' Hget].
    split; [exact Hnd'|]. intro L. destruct (Hget L) as [G1 G2]. split.
    + intros [->|Hin].
      * destruct (in_dec Req_dec_T L Ls) as [Hin|Hnin]; [now apply G1|].
        rewrite (G2 Hnin).
        apply (obj_get_set_same pos_eqb DoseProofs.pos_eqb_eq).
      * now apply G1.
    + intro Hnin. rewrite G2 by (intro; apply Hnin; now right).
      apply (obj_get_set_other pos_eqb DoseProofs.pos_eqb_eq).
      intro E. apply Hnin. now left.
Qed.

Lemma positions_keys (Ls : list R) :
  forall (acc : list (R * V)) (L : R),
    In L (map fst (fold_left (fun o L => obj_set pos_eqb o L (g L)) Ls acc))
    <-> In L Ls \/ In L (map fst acc).
Proof.
  induction Ls as [|L0 Ls IH]; intros acc L; cbn [fold_left].
  - cbn. tauto.
  - rewrite IH, (obj_set_keys pos_eqb acc L0 (g L0) DoseProofs.pos_eqb_eq).
    cbn [In]. intuition.
Qed.

End Fold.

Lemma vertical_nonneg (L H P C : R) :
  0 <= H -> 0 <= P -> C ^ 2 <= H * P -> 0 <= vertical L H P C.
Proof.
  intros HH HP HC. unfold vertical.
  destruct (Req_dec_T P 0) as [->|Hne].
  - assert (C = 0) by nra. subst C. nra.
  - assert (HPpos : 0 < P) by lra.
    assert (Hsq : 0 <= (L * P + C) ^ 2) by apply pow2_ge_0.
    assert (Hmul : 0 <= P * (H + L ^ 2 * P + 2 * L * C)) by nra.
    destruct (Rle_dec 0 (H + L ^ 2 * P + 2 * L * C)) as [Hok|Hneg]; [exact Hok|].
    exfalso. assert (P * (H + L ^ 2 * P + 2 * L * C) < 0) by nra. lra.
Qed.

Lemma vertical_series (L : R) (hs ps cs : list R) :
  List.length ps = List.length hs -> List.length cs = List.length hs ->
  mapi
    (fun heave i =>
       (heave + pow (fin L) 2 * at_index (map fin ps) i
        + fin 2 * fin L * at_index (map fin cs) i)%js)
    (map fin hs)
  = map fin
      (map (fun i => vertical L (nth i hs 0) (nth i ps 0) (nth i cs 0))
         (seq 0 (List.length hs))).
Proof.
  intros Lp Lc. apply (nth_ext _ _ None None).
  - now rewrite mapi_length, !length_map, length_seq.
  - intros i Hi. rewrite mapi_length, length_map in Hi.
    rewrite (mapi_nth (A:=num) (B:=num) _ _ None None) by (now rewrite length_map).
    rewrite !at_index_nth.
    rewrite (nth_fin hs), (nth_fin ps), (nth_fin cs) by lia.
    rewrite nth_fin by (now rewrite length_map, length_seq).
    rewrite nth_map_seq by exact Hi.
    js_simpl. unfold vertical. apply f_equal. ring.
Qed.

(** X16: [calculateVerticalMotionPSD] gives every listed position [L], and no
    other, one series, as long as the heave series, whose value at each
    frequency is [heave + L^2 pitch + 2 L cross]; a position listed twice
    has one entry, and the position 0 gets the heave series itself. *)
Theorem vertical_motion_psd (L_positions : list R) (hs ps cs : list R) (L : R) :
  List.length ps = List.length hs -> List.length cs = List.length hs ->
  let o := calculateVerticalMotionPSD L_positions (map fin hs) (map fin ps)
             (map fin cs) in
  let S_yy :=
    map (fun i => nth i hs 0 + L ^ 2 * nth i ps 0 + 2 * L * nth i cs 0)
      (seq 0 (List.length hs)) in
  NoDup (map fst o) /\
  (forall L', In L' (map fst o) <-> In L' L_positions) /\
  (In L L_positions -> obj_get pos_eqb o L = Some (map fin S_yy)) /\
  (~ In L L_positions -> obj_get pos_eqb o L = None) /\
  List.length S_yy = List.length hs /\
  (L = 0 -> S_yy = hs).
Proof.
  intros Lp Lc o S_yy. subst o. unfold calculateVerticalMotionPSD.
  destruct (positions_fold
              (fun L =>
                 mapi
                   (fun heave i =>
                      (heave + pow (fin L) 2 * at_index (map fin ps) i
                       + fin 2 * fin L * at_index (map fin cs) i)%js)
                   (map fin hs))
              L_positions [] (NoDup_nil _)) as [Hnd Hget].
  destruct (Hget L) as [G1 G2].
  split; [exact Hnd|]. split; [|split; [|split; [|split]]].
  - intro L'.
    destruct (positions_keys
                (fun L =>
                   mapi
                     (fun heave i =>
                        (heave + pow (fin L) 2 * at_index (map fin ps) i
                         + fin 2 * fin L * at_index (map fin cs) i)%js)
                     (map fin hs))
                L_positions [] L') as [K1 K2].
    split; intro H.
    + destruct (K1 H) as [H'|[]]. exact H'.
    + apply K2. now left.
  - intro Hin. rewrite (G1 Hin). f_equal.
    rewrite vertical_series by assumption. reflexivity.
  - intro Hnin. now rewrite (G2 Hnin).
  - subst S_yy. now rewrite length_map, length_seq.
  - intros ->. subst S_yy. apply (nth_ext _ _ 0 0).
    + now rewrite length_map, length_seq.
    + intros i Hi. rewrite length_map, length_seq in Hi.
      rewrite nth_map_seq by exact Hi. ring.
Qed.

Lemma vertical_motion_psd_witness :
  obj_get pos_eqb
    (calculateVerticalMotionPSD [10; 0] (map fin [4; 1]) (map fin [1; 1])
       (map fin [-2; 1])) 0
  = Some (map fin
            (map (fun i => nth i [4; 1] 0 + 0 ^ 2 * nth i [1; 1] 0
                           + 2 * 0 * nth i [-2; 1] 0) (seq 0 2))).
Proof.
  apply (vertical_motion_psd [10; 0] [4; 1] [1; 1] [-2; 1] 0);
    [reflexivity | reflexivity | right; now left].
Defined.

End StageProofs.

(** ** Doses, and the pipeline from the spectrum to the doses *)

Module PipelineProofs.
Import JsR JsRFacts PowerSpectralDensity Reference Gain.
Import StageProofs.
Local Open Scope R_scope.

Lemma trapezoid_upto_nonneg (xs ys : list R) (m : nat) :
  (forall i, (S i <= m)%nat -> nth i xs 0 <= nth (S i) xs 0) ->
  (forall i, (i <= m)%nat -> 0 <= nth i ys 0) ->
  0 <= trapezoid_upto xs ys m.
Proof.
  induction m as [|m IH]; intros Hx Hy; cbn [trapezoid_upto]; [lra|].
  specialize (IH ltac:(intros; apply Hx; lia) ltac:(intros; apply Hy; lia)).
  pose proof (Hx m ltac:(lia)). pose proof (Hy m ltac:(lia)).
  pose proof (Hy (S m) ltac:(lia)).
  assert (0 <= (nth (S m) ys 0 + nth m ys 0) / 2 * (nth (S m) xs 0 - nth m xs 0))
    by (apply Rmult_le_pos; lra).
  lra.
Qed.


Lemma nth_nonneg (l : list R) :
  (forall i, (i < List.length l)%nat -> 0 <= nth i l 0) ->
  forall i, 0 <= nth i l 0.
Proof.
  intros H i. destruct (Nat.lt_ge_cases i (List.length l)) as [Hlt|Hge].
  - now apply H.
  - rewrite nth_overflow by exact Hge. lra.
Qed.

Lemma trapezoid_nonneg (fs ss : list R) :
  (forall i, (S i < List.length fs)%nat -> nth i fs 0 <= nth (S i) fs 0) ->
  (forall i, (i < List.length ss)%nat -> 0 <= nth i ss 0) ->
  0 <= trapezoid fs ss.
Proof.
  intros Hf Hs. unfold trapezoid. apply trapezoid_upto_nonneg.
  - intros i Hi. apply Hf. lia.
  - intros i _. now apply nth_nonneg.
Qed.



(** *** From the tables and the spectrum to the weighted series *)

Lemma list_upper_bound (ys : list R) :
  exists hi, forall i, (i < List.length ys)%nat -> nth i ys 0 <= hi.
Proof.
  induction ys as [|y ys [hi H]].
  - exists 0. intros i Hi. cbn in Hi. lia.
  - exists (Rmax y hi). intros [|i] Hi; cbn [nth].
    + apply Rmax_l.
    + eapply Rle_trans; [apply H; cbn in Hi; lia | apply Rmax_r].
Qed.

Lemma interpolate_nonneg (xs ys qs : list R) :
  increasing xs -> (0 < List.length xs)%nat -> List.length ys = List.length xs ->
  (forall i, (i < List.length ys)%nat -> 0 <= nth i ys 0) ->
  exists vs,
    interpolateWaveSpectrum (map fin xs) (map fin ys) (map fin qs) = map fin vs /\
    List.length vs = List.length qs /\
    forall j, 0 <= nth j vs 0.
Proof.
  intros Hinc Hn Hlen Hpos.
  destruct (list_upper_bound ys) as [hi Hhi].
  assert (Hb : forall i, (i < List.length ys)%nat -> 0 <= nth i ys 0 <= hi)
    by (intros i Hi; split; [now apply Hpos | now apply Hhi]).
  unfold interpolateWaveSpectrum. induction qs as [|q qs IH].
  - exists []. split; [reflexivity|]. split; [reflexivity|].
    intros [|j']; cbn; lra.
  - destruct IH as [vs [E [L B]]].
    destruct (interpolateAt_bounded xs ys 0 hi q Hinc Hn Hlen Hb) as [v [Ev Bv]].
    exists (v :: vs). cbn [map]. rewrite Ev, E. split; [reflexivity|].
    split; [cbn; now rewrite L|].
    intros [|j']; cbn [nth]; [lra | apply B].
Qed.

(** The weighting of a series whose values at the frequencies are finite. *)
Lemma weighting_series (PSD : list num) (fs : list R) (x : nat -> R) :
  (forall i, (i < List.length fs)%nat -> nth i PSD None = fin (x i)) ->
  applyWfWeighting (map fin fs) PSD
  = map fin (map (fun i => wf_gain (nth i fs 0) * x i) (seq 0 (List.length fs))).
Proof.
  intro Hx. apply (nth_ext _ _ None None).
  - unfold applyWfWeighting. now rewrite mapi_length, !length_map, length_seq.
  - intros i Hi. unfold applyWfWeighting in Hi |- *.
    rewrite mapi_length, length_map in Hi.
    rewrite (mapi_nth (A:=num) (B:=num) _ _ None None) by (now rewrite length_map).
    rewrite (nth_fin fs) by exact Hi.
    rewrite (GainProofs.weightAt_gain _ _ (x i)) by (now apply Hx).
    rewrite nth_fin by (now rewrite length_map, length_seq).
    now rewrite nth_map_seq.
Qed.

Lemma weighted_series (hA pA hP pP wS : list num) (fs : list R)
    (ah ap ph pp S : nat -> R) :
  (forall i, (i < List.length fs)%nat -> nth i hA None = fin (ah i)) ->
  (forall i, (i < List.length fs)%nat -> nth i pA None = fin (ap i)) ->
  (forall i, (i < List.length fs)%nat -> nth i hP None = fin (ph i)) ->
  (forall i, (i < List.length fs)%nat -> nth i pP None = fin (pp i)) ->
  (forall i, (i < List.length fs)%nat -> nth i wS None = fin (S i)) ->
  let acc :=
    convertToAccelerationPSDs (map fin fs)
      (calculateDisplacementPSDs hA pA hP pP wS) in
  applyWfWeighting (map fin fs) (accHeavePSD acc)
  = map fin
      (map (fun i => wf_gain (nth i fs 0)
                     * (ah i ^ 2 * S i * (2 * PI * nth i fs 0) ^ 4))
         (seq 0 (List.length fs))) /\
  applyWfWeighting (map fin fs) (accPitchPSD acc)
  = map fin
      (map (fun i => wf_gain (nth i fs 0) * (ap i ^ 2 * S i * nth i fs 0 ^ 4))
         (seq 0 (List.length fs))) /\
  applyWfWeighting (map fin fs) (accCrossPSD acc)
  = map fin
      (map (fun i => wf_gain (nth i fs 0)
                     * (ah i * ap i
                        * Rtrigo_def.cos (ph i * PI / 180 - pp i * PI / 180)
                        * S i * nth i fs 0 ^ 4))
         (seq 0 (List.length fs))).
Proof.
  intros Hah Hap Hph Hpp HS acc.
  assert (Hat : forall i, (i < List.length fs)%nat ->
            nth i (accHeavePSD acc) None
            = fin (ah i ^ 2 * S i * (2 * PI * nth i fs 0) ^ 4) /\
            nth i (accPitchPSD acc) None = fin (ap i ^ 2 * S i * nth i fs 0 ^ 4) /\
            nth i (accCrossPSD acc) None
            = fin (ah i * ap i
                   * Rtrigo_def.cos (ph i * PI / 180 - pp i * PI / 180)
                   * S i * nth i fs 0 ^ 4)).
  { intros i Hi.
    destruct (displacement_at hA pA hP pP wS i _ _ _ _ _
                (Hah i Hi) (Hap i Hi) (Hph i Hi) (Hpp i Hi) (HS i Hi))
      as [D1 [D2 D3]].
    apply (acceleration_at (map fin fs) _ i (nth i fs 0));
      [now apply nth_fin | exact D1 | exact D2 | exact D3]. }
  split; [|split]; apply weighting_series; intros i Hi; now apply Hat.
Qed.

(** The three weighted values at one frequency are those of a PSD matrix:
    the heave and pitch values are not negative and bound the cross value. *)
Lemma weighted_cauchy (G ah ap c S f : R) :
  0 <= G -> 0 <= S -> -1 <= c <= 1 ->
  0 <= G * (ah ^ 2 * S * (2 * PI * f) ^ 4) /\
  0 <= G * (ap ^ 2 * S * f ^ 4) /\
  (G * (ah * ap * c * S * f ^ 4)) ^ 2
  <= G * (ah ^ 2 * S * (2 * PI * f) ^ 4) * (G * (ap ^ 2 * S * f ^ 4)).
Proof.
  intros HG HS Hc.
  assert (Ha : 0 <= ah ^ 2) by apply pow2_ge_0.
  assert (Hb : 0 <= ap ^ 2) by apply pow2_ge_0.
  assert (Hf4 : 0 <= f ^ 4)
    by (replace (f ^ 4) with ((f ^ 2) ^ 2) by ring; apply pow2_ge_0).
  assert (Hpf : 0 <= (2 * PI * f) ^ 4)
    by (replace ((2 * PI * f) ^ 4) with (((2 * PI * f) ^ 2) ^ 2) by ring;
        apply pow2_ge_0).
  split; [|split].
  - apply Rmult_le_pos; [exact HG|].
    apply Rmult_le_pos; [now apply Rmult_le_pos | exact Hpf].
  - apply Rmult_le_pos; [exact HG|].
    apply Rmult_le_pos; [now apply Rmult_le_pos | exact Hf4].
  - set (X := (G * S * f ^ 4) ^ 2 * (ah ^ 2 * ap ^ 2)).
    assert (HX : 0 <= X) by (apply Rmult_le_pos; [apply pow2_ge_0 | nra]).
    assert (Hpi : 1 <= (2 * PI) ^ 4).
    { pose proof SpectrumProofs.PI_gt_3 as P3.
      assert (1 <= (2 * PI) ^ 2) by nra.
      replace ((2 * PI) ^ 4) with ((2 * PI) ^ 2 * (2 * PI) ^ 2) by ring. nra. }
    assert (Hc2 : c ^ 2 <= 1) by nra.
    replace ((G * (ah * ap * c * S * f ^ 4)) ^ 2) with (c ^ 2 * X)
      by (unfold X; ring).
    replace (G * (ah ^ 2 * S * (2 * PI * f) ^ 4) * (G * (ap ^ 2 * S * f ^ 4)))
      with ((2 * PI) ^ 4 * X) by (unfold X; ring).
    nra.
Qed.

(** *** The tables as series of real numbers *)

Lemma Q2R_zero : Q2R 0 = 0.
Proof. unfold Q2R. cbn. lra. Qed.

Lemma of_table_fin (l : list Q) : of_table l = map fin (map Q2R l).
Proof. unfold of_table. now rewrite map_map. Qed.

Lemma nth_Q2R (l : list Q) (i : nat) : nth i (map Q2R l) 0 = Q2R (nth i l 0%Q).
Proof.
  replace (nth i (map Q2R l) 0) with (nth i (map Q2R l) (Q2R 0))
    by (f_equal; apply Q2R_zero).
  apply (map_nth Q2R).
Qed.

Lemma of_table_nth (l : list Q) (i : nat) :
  (i < List.length l)%nat ->
  nth i (of_table l) None = fin (nth i (map Q2R l) 0).
Proof.
  intro Hi. rewrite of_table_fin. apply nth_fin. now rewrite length_map.
Qed.

(** A table that was loaded has three arrays of one length, with the
    frequencies in ascending order. *)
Lemma table_shape (parseFloat Number : string -> RAOVisualizer.qnum)
    (fetch : RAOVisualizer.dof -> Z -> option string) (type : RAOVisualizer.dof)
    (speed heading : Q) (r : RAOVisualizer.RAOData) :
  RAOVisualizer.loadRAOFile parseFloat Number fetch type speed heading = Some r ->
  List.length (RAOVisualizer.amplitudes r) = List.length (RAOVisualizer.periods r) /\
  List.length (RAOVisualizer.phases r) = List.length (RAOVisualizer.periods r) /\
  forall i, (S i < List.length (RAOVisualizer.periods r))%nat ->
    nth i (map Q2R (RAOVisualizer.periods r)) 0
    <= nth (S i) (map Q2R (RAOVisualizer.periods r)) 0.
Proof.
  unfold RAOVisualizer.loadRAOFile.
  destruct (fetch type (RAOVisualizer.findNearestSpeedFolder speed)) as [text|];
    [|discriminate].
  intro Hr. rewrite (TableProofs.parse_result _ _ _ _ _ Hr).
  cbn [RAOVisualizer.periods RAOVisualizer.amplitudes RAOVisualizer.phases].
  rewrite !length_map. split; [reflexivity|]. split; [reflexivity|].
  intros i Hi. rewrite !nth_Q2R. apply Qle_Rle.
  apply UnwrapProofs.ascending_nth; [|now rewrite length_map].
  apply (TableProofs.sort_by_ascending
           (fun i => nth i (RAOVisualizer.r_periods _) 0%Q)).
Qed.

(** The spectrum left by [update] for a positive height and period. *)
Lemma ready_spectrum (Hs Tp : R) :
  0 < Hs -> 0 < Tp ->
  exists ys,
    SpectrumState.getSpectrum (SpectrumState.update (fin Hs) (fin Tp))
    = mkSpectrum (map fin grid) (map fin ys) /\
    List.length ys = List.length grid /\
    forall i, (i < List.length ys)%nat -> 0 <= nth i ys 0.
Proof.
  intros HHs HTp.
  destruct (SpectrumProofs.alpha_loop_result Hs Tp HHs HTp 50 0.0081 ltac:(lra))
    as [alpha [k [Hpos [Heq _]]]].
  exists (map (jonswap alpha Tp 3.3 9.81) grid).
  split; [|split].
  - unfold SpectrumState.getSpectrum, SpectrumState.update. f_equal.
    + rewrite StateProofs.calculateSpectrum_frequencies.
      apply SpectrumProofs.omega_grid_is_grid.
    + unfold JonswapSpectrum.calculateSpectrum,
        JonswapSpectrum.calculateAlphaIterative, JonswapSpectrum.maxIter.
      rewrite Heq, SpectrumProofs.omega_grid_is_grid, !map_map. cbn [snd].
      apply map_ext_in. intros w Hw.
      apply SpectrumProofs.spectralDensity_jonswap;
        [exact HTp | lra | now apply SpectrumProofs.grid_In_pos].
  - now rewrite length_map.
  - intros i Hi. rewrite length_map in Hi.
    rewrite (nth_indep _ 0 (jonswap alpha Tp 3.3 9.81 0)) by (now rewrite length_map).
    rewrite (map_nth (jonswap alpha Tp 3.3 9.81)). left.
    apply SpectrumProofs.jonswap_pos; [exact Hpos | lra |].
    apply SpectrumProofs.grid_pos. now rewrite <- SpectrumProofs.grid_length.
Qed.

(** *** The whole pipeline *)

Section Pipeline.

Variable parseFloat : string -> RAOVisualizer.qnum.
Variable Number : string -> RAOVisualizer.qnum.
Variable fetch : RAOVisualizer.dof -> Z -> option string.

(** What [updatePSDs] returns for a finite wave spectrum with increasing
    frequencies and no negative density, once the two tables are loaded and
    the pitch table has a row for every row of the heave table. *)
Lemma pipeline_result (xs ys : list R) (sensor1 : option Spectrum)
    (hd pd : RAOVisualizer.RAOData) :
  RAOVisualizer.loadRAOFile parseFloat Number fetch RAOVisualizer.heave 0 0
  = Some hd ->
  RAOVisualizer.loadRAOFile parseFloat Number fetch RAOVisualizer.pitch 0 0
  = Some pd ->
  (List.length (RAOVisualizer.periods hd)
   <= List.length (RAOVisualizer.periods pd))%nat ->
  increasing xs -> (0 < List.length xs)%nat -> List.length ys = List.length xs ->
  (forall i, (i < List.length ys)%nat -> 0 <= nth i ys 0) ->
  exists whs wps wcs,
    List.length whs = List.length (RAOVisualizer.periods hd) /\
    List.length wps = List.length (RAOVisualizer.periods hd) /\
    List.length wcs = List.length (RAOVisualizer.periods hd) /\
    (forall i, (i < List.length (RAOVisualizer.periods hd))%nat ->
       0 <= nth i whs 0 /\ 0 <= nth i wps 0 /\
       nth i wcs 0 ^ 2 <= nth i whs 0 * nth i wps 0) /\
    updatePSDs parseFloat Number fetch (mkSpectrum (map fin xs) (map fin ys))
      sensor1
    = Some
        (mkResults (map fin whs) (map fin wps) (map fin wcs)
           (calculateVerticalMotionPSD shipPositions (map fin whs) (map fin wps)
              (map fin wcs))
           (calculateMSDV pos_eqb
              (calculateVerticalMotionPSD shipPositions (map fin whs)
                 (map fin wps) (map fin wcs))
              (map fin (map Q2R (RAOVisualizer.periods hd))))).
Proof.
  intros Hh Hp Hle Hinc Hn Hlen Hpos.
  destruct (table_shape _ _ _ _ _ _ _ Hh) as [HA [HP _]].
  destruct (table_shape _ _ _ _ _ _ _ Hp) as [PA [PP _]].
  set (fs := map Q2R (RAOVisualizer.periods hd)).
  assert (Lfs : List.length fs = List.length (RAOVisualizer.periods hd))
    by (unfold fs; now rewrite length_map).
  destruct (interpolate_nonneg xs ys fs Hinc Hn Hlen Hpos) as [vs [Ev [Lv Bv]]].
  destruct (weighted_series
              (of_table (RAOVisualizer.amplitudes hd))
              (of_table (RAOVisualizer.amplitudes pd))
              (of_table (RAOVisualizer.phases hd))
              (of_table (RAOVisualizer.phases pd))
              (map fin vs) fs
              (fun i => nth i (map Q2R (RAOVisualizer.amplitudes hd)) 0)
              (fun i => nth i (map Q2R (RAOVisualizer.amplitudes pd)) 0)
              (fun i => nth i (map Q2R (RAOVisualizer.phases hd)) 0)
              (fun i => nth i (map Q2R (RAOVisualizer.phases pd)) 0)
              (fun i => nth i vs 0)) as [W1 [W2 W3]].
  { intros i Hi. apply of_table_nth. lia. }
  { intros i Hi. apply of_table_nth. lia. }
  { intros i Hi. apply of_table_nth. lia. }
  { intros i Hi. apply of_table_nth. lia. }
  { intros i Hi. apply nth_fin. lia. }
  do 3 eexists.
  split; [|split; [|split; [|split]]]; cycle 4.
  - unfold updatePSDs. cbv zeta. cbn [frequencies spectralDensities].
    assert (N1 : is_nil (map fin xs) = false)
      by (apply StateProofs.is_nil_length; now rewrite length_map).
    assert (N2 : is_nil (map fin ys) = false)
      by (apply StateProofs.is_nil_length; rewrite length_map; lia).
    rewrite N1. cbn [frequencies spectralDensities]. rewrite N1, N2. cbn [orb].
    rewrite Hh, Hp. rewrite (of_table_fin (RAOVisualizer.periods hd)).
    fold fs. rewrite Ev, W1, W2, W3. reflexivity.
  - now rewrite length_map, length_seq.
  - now rewrite length_map, length_seq.
  - now rewrite length_map, length_seq.
  - intros i Hi. rewrite <- Lfs in Hi. rewrite !nth_map_seq by exact Hi.
    apply weighted_cauchy;
      [apply GainProofs.wf_gain_nonneg | apply Bv | apply COS_bound].
Qed.

(** The doses computed from weighted series that form a PSD matrix at every
    frequency of an ascending grid. *)
Lemma doses_from_weighted (fs whs wps wcs : list R) (L : R) :
  List.length whs = List.length fs -> List.length wps = List.length fs ->
  List.length wcs = List.length fs ->
  (forall i, (S i < List.length fs)%nat -> nth i fs 0 <= nth (S i) fs 0) ->
  (forall i, (i < List.length fs)%nat ->
     0 <= nth i whs 0 /\ 0 <= nth i wps 0 /\
     nth i wcs 0 ^ 2 <= nth i whs 0 * nth i wps 0) ->
  let msdv :=
    calculateMSDV pos_eqb
      (calculateVerticalMotionPSD shipPositions (map fin whs) (map fin wps)
         (map fin wcs))
      (map fin fs) in
  (In L shipPositions ->
   exists dose, 0 <= dose /\ obj_get pos_eqb msdv L = Some (fin dose)) /\
  (~ In L shipPositions -> obj_get pos_eqb msdv L = None).
Proof.
  intros Lh Lp Lc Hasc Hb msdv. subst msdv.
  unfold calculateVerticalMotionPSD.
  destruct (positions_fold
              (fun L =>
                 mapi
                   (fun heave i =>
                      (heave + pow (fin L) 2 * at_index (map fin wps) i
                       + fin 2 * fin L * at_index (map fin wcs) i)%js)
                   (map fin whs))
              shipPositions [] (NoDup_nil _)) as [Hnd Hget].
  destruct (Hget L) as [G1 G2]. split.
  - intro Hin.
    rewrite (DoseProofs.calculateMSDV_get pos_eqb DoseProofs.pos_eqb_eq _ _ _ Hnd).
    rewrite (G1 Hin), vertical_series by lia.
    unfold msdvOf.
    rewrite DoseProofs.msdvIntegral_fin by (rewrite length_map, length_seq; lia).
    eexists. split; [|rewrite sqrt_fin; [reflexivity|]].
    + apply sqrt_pos.
    + apply trapezoid_nonneg; [exact Hasc|].
      intros i Hi. rewrite length_map, length_seq in Hi.
      rewrite nth_map_seq by exact Hi.
      destruct (Hb i ltac:(lia)) as [B1 [B2 B3]]. now apply vertical_nonneg.
  - intro Hnin.
    rewrite (DoseProofs.calculateMSDV_get pos_eqb DoseProofs.pos_eqb_eq _ _ _ Hnd).
    now rewrite (G2 Hnin).
Qed.

(** X19: once [update] has stored the spectrum of a wave height from 0.01
    to 100 and a peak period of one second or more, and the two tables for 0
    knots and heading 0 load with moderate numbers, the pitch table with at
    least as many rows as the heave table, [updatePSDs] returns a result in
    which each of the seven ship positions has a dose that is a finite
    number, not negative; no other position has a dose. *)
Theorem doses_after_update (Hs Tp : R) (sensor1 : option Spectrum)
    (hd pd : RAOVisualizer.RAOData) :
  RAOVisualizer.loadRAOFile parseFloat Number fetch RAOVisualizer.heave 0 0
  = Some hd ->
  RAOVisualizer.loadRAOFile parseFloat Number fetch RAOVisualizer.pitch 0 0
  = Some pd ->
  (List.length (RAOVisualizer.periods hd)
   <= List.length (RAOVisualizer.periods pd))%nat ->
  Views.moderate_table hd -> Views.moderate_table pd ->
  0.01 <= Hs <= 100 -> 1 <= Tp ->
  exists res,
    updatePSDs parseFloat Number fetch
      (SpectrumState.getSpectrum (SpectrumState.update (fin Hs) (fin Tp)))
      sensor1 = Some res /\
    forall L,
      (In L shipPositions ->
       exists dose, 0 <= dose /\ obj_get pos_eqb (msdvValues res) L = Some (fin dose)) /\
      (~ In L shipPositions -> obj_get pos_eqb (msdvValues res) L = None).
Proof.
  intros Hh Hp Hle _ _ HHs HTp.
  destruct (ready_spectrum Hs Tp ltac:(lra) ltac:(lra)) as [ys [Esp [Lys Hpos]]].
  rewrite Esp.
  destruct (pipeline_result grid ys sensor1 hd pd Hh Hp Hle
              SpectrumProofs.grid_increasing
              ltac:(rewrite SpectrumProofs.grid_length; lia) Lys Hpos)
    as [whs [wps [wcs [L1 [L2 [L3 [Hb Hres]]]]]]].
  eexists. split; [exact Hres|]. cbn [msdvValues]. intro L.
  destruct (table_shape _ _ _ _ _ _ _ Hh) as [_ [_ Hasc]].
  apply doses_from_weighted.
  - now rewrite length_map.
  - now rewrite length_map.
  - now rewrite length_map.
  - intros i Hi. rewrite length_map in Hi. now apply Hasc.
  - intros i Hi. rewrite length_map in Hi. now apply Hb.
Qed.

End Pipeline.

Lemma doses_after_update_witness :
  exists res,
    updatePSDs RAOVisualizer.decimal_parseFloat RAOVisualizer.decimal_Number
      (fun _ _ => Some Samples.table_ascending)
      (SpectrumState.getSpectrum (SpectrumState.update (fin 2) (fin 10))) None
    = Some res /\
    exists dose, 0 <= dose /\ obj_get pos_eqb (msdvValues res) 30 = Some (fin dose).
Proof.
  destruct (doses_after_update
              RAOVisualizer.decimal_parseFloat RAOVisualizer.decimal_Number
              (fun _ _ => Some Samples.table_ascending) 2 10 None
              (RAOVisualizer.mkRAOData [1 # 10; 1 # 5; 3 # 10]%Q
                 [1; 4 # 5; 1 # 2]%Q [10; 170; 340]%Q)
              (RAOVisualizer.mkRAOData [1 # 10; 1 # 5; 3 # 10]%Q
                 [1; 4 # 5; 1 # 2]%Q [10; 170; 340]%Q))
    as [res [E D]].
  - vm_compute. reflexivity.
  - vm_compute. reflexivity.
  - cbn. lia.
  - unfold Views.moderate_table. cbn.
    repeat split; repeat constructor; vm_compute; discriminate.
  - unfold Views.moderate_table. cbn.
    repeat split; repeat constructor; vm_compute; discriminate.
  - lra.
  - lra.
  - exists res. split; [exact E|]. apply (D 30).
    unfold shipPositions. cbn. tauto.
Defined.

End PipelineProofs.

(** ** The sensors' stream of readings *)

Module SensorProofs.
Import Sensor.

Section Readings.
Context {A : Type}.

Lemma nth_error_seq (data : list A) :
  map (nth_error data) (seq 0 (List.length data)) = map Some data.
Proof.
  induction data as [|a data IH]; [reflexivity|].
  cbn [List.length seq map nth_error]. f_equal.
  rewrite <- seq_shift, map_map. exact IH.
Qed.

Lemma map_seq_from {B : Type} (f : nat -> B) (m : nat) :
  forall a, map f (seq a m) = map (fun k => f (a + k)%nat) (seq 0 m).
Proof.
  induction m as [|m IH]; intro a; [reflexivity|].
  cbn [seq map]. rewrite Nat.add_0_r. f_equal.
  rewrite (IH (S a)), <- (seq_shift m 0), map_map. apply map_ext. intro k.
  f_equal. lia.
Qed.

Lemma stream_from (data : list A) (n : nat) :
  data <> [] ->
  forall i, (i < List.length data)%nat ->
    stream data i n
    = (map (fun k => nth_error data ((i + k) mod List.length data)) (seq 0 n),
       (i + n) mod List.length data).
Proof.
  intro Hne. induction n as [|n IH]; intros i Hi.
  - cbn [stream seq map]. now rewrite Nat.add_0_r, Nat.mod_small.
  - cbn [stream]. unfold getNextReading at 1.
    destruct data as [|a data'] eqn:Ed; [contradiction|]. rewrite <- Ed in *.
    assert (Hm : List.length data <> 0%nat) by lia.
    rewrite (IH ((i + 1) mod List.length data))
      by (apply Nat.mod_upper_bound; exact Hm).
    cbn [seq map]. f_equal.
    + f_equal.
      * now rewrite Nat.add_0_r, Nat.mod_small.
      * rewrite <- seq_shift, map_map. apply map_ext. intro k.
        rewrite Nat.Div0.add_mod_idemp_l. do 2 f_equal. lia.
    + rewrite Nat.Div0.add_mod_idemp_l. f_equal. lia.
Qed.

(** X20: a sensor with readings loaded hands them out in a cycle: from an
    index inside the data, the [k]-th call returns the reading at the index
    [(i + k) mod length], never [null]; the index stays inside the data; and
    after as many calls as there are readings, starting at 0, every reading
    has been returned once, in the order of the data, and the index is 0
    again.  With no data every call returns [null] and leaves the index. *)
Theorem sensor_readings_cycle (data : list A) (i n : nat) :
  (stream (@nil A) i n = (repeat None n, i)) /\
  (data <> [] -> (i < List.length data)%nat ->
   stream data i n
   = (map (fun k => nth_error data ((i + k) mod List.length data)) (seq 0 n),
      (i + n) mod List.length data) /\
   (snd (stream data i n) < List.length data)%nat /\
   (forall r, In r (fst (stream data i n)) -> r <> None) /\
   stream data 0 (List.length data) = (map Some data, 0%nat) /\
   stream data i (n + List.length data)
   = (fst (stream data i n) ++ fst (stream data (snd (stream data i n))
                                       (List.length data)),
      snd (stream data i n))).
Proof.
  split.
  - revert i. induction n as [|n IH]; intro i; [reflexivity|].
    cbn [stream getNextReading repeat]. now rewrite IH.
  - intros Hne Hi.
    assert (Hm : List.length data <> 0%nat) by (destruct data; cbn; congruence).
    rewrite !(stream_from data _ Hne i Hi). cbn [fst snd].
    split; [reflexivity|]. split; [now apply Nat.mod_upper_bound|]. split.
    + intros r Hr. apply in_map_iff in Hr as [k [<- _]].
      apply nth_error_Some. now apply Nat.mod_upper_bound.
    + split.
      * rewrite (stream_from data _ Hne 0) by lia. cbn [Nat.add].
        rewrite Nat.Div0.mod_same. f_equal.
        rewrite <- (nth_error_seq data). apply map_ext_in. intros k Hk.
        apply in_seq in Hk. rewrite Nat.mod_small by lia. reflexivity.
      * rewrite (stream_from data _ Hne ((i + n) mod List.length data))
          by (now apply Nat.mod_upper_bound).
        cbn [fst]. f_equal.
        -- rewrite seq_app, map_app. f_equal. cbn [Nat.add].
           rewrite (map_seq_from _ _ n). apply map_ext. intro k.
           rewrite Nat.Div0.add_mod_idemp_l. do 2 f_equal. lia.
        -- rewrite Nat.add_assoc.
           rewrite <- Nat.Div0.add_mod_idemp_r, Nat.Div0.mod_same, Nat.add_0_r.
           reflexivity.
Qed.

End Readings.

Lemma sensor_readings_cycle_witness :
  stream [10; 20; 30]%nat 0 3 = ([Some 10; Some 20; Some 30]%nat, 0%nat).
Proof.
  destruct (sensor_readings_cycle [10; 20; 30]%nat 0 0) as [_ H].
  destruct H as [_ [_ [_ [H _]]]]; [discriminate | cbn; lia | exact H].
Defined.

End SensorProofs.

(** ** The estimate and the advice of the bridge dashboard *)

Module DashboardProofs.
Import JsR JsRFacts BridgeDashboard.
Local Open Scope R_scope.


Lemma alert_of_fin (m : R) :
  (updateComfortRecommendation (fin m) = alert_normal <-> m < 0.5) /\
  (updateComfortRecommendation (fin m) = alert_caution <-> 0.5 <= m < 1) /\
  (updateComfortRecommendation (fin m) = alert_warning <-> 1 <= m).
Proof.
  unfold updateComfortRecommendation, ltb, fin.
  destruct (Rlt_dec m 0.5) as [H1|H1]; [|destruct (Rlt_dec m 1.0) as [H2|H2]];
    repeat split; intros; try discriminate; try reflexivity; try lra.
Qed.




(** X23: with a finite dose and a vessel reading, a speed is advised exactly
    when the dose is above 0.8: then the speed advised is the greater of 8
    knots and 0.8 times the current speed, so never below 8 knots, and it is
    below the current speed only for a vessel faster than 8 knots.  A speed
    is always advised on a warning alert and never on a normal one. *)
Theorem speed_advice (m : R) (v : Vessel) :
  (0.8 < m ->
   optimalSpeed (Some m) (Some v) = Some (Rmax (speed v * 0.8) 8) /\
   8 <= Rmax (speed v * 0.8) 8 /\
   (Rmax (speed v * 0.8) 8 < speed v <-> 8 < speed v)) /\
  (m <= 0.8 -> optimalSpeed (Some m) (Some v) = None) /\
  (updateComfortRecommendation (fin m) = alert_warning ->
   optimalSpeed (Some m) (Some v) <> None) /\
  (updateComfortRecommendation (fin m) = alert_normal ->
   optimalSpeed (Some m) (Some v) = None) /\
  optimalSpeed None (Some v) = None /\
  optimalSpeed (Some m) None = None.
Proof.
  assert (Hhigh : 0.8 < m ->
            optimalSpeed (Some m) (Some v) = Some (Rmax (speed v * 0.8) 8)).
  { intro Hm. unfold optimalSpeed.
    destruct (Req_dec_T m 0) as [E|_]; [lra|].
    destruct (Rlt_dec 0.8 m) as [_|n]; [reflexivity | contradiction]. }
  assert (Hlow : m <= 0.8 -> optimalSpeed (Some m) (Some v) = None).
  { intro Hm. unfold optimalSpeed.
    destruct (Req_dec_T m 0) as [_|_]; [reflexivity|].
    destruct (Rlt_dec 0.8 m) as [H|_]; [lra | reflexivity]. }
  destruct (alert_of_fin m) as [A1 [_ A3]].
  split; [|split; [|split; [|split; [|split]]]].
  - intro Hm. split; [now apply Hhigh|]. split; [apply Rmax_r|].
    unfold Rmax. destruct (Rle_dec (speed v * 0.8) 8); split; intro; lra.
  - exact Hlow.
  - intro Hw. apply A3 in Hw. rewrite Hhigh by lra. discriminate.
  - intro Hn. apply A1 in Hn. apply Hlow. lra.
  - reflexivity.
  - reflexivity.
Qed.

Lemma speed_advice_witness :
  optimalSpeed (Some 0.9) (Some (mkVessel 5 0)) = Some (Rmax (5 * 0.8) 8).
Proof.
  destruct (speed_advice 0.9 (mkVessel 5 0)) as [H _].
  apply H. lra.
Defined.



End DashboardProofs.

(** ** The calibration on a wave height that is not positive *)

Module EdgeProofs.
Import JsR JsRFacts JonswapSpectrum Reference.
Import SpectrumProofs.
Local Open Scope R_scope.

(** Once [alpha] is not a number it stays so. *)
Lemma alpha_loop_nan (omega : list num) (targetHs Tp gamma g : num) (n : nat) :
  alpha_loop omega targetHs Tp gamma g n None = None.
Proof.
  induction n as [|n IH]; [reflexivity|].
  cbn [alpha_loop].
  match goal with |- (if ?c then _ else _) = _ => destruct c end;
    [reflexivity | exact IH].
Qed.

(** A turn of the loop on a target that is not a number. *)
Lemma alpha_loop_nan_target (omega : list num) (Tp gamma g alpha : num) (n : nat) :
  alpha_loop omega None Tp gamma g (S n) alpha = None.
Proof.
  assert (Hdiv : forall x : num, (None / x)%js = None) by reflexivity.
  cbn [alpha_loop]. rewrite !Hdiv. cbn [sub abs lift1 lift2 ltb].
  replace (alpha * None)%js with (@None R) by (now destruct alpha).
  apply alpha_loop_nan.
Qed.

Lemma moment0_of_alpha (alpha Tp : R) :
  moment0 alpha Tp = alpha / 0.0081 * moment0 0.0081 Tp.
Proof.
  rewrite <- moment0_scale. f_equal. field. lra.
Qed.

(** A turn of the loop on an [alpha] that is not positive. *)
Lemma alpha_loop_nonpositive (Hs Tp alpha : R) (n : nat) :
  0 < Tp -> alpha <= 0 ->
  alpha_loop omega_grid (fin Hs) (fin Tp) (fin 3.3) (fin 9.81) (S n) (fin alpha)
  = None.
Proof.
  intros HTp Ha. cbn [alpha_loop].
  rewrite moment0_integral by exact HTp.
  pose proof (moment0_pos 0.0081 Tp ltac:(lra)) as Hm.
  assert (Hle : moment0 alpha Tp <= 0).
  { rewrite moment0_of_alpha.
    assert (alpha / 0.0081 <= 0) by lra. nra. }
  assert (Hratio : (fin Hs / (fin 4 * sqrt (fin (moment0 alpha Tp))))%js = None).
  { destruct (Rlt_dec (moment0 alpha Tp) 0) as [Hneg|Hz].
    - now rewrite sqrt_negative.
    - assert (E : moment0 alpha Tp = 0) by lra.
      rewrite E, sqrt_fin, sqrt_0 by lra.
      js_simpl. unfold div.
      destruct (Req_dec_T (4 * 0) 0) as [_|Hn]; [reflexivity | exfalso; lra]. }
  rewrite Hratio. cbn [sub abs lift1 lift2 ltb mul fin].
  apply alpha_loop_nan.
Qed.

(** The calibration on a target that is zero, negative or not a number. *)
Lemma calibration_nan (Hs : num) (Tp : R) :
  match Hs with Some h => h <= 0 | None => True end ->
  0 < Tp ->
  calculateAlphaIterative omega_grid Hs (fin Tp) (fin 3.3) (fin 9.81) = None.
Proof.
  intros HHs HTp. unfold calculateAlphaIterative, maxIter.
  destruct Hs as [h|]; [|apply alpha_loop_nan_target].
  change (Some h) with (fin h).
  rewrite alpha_loop_step by (first [exact HTp | lra]).
  pose proof (estimatedHs_pos 0.0081 Tp ltac:(lra)) as He.
  assert (Hr : h / estimatedHs 0.0081 Tp <= 0).
  { unfold Rdiv. pose proof (Rinv_0_lt_compat _ He). nra. }
  destruct (Rlt_dec (Rabs (h / estimatedHs 0.0081 Tp - 1)) 1e-3) as [Hin|_].
  - exfalso. apply Rabs_def2 in Hin. lra.
  - apply alpha_loop_nonpositive; [exact HTp|].
    unfold update_alpha. nra.
Qed.

Lemma spectralDensity_nan (Tp gamma g w : num) :
  spectralDensity None Tp gamma g w = None.
Proof. reflexivity. Qed.

(** X25: for a wave height that is zero, negative or not a number, and a
    positive peak period, the calibration returns no number for alpha and
    [calculateSpectrum] returns its 600 points with no finite density at any
    frequency. *)
Theorem no_spectrum_without_waves (Hs : num) (Tp : R) :
  match Hs with Some h => h <= 0 | None => True end ->
  0 < Tp ->
  calculateAlphaIterative omega_grid Hs (fin Tp) (fin 3.3) (fin 9.81) = None /\
  calculateSpectrum Hs (fin Tp) = map (fun w => (fin w, None)) grid /\
  List.length (calculateSpectrum Hs (fin Tp)) = 600%nat.
Proof.
  intros HHs HTp.
  pose proof (calibration_nan Hs Tp HHs HTp) as Halpha.
  assert (E : calculateSpectrum Hs (fin Tp) = map (fun w => (fin w, None)) grid).
  { unfold calculateSpectrum. rewrite Halpha, omega_grid_is_grid, map_map.
    apply map_ext. intro w. now rewrite spectralDensity_nan. }
  split; [exact Halpha|]. split; [exact E|].
  rewrite E, length_map. apply grid_length.
Qed.

Lemma no_spectrum_without_waves_witness :
  calculateSpectrum (fin 0) (fin 10) = map (fun w => (fin w, None)) grid.
Proof.
  destruct (no_spectrum_without_waves (fin 0) 10) as [_ [H _]];
    [cbn; lra | lra | exact H].
Defined.

End EdgeProofs.

(** ** Doses that are not numbers *)

Module NanProofs.
Import JsR JsRFacts PowerSpectralDensity Reference.
Import StageProofs.
Local Open Scope R_scope.

Lemma mul_nan_r (a : num) : (a * None)%js = None.
Proof. now destruct a. Qed.

Lemma add_nan_r (a : num) : (a + None)%js = None.
Proof. now destruct a. Qed.

(** A folded step that keeps [NaN], and that gives [NaN] at one of the
    indices visited, ends on [NaN]. *)
Lemma fold_hits_nan {A : Type} (f : num -> A -> num) (l : list A) (j : A) :
  (forall a, f None a = None) ->
  In j l -> (forall acc, f acc j = None) ->
  forall acc, fold_left f l acc = None.
Proof.
  intros Hnan Hin Hj. induction l as [|a l IH]; intro acc; [destruct Hin|].
  cbn [fold_left]. destruct Hin as [->|Hin].
  - rewrite Hj. clear IH. induction l as [|b l IHl]; [reflexivity|].
    cbn [fold_left]. now rewrite Hnan.
  - now apply IH.
Qed.

(** One value of the series that is not a number, at an index of a grid of
    two frequencies or more, leaves no number for the integral. *)
Lemma msdvIntegral_nan (S_yy frequencies : list num) (i0 : nat) :
  (i0 < List.length frequencies)%nat -> (2 <= List.length frequencies)%nat ->
  nth i0 S_yy None = None ->
  msdvIntegral S_yy frequencies = None.
Proof.
  intros Hi Hn Hnan. unfold msdvIntegral.
  apply (fold_hits_nan _ _ (Z.of_nat (Nat.max i0 1))).
  - intro a. reflexivity.
  - unfold loop_from_1. apply in_map, in_seq. lia.
  - intro acc. cbv zeta.
    assert (Havg : (at_index S_yy (Z.of_nat (Nat.max i0 1))
                    + at_index S_yy (Z.of_nat (Nat.max i0 1) - 1))%js = None).
    { destruct i0 as [|i0].
      - change (Z.of_nat (Nat.max 0 1) - 1)%Z with (Z.of_nat 0).
        rewrite (at_index_nth S_yy 0), Hnan. apply add_nan_r.
      - replace (Nat.max (S i0) 1) with (S i0) by lia.
        now rewrite (at_index_nth S_yy (S i0)), Hnan. }
    rewrite Havg. cbn [div mul lift2]. apply add_nan_r.
Qed.

Lemma mapi_nth_nan (f : num -> Z -> num) (l : list num) (i : nat) :
  (forall x, f x (Z.of_nat i) = None) -> nth i (mapi f l) None = None.
Proof.
  intro Hf. destruct (Nat.lt_ge_cases i (List.length l)) as [Hlt|Hge].
  - rewrite (mapi_nth (A:=num) (B:=num) f l None None i Hlt). apply Hf.
  - apply nth_overflow. now rewrite mapi_length.
Qed.

Lemma mapi_nth_keeps_nan (f : num -> Z -> num) (l : list num) (i : nat) :
  nth i l None = None -> (forall j, f None j = None) ->
  nth i (mapi f l) None = None.
Proof.
  intros Hl Hf. destruct (Nat.lt_ge_cases i (List.length l)) as [Hlt|Hge].
  - rewrite (mapi_nth (A:=num) (B:=num) f l None None i Hlt), Hl. apply Hf.
  - apply nth_overflow. now rewrite mapi_length.
Qed.

Lemma weightAt_nan (PSD : list num) (w : num) (i : nat) :
  nth i PSD None = None -> weightAt PSD w (Z.of_nat i) = None.
Proof.
  intro H. unfold weightAt. rewrite at_index_nth, H. apply mul_nan_r.
Qed.

Lemma interpolateAt_nan (waveFreq waveSpec : list num) (freq : num) :
  (forall i, at_index waveSpec i = None) ->
  interpolateAt waveFreq waveSpec freq = None.
Proof.
  intro H. unfold interpolateAt. cbv zeta.
  destruct (_ =? 0)%Z; [apply H|].
  destruct (_ =? -1)%Z; [apply H|].
  now rewrite !H.
Qed.

Section Pipeline.

Variable parseFloat : string -> RAOVisualizer.qnum.
Variable Number : string -> RAOVisualizer.qnum.
Variable fetch : RAOVisualizer.dof -> Z -> option string.

(** With a spectrum and the two tables, [updatePSDs] returns the doses
    computed from the three weighted series; where the acceleration PSD of
    the pitch has no number at one of the frequencies, of which there are two
    or more, no position has a number for its dose. *)
Lemma doses_nan_at (ws : Spectrum) (sensor1 : option Spectrum)
    (hd pd : RAOVisualizer.RAOData) (i0 : nat) :
  frequencies ws <> [] -> spectralDensities ws <> [] ->
  RAOVisualizer.loadRAOFile parseFloat Number fetch RAOVisualizer.heave 0 0
  = Some hd ->
  RAOVisualizer.loadRAOFile parseFloat Number fetch RAOVisualizer.pitch 0 0
  = Some pd ->
  (i0 < List.length (RAOVisualizer.periods hd))%nat ->
  (2 <= List.length (RAOVisualizer.periods hd))%nat ->
  nth i0
    (accPitchPSD
       (convertToAccelerationPSDs (of_table (RAOVisualizer.periods hd))
          (calculateDisplacementPSDs
             (of_table (RAOVisualizer.amplitudes hd))
             (of_table (RAOVisualizer.amplitudes pd))
             (of_table (RAOVisualizer.phases hd))
             (of_table (RAOVisualizer.phases pd))
             (interpolateWaveSpectrum (frequencies ws) (spectralDensities ws)
                (of_table (RAOVisualizer.periods hd))))))
    None = None ->
  exists res,
    updatePSDs parseFloat Number fetch ws sensor1 = Some res /\
    forall L, In L shipPositions ->
      obj_get pos_eqb (msdvValues res) L = Some None.
Proof.
  intros Hf Hd Hh Hp Hi Hn Hnan.
  assert (N1 : is_nil (frequencies ws) = false)
    by (destruct (frequencies ws); [contradiction | reflexivity]).
  assert (N2 : is_nil (spectralDensities ws) = false)
    by (destruct (spectralDensities ws); [contradiction | reflexivity]).
  unfold updatePSDs. cbv zeta. rewrite N1. cbv iota. rewrite N1, N2. cbn [orb].
  rewrite Hh, Hp. eexists. split; [reflexivity|].
  cbn [msdvValues]. intros L HL.
  set (freqRAO := of_table (RAOVisualizer.periods hd)) in *.
  assert (Lf : List.length freqRAO = List.length (RAOVisualizer.periods hd))
    by (unfold freqRAO, of_table; now rewrite length_map).
  unfold calculateVerticalMotionPSD.
  match goal with
  | |- context [fold_left (fun o L0 => obj_set pos_eqb o L0 (@?g L0)) _ _] =>
      destruct (positions_fold g shipPositions [] (NoDup_nil _)) as [Hnd Hget]
  end.
  rewrite (DoseProofs.calculateMSDV_get pos_eqb DoseProofs.pos_eqb_eq _ _ _ Hnd).
  rewrite (proj1 (Hget L) HL). f_equal.
  unfold msdvOf. rewrite (msdvIntegral_nan _ _ i0); [reflexivity | lia | lia |].
  apply mapi_nth_nan. intro heave.
  assert (Hw : forall (A : list num) (B : list num),
             nth i0 A None = None ->
             at_index (applyWfWeighting B A) (Z.of_nat i0) = None).
  { intros A B HA. rewrite at_index_nth. unfold applyWfWeighting.
    apply mapi_nth_nan. intro w. now apply weightAt_nan. }
  rewrite (Hw _ _ Hnan). cbn [pow fin lift1 mul lift2].
  rewrite add_nan_r. reflexivity.
Qed.

(** X26: when the pitch table has fewer rows than the heave table, and the
    heave table has two rows or more, [updatePSDs], for any spectrum that is
    not empty, returns a result in which none of the seven ship positions has
    a number for its dose: the values read past the end of the pitch table
    are [undefined]. *)
Theorem short_pitch_table_gives_no_dose (ws : Spectrum)
    (sensor1 : option Spectrum) (hd pd : RAOVisualizer.RAOData) :
  frequencies ws <> [] -> spectralDensities ws <> [] ->
  RAOVisualizer.loadRAOFile parseFloat Number fetch RAOVisualizer.heave 0 0
  = Some hd ->
  RAOVisualizer.loadRAOFile parseFloat Number fetch RAOVisualizer.pitch 0 0
  = Some pd ->
  (List.length (RAOVisualizer.periods pd)
   < List.length (RAOVisualizer.periods hd))%nat ->
  (2 <= List.length (RAOVisualizer.periods hd))%nat ->
  exists res,
    updatePSDs parseFloat Number fetch ws sensor1 = Some res /\
    forall L, In L shipPositions ->
      obj_get pos_eqb (msdvValues res) L = Some None.
Proof.
  intros Hf Hd Hh Hp Hlt Hn.
  destruct (PipelineProofs.table_shape _ _ _ _ _ _ _ Hp) as [PA _].
  apply (doses_nan_at ws sensor1 hd pd (List.length (RAOVisualizer.periods pd)));
    try assumption.
  apply nth_overflow.
  unfold convertToAccelerationPSDs, calculateDisplacementPSDs.
  cbn [accPitchPSD pitchPSD_unw].
  rewrite !mapi_length. unfold of_table. rewrite length_map, PA. lia.
Qed.

(** X27: once [update] has stored the spectrum of a wave height that is
    zero, negative or not a number, with a positive peak period, and the two
    tables load, the heave table with two rows or more, [updatePSDs] returns
    a result in which none of the seven ship positions has a number for its
    dose. *)
Theorem no_dose_without_waves (Hs : num) (Tp : R) (sensor1 : option Spectrum)
    (hd pd : RAOVisualizer.RAOData) :
  match Hs with Some h => h <= 0 | None => True end ->
  0 < Tp ->
  RAOVisualizer.loadRAOFile parseFloat Number fetch RAOVisualizer.heave 0 0
  = Some hd ->
  RAOVisualizer.loadRAOFile parseFloat Number fetch RAOVisualizer.pitch 0 0
  = Some pd ->
  (2 <= List.length (RAOVisualizer.periods hd))%nat ->
  exists res,
    updatePSDs parseFloat Number fetch
      (SpectrumState.getSpectrum (SpectrumState.update Hs (fin Tp))) sensor1
    = Some res /\
    forall L, In L shipPositions ->
      obj_get pos_eqb (msdvValues res) L = Some None.
Proof.
  intros HHs HTp Hh Hp Hn.
  pose proof (EdgeProofs.calibration_nan Hs Tp HHs HTp) as Halpha.
  assert (Hlen : forall l : list (num * num),
             List.length l = 600%nat -> map fst l <> [] /\ map snd l <> []).
  { intros [|a l] Hl; [discriminate | split; discriminate]. }
  destruct (Hlen _ (StateProofs.calculateSpectrum_length Hs (fin Tp))) as [F D].
  apply (doses_nan_at _ sensor1 hd pd 0%nat); try assumption; [lia|].
  unfold SpectrumState.getSpectrum, SpectrumState.update.
  cbn [frequencies spectralDensities].
  assert (Hdens : forall i,
            at_index (map snd (JonswapSpectrum.calculateSpectrum Hs (fin Tp))) i
            = None).
  { intro i. unfold JonswapSpectrum.calculateSpectrum. rewrite Halpha, map_map.
    cbn [snd]. unfold at_index. destruct (i <? 0)%Z; [reflexivity|].
    destruct (Nat.lt_ge_cases (Z.to_nat i)
                (List.length JonswapSpectrum.omega_grid)) as [Hlt|Hge].
    - rewrite (nth_indep _ None ((fun _ : num => @None R) None))
        by (now rewrite length_map).
      now rewrite (map_nth (fun _ : num => @None R)).
    - apply nth_overflow. now rewrite length_map. }
  unfold convertToAccelerationPSDs, calculateDisplacementPSDs.
  cbn [accPitchPSD pitchPSD_unw].
  apply mapi_nth_keeps_nan; [|reflexivity].
  apply mapi_nth_nan. intro amp.
  assert (Hw0 : at_index
                  (interpolateWaveSpectrum
                     (map fst (JonswapSpectrum.calculateSpectrum Hs (fin Tp)))
                     (map snd (JonswapSpectrum.calculateSpectrum Hs (fin Tp)))
                     (of_table (RAOVisualizer.periods hd))) (Z.of_nat 0)
                = None).
  { rewrite at_index_nth. unfold interpolateWaveSpectrum.
    destruct (of_table (RAOVisualizer.periods hd)) as [|q qs]; [reflexivity|].
    cbn [map nth]. now apply interpolateAt_nan. }
  rewrite Hw0. apply mul_nan_r.
Qed.

End Pipeline.

Lemma short_pitch_table_gives_no_dose_witness :
  exists res,
    updatePSDs RAOVisualizer.decimal_parseFloat RAOVisualizer.decimal_Number
      (fun type _ =>
         match type with
         | RAOVisualizer.heave => Some Samples.table_ascending
         | RAOVisualizer.pitch => Some Samples.table_one_row
         end)
      (mkSpectrum [fin 1] [fin 1]) None = Some res /\
    obj_get pos_eqb (msdvValues res) 0 = Some None.
Proof.
  destruct (short_pitch_table_gives_no_dose
              RAOVisualizer.decimal_parseFloat RAOVisualizer.decimal_Number
              (fun type _ =>
                 match type with
                 | RAOVisualizer.heave => Some Samples.table_ascending
                 | RAOVisualizer.pitch => Some Samples.table_one_row
                 end)
              (mkSpectrum [fin 1] [fin 1]) None
              (RAOVisualizer.mkRAOData [1 # 10; 1 # 5; 3 # 10]%Q
                 [1; 4 # 5; 1 # 2]%Q [10; 170; 340]%Q)
              (RAOVisualizer.mkRAOData [1 # 10]%Q [1]%Q [10]%Q))
    as [res [E D]].
  - discriminate.
  - discriminate.
  - vm_compute. reflexivity.
  - vm_compute. reflexivity.
  - cbn. lia.
  - cbn. lia.
  - exists res. split; [exact E|]. apply D. unfold shipPositions. cbn. tauto.
Defined.

Lemma no_dose_without_waves_witness :
  exists res,
    updatePSDs RAOVisualizer.decimal_parseFloat RAOVisualizer.decimal_Number
      (fun _ _ => Some Samples.table_ascending)
      (SpectrumState.getSpectrum (SpectrumState.update (fin 0) (fin 10))) None
    = Some res /\
    obj_get pos_eqb (msdvValues res) 0 = Some None.
Proof.
  destruct (no_dose_without_waves
              RAOVisualizer.decimal_parseFloat RAOVisualizer.decimal_Number
              (fun _ _ => Some Samples.table_ascending) (fin 0) 10 None
              (RAOVisualizer.mkRAOData [1 # 10; 1 # 5; 3 # 10]%Q
                 [1; 4 # 5; 1 # 2]%Q [10; 170; 340]%Q)
              (RAOVisualizer.mkRAOData [1 # 10; 1 # 5; 3 # 10]%Q
                 [1; 4 # 5; 1 # 2]%Q [10; 170; 340]%Q))
    as [res [E D]].
  - cbn. lra.
  - lra.
  - vm_compute. reflexivity.
  - vm_compute. reflexivity.
  - cbn. lia.
  - exists res. split; [exact E|]. apply D. unfold shipPositions. cbn. tauto.
Defined.

End NanProofs.
